(** * cs2-stat: the scrape pipeline of [internal/server]

    A shallow embedding of the discovery / extraction / assembly /
    aggregation pipeline of the [server] package, and the properties its
    specification states about it.

    Conventions.
    - Go [string] is [string]; a slice is a [list]; [float64] is Rocq's
      primitive binary64 [float], so sums and quotients below are the
      IEEE-754 ones.
    - [strconv.ParseFloat], the chromedp page loads, the FaceIt HTTP calls
      and the SQL driver are collaborators outside the package: they enter
      as [Variable]s of the section that uses them.
    - A run-time panic (index out of range) is an explicit outcome. *)

From Stdlib Require Import ZArith Ascii String Uint63 Floats DecimalString DecimalZ DecimalFacts.
From stdpp Require Import base tactics option list gmap strings.

Set Warnings "-inexact-float".

Open Scope string_scope.
Open Scope list_scope.

(** ** Data model *)

Record PlayerStats := mkPlayerStats {
  Name : string;
  LeetifyRating : string;
  PersonalPerformance : string;
  HLTVRating : string;
  KD : string;
  ADR : string;
  Aim : string;
  Utility : string
}.

Record Team := mkTeam {
  Players : list PlayerStats;
  Won : bool
}.

(** [Teams [2]Team]: index 0 is the winner, index 1 the loser. *)
Record Match := mkMatch {
  Teams : Team * Team;
  MatchURL : string
}.

(** The field [MatchURL] of [MatchAverageStats] is [AvgMatchURL] here
    ([Match] has the name already). *)
Record MatchAverageStats := mkMatchAverageStats {
  AvgMatchURL : string;
  WinAvgLeetifyRating : float;
  WinAvgPersonalPerformance : float;
  WinAvgHTLVRating : float;
  WinAvgKD : float;
  WinAvgAim : float;
  WinAvgUtility : float;
  LossAvgLeetifyRating : float;
  LossAvgPersonalPerformance : float;
  LossAvgHTLVRating : float;
  LossAvgKD : float;
  LossAvgAim : float;
  LossAvgUtility : float
}.

(** [ScrapedMatchData]: the raw rows of one match page and its URL. *)
Record ScrapedMatchData := mkScraped {
  Data : list (list string);
  URL : string
}.

(** ** Aggregation: [getAverageMatchStats] *)

(** The six running sums of one team loop ([winLeetify], ... or
    [lossLeetify], ...), all starting at the zero value. *)
Record TeamSums := mkSums {
  sumLeetify : float;
  sumPersonalPerformance : float;
  sumHLTV : float;
  sumKD : float;
  sumAim : float;
  sumUtility : float
}.

Definition zeroSums : TeamSums := mkSums 0 0 0 0 0 0.

Definition teamSize : float := 5.

Section Aggregation.

(** [strconv.ParseFloat(s, 64)]: [None] stands for [err != nil]. *)
Variable ParseFloat : string -> option float.

(** One iteration of a team loop.  The sums are updated field by field as
    the fields parse; the boolean is [skipMatch], set by the first field
    that does not parse (the [break]). *)
Definition playerStep (acc : TeamSums) (player : PlayerStats) : TeamSums * bool :=
  match ParseFloat (LeetifyRating player) with
  | None => (acc, true)
  | Some lr =>
    let a1 := mkSums (sumLeetify acc + lr) (sumPersonalPerformance acc)
                (sumHLTV acc) (sumKD acc) (sumAim acc) (sumUtility acc) in
    match ParseFloat (PersonalPerformance player) with
    | None => (a1, true)
    | Some pp =>
      let a2 := mkSums (sumLeetify a1) (sumPersonalPerformance a1 + pp)
                  (sumHLTV a1) (sumKD a1) (sumAim a1) (sumUtility a1) in
      match ParseFloat (HLTVRating player) with
      | None => (a2, true)
      | Some hr =>
        let a3 := mkSums (sumLeetify a2) (sumPersonalPerformance a2)
                    (sumHLTV a2 + hr) (sumKD a2) (sumAim a2) (sumUtility a2) in
        match ParseFloat (KD player) with
        | None => (a3, true)
        | Some kdr =>
          let a4 := mkSums (sumLeetify a3) (sumPersonalPerformance a3)
                      (sumHLTV a3) (sumKD a3 + kdr) (sumAim a3) (sumUtility a3) in
          match ParseFloat (Aim player) with
          | None => (a4, true)
          | Some aim =>
            let a5 := mkSums (sumLeetify a4) (sumPersonalPerformance a4)
                        (sumHLTV a4) (sumKD a4) (sumAim a4 + aim) (sumUtility a4) in
            match ParseFloat (Utility player) with
            | None => (a5, true)
            | Some util =>
              (mkSums (sumLeetify a5) (sumPersonalPerformance a5)
                 (sumHLTV a5) (sumKD a5) (sumAim a5) (sumUtility a5 + util),
               false)
            end
          end
        end
      end
    end
  end.

(** [for _, player := range team.Players { ... }] with its [break]. *)
Fixpoint teamLoop (players : list PlayerStats) (acc : TeamSums) : TeamSums * bool :=
  match players with
  | [] => (acc, false)
  | player :: rest =>
    let '(acc', skipMatch) := playerStep acc player in
    if skipMatch then (acc', true) else teamLoop rest acc'
  end.

(** The body of the loop over [matches]: [None] is a [continue] taken
    because [skipMatch] was set, [Some] is the record that is appended. *)
Definition matchIteration (m : Match) : option MatchAverageStats :=
  let '(w, skipMatch) := teamLoop (Players (Teams m).1) zeroSums in
  if skipMatch then None else
  let '(l, skipMatch) := teamLoop (Players (Teams m).2) zeroSums in
  if skipMatch then None else
  Some (mkMatchAverageStats (MatchURL m)
          (sumLeetify w / teamSize) (sumPersonalPerformance w / teamSize)
          (sumHLTV w / teamSize) (sumKD w / teamSize)
          (sumAim w / teamSize) (sumUtility w / teamSize)
          (sumLeetify l / teamSize) (sumPersonalPerformance l / teamSize)
          (sumHLTV l / teamSize) (sumKD l / teamSize)
          (sumAim l / teamSize) (sumUtility l / teamSize)).

(** [getAverageMatchStats]; its error result is always [nil]. *)
Definition getAverageMatchStats (matches : list Match) : list MatchAverageStats :=
  foldl (fun matchesAverageStats m =>
           match matchIteration m with
           | None => matchesAverageStats
           | Some s => matchesAverageStats ++ [s]
           end) [] matches.

(** *** Vocabulary of the properties *)

(** The six fields the aggregation parses, in the order it parses them
    ([ADR] and [Name] are never parsed). *)
Definition requiredFields (p : PlayerStats) : list string :=
  [LeetifyRating p; PersonalPerformance p; HLTVRating p; KD p; Aim p; Utility p].

Definition parses (s : string) : Prop := is_Some (ParseFloat s).

Definition playerParses (p : PlayerStats) : Prop := Forall parses (requiredFields p).

(** Every required field of every player of both teams parses. *)
Definition allFieldsParse (m : Match) : Prop :=
  Forall playerParses (Players (Teams m).1 ++ Players (Teams m).2).

(** The parsed values of one field down a team, in player order. *)
Definition parsedColumn (field : PlayerStats -> string) (ps : list PlayerStats) : list float :=
  omap (fun p => ParseFloat (field p)) ps.

(** Left-to-right binary64 sum from [+0], and the team average. *)
Definition floatSum (vs : list float) : float := foldl PrimFloat.add 0%float vs.

Definition teamAverage (vs : list float) : float := (floatSum vs / teamSize)%float.

End Aggregation.

(** ** Match assembly: the second half of [scrapeMatchesWithWorkers] *)

(** What a piece of Go code that indexes a slice can do: finish with a
    value, or panic with [index out of range [i] with length len]. *)
Inductive result (A : Type) : Type :=
| Ok (a : A)
| IndexOutOfRange (i len : nat).
Arguments Ok {A} a.
Arguments IndexOutOfRange {A} i len.

Definition bind {A B : Type} (r : result A) (k : A -> result B) : result B :=
  match r with
  | Ok a => k a
  | IndexOutOfRange i len => IndexOutOfRange i len
  end.

Notation "x <-! r ; k" := (bind r (fun x => k))
  (at level 100, r at next level, right associativity, only parsing).

(** [player[i]] on a Go slice. *)
Definition index (player : list string) (i : nat) : result string :=
  match player !! i with
  | Some cell => Ok cell
  | None => IndexOutOfRange i (length player)
  end.

(** The composite literal [PlayerStats{Name: player[0], ..., Utility:
    player[7]}]: the index expressions are evaluated in source order. *)
Definition buildPlayer (player : list string) : result PlayerStats :=
  c0 <-! index player 0;
  c1 <-! index player 1;
  c2 <-! index player 2;
  c3 <-! index player 3;
  c4 <-! index player 4;
  c5 <-! index player 5;
  c6 <-! index player 6;
  c7 <-! index player 7;
  Ok (mkPlayerStats c0 c1 c2 c3 c4 c5 c6 c7).

(** The filter loop: rows with [len(player) == 0] are skipped. *)
Definition validRows (data : list (list string)) : list (list string) :=
  filter (fun player : list string => length player <> 0) data.

(** [for i, player := range validMatches[:10]], started at index [i] with
    the two slices built so far. *)
Fixpoint playersLoop (i : nat) (rows : list (list string))
    (winPlayers losePlayers : list PlayerStats)
    : result (list PlayerStats * list PlayerStats) :=
  match rows with
  | [] => Ok (winPlayers, losePlayers)
  | player :: rest =>
    p <-! buildPlayer player;
    if (i <? 5)%nat then playersLoop (S i) rest (winPlayers ++ [p]) losePlayers
    else playersLoop (S i) rest winPlayers (losePlayers ++ [p])
  end.

(** One iteration of the loop over [allMatches]: [Ok None] is the logged
    [continue] (fewer than 10 valid rows), [Ok (Some m)] the appended
    [Match]. *)
Definition assembleMatch (scraped : ScrapedMatchData) : result (option Match) :=
  let validMatches := validRows (Data scraped) in
  if (length validMatches <? 10)%nat then Ok None
  else
    players <-! playersLoop 0 (take 10 validMatches) [] [];
    let '(winPlayers, losePlayers) := players in
    Ok (Some (mkMatch (mkTeam winPlayers true, mkTeam losePlayers false)
                (URL scraped))).

(** The whole loop, with the slice [matches] built so far. *)
Fixpoint assembleLoop (allMatches : list ScrapedMatchData) (matches : list Match)
    : result (list Match) :=
  match allMatches with
  | [] => Ok matches
  | scraped :: rest =>
    r <-! assembleMatch scraped;
    assembleLoop rest (match r with Some m => matches ++ [m] | None => matches end)
  end.

Definition assembleMatches (allMatches : list ScrapedMatchData) : result (list Match) :=
  assembleLoop allMatches [].

(** The positional reading of a row the specification describes, total
    (a missing cell reads as the empty string): on rows of at least eight
    cells it is what [buildPlayer] returns. *)
Definition cell (row : list string) (i : nat) : string := default "" (row !! i).

Definition positionalPlayer (row : list string) : PlayerStats :=
  mkPlayerStats (cell row 0) (cell row 1) (cell row 2) (cell row 3)
    (cell row 4) (cell row 5) (cell row 6) (cell row 7).

(** The width precondition: each of the first ten non-empty rows has at
    least eight cells. *)
Definition wideEnough (scraped : ScrapedMatchData) : Prop :=
  Forall (fun row : list string => 8 <= length row) (take 10 (validRows (Data scraped))).

(** ** Link deduplication: the tail of [scrapeMatchLinksWithWorkers] *)

(** [seen[link]] on a [map[string]bool]: a missing key reads [false]. *)
Definition seenLookup (seen : gmap string bool) (link : string) : bool :=
  default false (seen !! link).

Definition dedupStep (st : gmap string bool * list string) (link : string)
    : gmap string bool * list string :=
  let '(seen, uniqueMatchLinks) := st in
  if negb (seenLookup seen link)
  then (<[link := true]> seen, uniqueMatchLinks ++ [link])
  else (seen, uniqueMatchLinks).

Definition dedupLoop (matchLinks : list string) : gmap string bool * list string :=
  foldl dedupStep (∅, []) matchLinks.

Definition uniqueMatchLinks (matchLinks : list string) : list string :=
  (dedupLoop matchLinks).2.

(** ** FaceIt URLs *)

Definition topPlayersURL : string :=
  "https://open.faceit.com/data/v4/rankings/games/cs2/regions/".

Definition playerDetailsURL : string :=
  "https://open.faceit.com/data/v4/players/".

(** The verb [%d] of [fmt.Sprintf] on an [int]. *)
Definition fmtInt (n : Z) : string := NilZero.string_of_int (Z.to_int n).

Definition maxLimit : Z := 50.

Definition getTopPlayersURL (region : string) (limit : Z) : string :=
  if (limit >? maxLimit)%Z
  then topPlayersURL +:+ region +:+ "?offset=0&limit=" +:+ fmtInt maxLimit
  else topPlayersURL +:+ region +:+ "?offset=0&limit=" +:+ fmtInt limit.

Definition getPlayerDetailsURL (playerID : string) : string :=
  playerDetailsURL +:+ playerID.

(** ** Channels, goroutines and the worker pools *)

(** A buffered Go channel: its queue, its capacity, whether it is closed. *)
Record chan (A : Type) := mkChan {
  buf : list A;
  cap : nat;
  closed : bool
}.
Arguments mkChan {A} buf cap closed.
Arguments buf {A} c.
Arguments cap {A} c.
Arguments closed {A} c.

Definition makeChan {A : Type} (n : nat) : chan A := mkChan [] n false.

(** What one goroutine can do next in a given state: take a step, stay
    blocked, or panic. *)
Inductive outcome (S : Type) : Type :=
| Next (s : S)
| Blocked
| Panics.
Arguments Next {S} s.
Arguments Blocked {S}.
Arguments Panics {S}.

(** [ch <- a]: blocks on a full buffer, panics on a closed channel. *)
Definition send {A : Type} (a : A) (c : chan A) : outcome (chan A) :=
  if closed c then Panics
  else if (length (buf c) <? cap c)%nat then Next (mkChan (buf c ++ [a]) (cap c) false)
  else Blocked.

(** [<-ch] as [range] and [select] use it: the oldest element if there is
    one; on an empty channel, [None] once it is closed, blocked before. *)
Definition recv {A : Type} (c : chan A) : outcome (option A * chan A) :=
  match buf c with
  | a :: rest => Next (Some a, mkChan rest (cap c) (closed c))
  | [] => if closed c then Next (None, c) else Blocked
  end.

(** [close(ch)]: closing twice panics. *)
Definition close {A : Type} (c : chan A) : outcome (chan A) :=
  if closed c then Panics else Next (mkChan (buf c) (cap c) true).

Definition numWorkers : nat := 5.

Section Workers.

(** [J]: jobs; [E]: what the external call of the loop body (a page load,
    an HTTP fetch) comes back with; [R]: results. *)
Context {J E R : Type}.

(** The rest of the loop body: given the job and the outcome of the
    external call, [None] is [continue], [Some r] is [results <- r]. *)
Variable handler : J -> E -> option R.

(** Where a worker goroutine stands. *)
Inductive worker : Type :=
| AtRange
| Running (job : J)
| Sending (r : R)
| Returned
| Exited.

(** The part of a pool the worker functions touch.  [log] is not program
    state: it records each external call made, with its outcome. *)
Record hub := mkHub {
  jobs : chan J;
  results : chan R;
  workers : list worker;
  log : list (J * E)
}.

(** A step of worker [i] inside the function [matchesWorker],
    [matchLinkWorker] or [worker]: the receive of [for job := range jobs]
    and the send [results <- r]. *)
Definition workerStep (i : nat) (h : hub) : outcome hub :=
  match workers h !! i with
  | Some AtRange =>
    match recv (jobs h) with
    | Next (Some job, jobs') =>
      Next (mkHub jobs' (results h) (<[i := Running job]> (workers h)) (log h))
    | Next (None, _) =>
      Next (mkHub (jobs h) (results h) (<[i := Returned]> (workers h)) (log h))
    | Blocked => Blocked
    | Panics => Panics
    end
  | Some (Sending r) =>
    match send r (results h) with
    | Next results' =>
      Next (mkHub (jobs h) results' (<[i := AtRange]> (workers h)) (log h))
    | Blocked => Blocked
    | Panics => Panics
    end
  | _ => Blocked
  end.

(** The external call of worker [i] comes back with [e]. *)
Definition respond (i : nat) (e : E) (h : hub) : outcome hub :=
  match workers h !! i with
  | Some (Running job) =>
    let w := match handler job e with
             | None => AtRange
             | Some r => Sending r
             end in
    Next (mkHub (jobs h) (results h) (<[i := w]> (workers h)) (log h ++ [(job, e)]))
  | _ => Blocked
  end.

(** Results the logged calls led to, and the projections of the worker
    list the invariants count with. *)
Definition produced (l : list (J * E)) : list R :=
  omap (fun je => handler je.1 je.2) l.

Definition runningJob (w : worker) : option J :=
  match w with Running job => Some job | _ => None end.

Definition sendingResult (w : worker) : option R :=
  match w with Sending r => Some r | _ => None end.

Definition exited (w : worker) : bool :=
  match w with Exited => true | _ => false end.

Definition afterLoop (w : worker) : bool :=
  match w with Returned | Exited => true | _ => false end.

(** *** The pool of [scrapeMatchesWithWorkers] and
    [scrapeMatchLinksWithWorkers] *)

(** The calling goroutine after the spawn loop. *)
Inductive owner : Type :=
| Submitting (rest : list J)
| Spawning
| Draining (collected : list R)
| Finished (collected : list R).

(** The goroutine [go func() { wg.Wait(); close(results) }()]. *)
Inductive closer : Type :=
| NotStarted
| Waiting
| Woken
| CloserExited.

Record pool := mkPool {
  shared : hub;
  wg : nat;
  ownerG : owner;
  closerG : closer
}.

(** The state after [for range numWorkers { wg.Add(1); go ... }]: each
    [wg.Add(1)] precedes its [go] statement, so the counter is 5 before
    any worker can run. *)
Definition startPool (resultsCap : nat) (submitted : list J) : pool :=
  mkPool (mkHub (makeChan (length submitted)) (makeChan resultsCap)
            (replicate numWorkers AtRange) [])
    numWorkers (Submitting submitted) NotStarted.

Inductive actor : Type :=
| OwnerG
| WorkerG (i : nat)
| Respond (i : nat) (e : E)
| CloserG.

Definition withShared (s : pool) (o : outcome hub) : outcome pool :=
  match o with
  | Next h => Next (mkPool h (wg s) (ownerG s) (closerG s))
  | Blocked => Blocked
  | Panics => Panics
  end.

Definition ownerStep (s : pool) : outcome pool :=
  let h := shared s in
  match ownerG s with
  | Submitting (job :: rest) =>
    match send job (jobs h) with
    | Next jobs' =>
      Next (mkPool (mkHub jobs' (results h) (workers h) (log h))
              (wg s) (Submitting rest) (closerG s))
    | Blocked => Blocked
    | Panics => Panics
    end
  | Submitting [] =>
    match close (jobs h) with
    | Next jobs' =>
      Next (mkPool (mkHub jobs' (results h) (workers h) (log h))
              (wg s) Spawning (closerG s))
    | Blocked => Blocked
    | Panics => Panics
    end
  | Spawning => Next (mkPool h (wg s) (Draining []) Waiting)
  | Draining collected =>
    match recv (results h) with
    | Next (Some r, results') =>
      Next (mkPool (mkHub (jobs h) results' (workers h) (log h))
              (wg s) (Draining (collected ++ [r])) (closerG s))
    | Next (None, _) => Next (mkPool h (wg s) (Finished collected) (closerG s))
    | Blocked => Blocked
    | Panics => Panics
    end
  | Finished _ => Blocked
  end.

(** A worker of the pool: the shared loop, then the deferred
    [wg.Done()], which panics on a zero counter. *)
Definition poolWorkerStep (i : nat) (s : pool) : outcome pool :=
  let h := shared s in
  match workers h !! i with
  | Some Returned =>
    match wg s with
    | O => Panics
    | S n =>
      Next (mkPool (mkHub (jobs h) (results h) (<[i := Exited]> (workers h)) (log h))
              n (ownerG s) (closerG s))
    end
  | _ => withShared s (workerStep i h)
  end.

Definition closerStep (s : pool) : outcome pool :=
  let h := shared s in
  match closerG s with
  | NotStarted => Blocked
  | Waiting =>
    match wg s with
    | O => Next (mkPool h O (ownerG s) Woken)
    | S _ => Blocked
    end
  | Woken =>
    match close (results h) with
    | Next results' =>
      Next (mkPool (mkHub (jobs h) results' (workers h) (log h))
              (wg s) (ownerG s) CloserExited)
    | Blocked => Blocked
    | Panics => Panics
    end
  | CloserExited => Blocked
  end.

Definition exec (a : actor) (s : pool) : outcome pool :=
  match a with
  | OwnerG => ownerStep s
  | WorkerG i => poolWorkerStep i s
  | Respond i e => withShared s (respond i e (shared s))
  | CloserG => closerStep s
  end.

(** One step of some goroutine, and the states a run can reach. *)
Definition step (s s' : pool) : Prop := exists a, exec a s = Next s'.

Definition reachable (s0 s : pool) : Prop := rtc step s0 s.

(** Running a schedule: the actors in the order they move (a blocked
    actor's turn is skipped, a panic stops the run). *)
Fixpoint run (schedule : list actor) (s : pool) : outcome pool :=
  match schedule with
  | [] => Next s
  | a :: rest =>
    match exec a s with
    | Next s' => run rest s'
    | Blocked => run rest s
    | Panics => Panics
    end
  end.

(** A bound on the number of steps left. *)
Definition workerWeight (w : worker) : nat :=
  match w with
  | AtRange => 2
  | Running _ => 10
  | Sending _ => 9
  | Returned => 1
  | Exited => 0
  end.

Definition ownerWeight (o : owner) : nat :=
  match o with
  | Submitting rest => 12 * length rest + 5
  | Spawning => 4
  | Draining _ => 1
  | Finished _ => 0
  end.

Definition closerWeight (c : closer) : nat :=
  match c with
  | NotStarted => 3
  | Waiting => 2
  | Woken => 1
  | CloserExited => 0
  end.

Definition hubWeight (h : hub) : nat :=
  11 * length (buf (jobs h)) + 6 * length (buf (results h))
  + sum_list_with workerWeight (workers h).

Definition stepsLeft (s : pool) : nat :=
  hubWeight (shared s) + ownerWeight (ownerG s) + closerWeight (closerG s).

End Workers.

Arguments worker : clear implicits.
Arguments hub : clear implicits.
Arguments owner : clear implicits.
Arguments pool : clear implicits.
Arguments actor : clear implicits.

(** *** The pool of [getPlayerDetailsWithWorkers] *)

Section DetailsPool.

Context {J E R : Type}.
Variable handler : J -> E -> option R.

(** The zero value of the result type, which a receive on a closed
    channel would yield. *)
Variable zeroValue : R.

(** The calling goroutine: the counted loop [for range playerIDs] with the
    iterations left and [players] so far, and the two ways it returns. *)
Inductive collector : Type :=
| DSubmitting (rest : list J)
| Collecting (iterations : nat) (players : list R)
| ReturnedPlayers (players : list R)
| ReturnedCtxErr.

Record detailsPool := mkDetails {
  dshared : hub J E R;
  collectorG : collector;
  ctxDone : bool
}.

(** The state after [for range numWorkers { go worker(...) }]. *)
Definition startDetails (playerIDs : list J) : detailsPool :=
  mkDetails (mkHub (makeChan (length playerIDs)) (makeChan (length playerIDs))
               (replicate numWorkers AtRange) [])
    (DSubmitting playerIDs) false.

Inductive dactor : Type :=
| DOwner
| DOwnerCtx
| DWorker (i : nat)
| DRespond (i : nat) (e : E)
| DDeadline.

Definition dwithShared (s : detailsPool) (o : outcome (hub J E R)) : outcome detailsPool :=
  match o with
  | Next h => Next (mkDetails h (collectorG s) (ctxDone s))
  | Blocked => Blocked
  | Panics => Panics
  end.

(** The calling goroutine; in [select] this is the branch
    [case player := <-results]. *)
Definition collectorStep (playerIDs : list J) (s : detailsPool) : outcome detailsPool :=
  let h := dshared s in
  match collectorG s with
  | DSubmitting (job :: rest) =>
    match send job (jobs h) with
    | Next jobs' =>
      Next (mkDetails (mkHub jobs' (results h) (workers h) (log h))
              (DSubmitting rest) (ctxDone s))
    | Blocked => Blocked
    | Panics => Panics
    end
  | DSubmitting [] =>
    match close (jobs h) with
    | Next jobs' =>
      Next (mkDetails (mkHub jobs' (results h) (workers h) (log h))
              (Collecting (length playerIDs) []) (ctxDone s))
    | Blocked => Blocked
    | Panics => Panics
    end
  | Collecting O players => Next (mkDetails h (ReturnedPlayers players) (ctxDone s))
  | Collecting (S n) players =>
    match recv (results h) with
    | Next (Some player, results') =>
      Next (mkDetails (mkHub (jobs h) results' (workers h) (log h))
              (Collecting n (players ++ [player])) (ctxDone s))
    | Next (None, _) =>
      Next (mkDetails h (Collecting n (players ++ [zeroValue])) (ctxDone s))
    | Blocked => Blocked
    | Panics => Panics
    end
  | ReturnedPlayers _ => Blocked
  | ReturnedCtxErr => Blocked
  end.

(** The branch [case <-ctx.Done(): return nil, ctx.Err()]. *)
Definition collectorCtxStep (s : detailsPool) : outcome detailsPool :=
  match collectorG s with
  | Collecting (S _) _ =>
    if ctxDone s then Next (mkDetails (dshared s) ReturnedCtxErr true) else Blocked
  | _ => Blocked
  end.

(** A worker started with [go worker(...)]: the shared loop, then the
    goroutine ends (there is no WaitGroup here). *)
Definition detailsWorkerStep (i : nat) (s : detailsPool) : outcome detailsPool :=
  let h := dshared s in
  match workers h !! i with
  | Some Returned =>
    Next (mkDetails (mkHub (jobs h) (results h) (<[i := Exited]> (workers h)) (log h))
            (collectorG s) (ctxDone s))
  | _ => dwithShared s (workerStep i h)
  end.

Definition dexec (playerIDs : list J) (a : dactor) (s : detailsPool) : outcome detailsPool :=
  match a with
  | DOwner => collectorStep playerIDs s
  | DOwnerCtx => collectorCtxStep s
  | DWorker i => detailsWorkerStep i s
  | DRespond i e => dwithShared s (respond handler i e (dshared s))
  | DDeadline =>
    if ctxDone s then Blocked else Next (mkDetails (dshared s) (collectorG s) true)
  end.

Definition dstep (playerIDs : list J) (s s' : detailsPool) : Prop :=
  exists a, dexec playerIDs a s = Next s'.

Definition dreachable (playerIDs : list J) (s : detailsPool) : Prop :=
  rtc (dstep playerIDs) (startDetails playerIDs) s.

Fixpoint drun (playerIDs : list J) (schedule : list dactor) (s : detailsPool)
    : outcome detailsPool :=
  match schedule with
  | [] => Next s
  | a :: rest =>
    match dexec playerIDs a s with
    | Next s' => drun playerIDs rest s'
    | Blocked => drun playerIDs rest s
    | Panics => Panics
    end
  end.

(** The calling goroutine has returned. *)
Definition dreturned (s : detailsPool) : bool :=
  match collectorG s with
  | ReturnedPlayers _ | ReturnedCtxErr => true
  | _ => false
  end.

End DetailsPool.

Arguments collector : clear implicits.
Arguments detailsPool : clear implicits.
Arguments dactor : clear implicits.

(** *** The three worker bodies *)

(** What [chromedp.Run] leaves in a match worker: [None] for [err != nil],
    else the text of [div.phrase] and the table rows. *)
Definition matchPage : Type := option (string * list (list string)).

(** The rest of the body of [matchesWorker]. *)
Definition matchesHandler (matchLink : string) (page : matchPage) : option ScrapedMatchData :=
  match page with
  | None => None
  | Some (matchResult, matchData) =>
    if String.eqb matchResult "TIE" then None
    else Some (mkScraped matchData matchLink)
  end.

(** The rest of the body of [matchLinkWorker]: [None] for [err != nil],
    else the links found on the profile page. *)
Definition linksHandler (playerURL : string) (page : option (list string)) : option (list string) :=
  page.

Record PlayerDetails := mkPlayerDetails {
  PlayerID : string;
  Nickname : string;
  Avatar : string;
  Country : string;
  SteamID64 : string;
  FaceitURL : string
}.

(** The rest of the body of [worker]: [None] is an error of
    [fetchSinglePlayer]. *)
Definition detailsHandler (playerID : string) (fetched : option PlayerDetails) : option PlayerDetails :=
  fetched.

Definition zeroPlayerDetails : PlayerDetails := mkPlayerDetails "" "" "" "" "" "".

(** [results := make(chan ScrapedMatchData, len(matchLinks)*10)]. *)
Definition startMatchesPool (matchLinks : list string)
    : pool string matchPage ScrapedMatchData :=
  startPool (length matchLinks * 10) matchLinks.

(** [results := make(chan []string, len(playerURLs))]. *)
Definition startLinksPool (playerURLs : list string)
    : pool string (option (list string)) (list string) :=
  startPool (length playerURLs) playerURLs.

(** [matchLinks = append(matchLinks, link...)] over the drained results. *)
Definition gatherLinks (collected : list (list string)) : list string :=
  foldl (fun matchLinks link => matchLinks ++ link) [] collected.

(** *** The three pool functions as a whole *)

(** [scrapeMatchesWithWorkers]: some run of the pool finishes with
    [collected], and the assembly loop runs over it. *)
Definition scrapeMatchesWithWorkers (matchLinks : list string)
    (out : result (list Match)) : Prop :=
  exists s collected,
    reachable matchesHandler (startMatchesPool matchLinks) s
    /\ ownerG s = Finished collected
    /\ out = assembleMatches collected.

(** [scrapeMatchLinksWithWorkers]: the collected link lists are appended
    and deduplicated. *)
Definition scrapeMatchLinksWithWorkers (playerURLs : list string)
    (out : list string) : Prop :=
  exists s collected,
    reachable linksHandler (startLinksPool playerURLs) s
    /\ ownerG s = Finished collected
    /\ out = uniqueMatchLinks (gatherLinks collected).

(** [getPlayerDetailsWithWorkers]: [inl players] is [(players, nil)],
    [inr tt] is [(nil, ctx.Err())]. *)
Definition getPlayerDetailsWithWorkers (playerIDs : list string)
    (out : list PlayerDetails + unit) : Prop :=
  exists s,
    dreachable detailsHandler zeroPlayerDetails playerIDs s
    /\ match collectorG s with
       | ReturnedPlayers players => out = inl players
       | ReturnedCtxErr => out = inr tt
       | _ => False
       end.

(** ** Persistence: [BatchInsertMatches] *)

(** [database.CreateMatchParams], as [FetchAndScrape] fills it. *)
Record CreateMatchParams := mkCreateMatchParams {
  MatchUrl : string;
  WAvgLeetifyRating : float;
  WAvgPersonalPerformance : float;
  WAvgHltvRating : float;
  WAvgKd : float;
  WAvgAim : float;
  WAvgUtility : float;
  LAvgLeetifyRating : float;
  LAvgPersonalPerformance : float;
  LAvgHltvRating : float;
  LAvgKd : float;
  LAvgAim : float;
  LAvgUtility : float
}.

(** The conversion loop of [FetchAndScrape]. *)
Definition toCreateMatchParams (s : MatchAverageStats) : CreateMatchParams :=
  mkCreateMatchParams (AvgMatchURL s)
    (WinAvgLeetifyRating s) (WinAvgPersonalPerformance s) (WinAvgHTLVRating s)
    (WinAvgKD s) (WinAvgAim s) (WinAvgUtility s)
    (LossAvgLeetifyRating s) (LossAvgPersonalPerformance s) (LossAvgHTLVRating s)
    (LossAvgKD s) (LossAvgAim s) (LossAvgUtility s).

(** The rows of table [matches], keyed by [match_url], its primary key
    ([002_matches.sql]). *)
Abbreviation matchesTable := (gmap string CreateMatchParams).

(** A [*sql.DB] with at most one transaction: the committed rows, and the
    rows as the open transaction sees them. *)
Record conn := mkConn {
  committed : matchesTable;
  openTx : option matchesTable
}.

Section BatchInsert.

Variable error : Type.

(** The driver: whether [db.BeginTx] fails; what the statement behind
    [qtx.CreateMatch] does to the rows the transaction sees ([inl] is its
    error, and a failed statement changes nothing); whether [tx.Commit]
    fails on these rows. *)
Variable beginTx : option error.
Variable createMatch : matchesTable -> CreateMatchParams -> error + matchesTable.
Variable commit : matchesTable -> option error.

(** [db.BeginTx]: the transaction starts from the committed rows. *)
Definition BeginTx (c : conn) : conn * option error :=
  match beginTx with
  | Some e => (c, Some e)
  | None => (mkConn (committed c) (Some (committed c)), None)
  end.

(** [qtx.CreateMatch(ctx, match)] inside the transaction. *)
Definition CreateMatch (m : CreateMatchParams) (c : conn) : conn * option error :=
  match openTx c with
  | None => (c, None)
  | Some view =>
    match createMatch view m with
    | inl e => (c, Some e)
    | inr view' => (mkConn (committed c) (Some view'), None)
    end
  end.

(** [tx.Rollback()]: the transaction's rows are dropped. *)
Definition Rollback (c : conn) : conn := mkConn (committed c) None.

(** [tx.Commit()]: the transaction's rows become the committed ones; a
    failed commit ends the transaction and keeps the old rows. *)
Definition Commit (c : conn) : conn * option error :=
  match openTx c with
  | None => (c, None)
  | Some view =>
    match commit view with
    | Some e => (mkConn (committed c) None, Some e)
    | None => (mkConn view None, None)
    end
  end.

(** [for _, match := range matches] with its early [return err] after
    [tx.Rollback()]. *)
Fixpoint insertLoop (matches : list CreateMatchParams) (c : conn) : conn * option error :=
  match matches with
  | [] => (c, None)
  | m :: rest =>
    match CreateMatch m c with
    | (c', Some e) => (Rollback c', Some e)
    | (c', None) => insertLoop rest c'
    end
  end.

Definition BatchInsertMatches (c : conn) (matches : list CreateMatchParams)
    : conn * option error :=
  match BeginTx c with
  | (c0, Some e) => (c0, Some e)
  | (c0, None) =>
    match insertLoop matches c0 with
    | (c1, Some e) => (c1, Some e)
    | (c1, None) => Commit c1
    end
  end.

(** The rows after the statements of [matches] have run in order, or the
    error of the first one that fails. *)
Fixpoint runInserts (view : matchesTable) (matches : list CreateMatchParams)
    : error + matchesTable :=
  match matches with
  | [] => inr view
  | m :: rest =>
    match createMatch view m with
    | inl e => inl e
    | inr view' => runInserts view' rest
    end
  end.

(** The table with every record of the batch stored under its URL. *)
Definition withBatch (t : matchesTable) (matches : list CreateMatchParams) : matchesTable :=
  foldl (fun t m => <[MatchUrl m := m]> t) t matches.

End BatchInsert.

(** ** Sample collaborators, to run the code on concrete data *)

(** A reader of plain decimals ([digits], [digits.digits], with an optional
    sign) of at most 15 digits.  On such strings the quotient of the two
    exactly represented integers is the correctly rounded value, which is
    what [strconv.ParseFloat] returns; any other string is an error here. *)
Definition digitOf (a : ascii) : option Z :=
  let n := Z.of_N (N_of_ascii a) in
  if ((48 <=? n) && (n <=? 57))%Z then Some (n - 48)%Z else None.

(** Reads digits up to the end or the first [.]; returns the number read,
    how many digits it had, and what follows. *)
Fixpoint readDigits (s : string) (acc : Z) (count : nat) : option (Z * nat * string) :=
  match s with
  | EmptyString => Some (acc, count, EmptyString)
  | String a rest =>
    if Ascii.eqb a "." then Some (acc, count, rest)
    else match digitOf a with
         | Some d => readDigits rest (10 * acc + d)%Z (S count)
         | None => None
         end
  end.

Definition floatOfZ (n : Z) : float := PrimFloat.of_uint63 (Uint63.of_Z n).

Definition parseUnsigned (s : string) : option float :=
  match readDigits s 0 0 with
  | Some (whole, n1, rest) =>
    match readDigits rest whole 0 with
    | Some (mantissa, n2, EmptyString) =>
      if ((0 <? n1 + n2) && (n1 + n2 <=? 15))%nat
      then Some (floatOfZ mantissa / floatOfZ (10 ^ Z.of_nat n2))%float
      else None
    | _ => None
    end
  | None => None
  end.

Definition sampleParseFloat (s : string) : option float :=
  match s with
  | String "-" rest => PrimFloat.opp <$> parseUnsigned rest
  | String "+" rest => parseUnsigned rest
  | _ => parseUnsigned s
  end.

(** * Properties *)

(** ** Aggregation *)

Section AggregationFacts.

Variable ParseFloat : string -> option float.

(** The sums a team loop holds after its players, had it started from
    [acc]: each field is summed down its own column. *)
Definition sumsAfter (acc : TeamSums) (ps : list PlayerStats) : TeamSums :=
  mkSums
    (foldl PrimFloat.add (sumLeetify acc) (parsedColumn ParseFloat LeetifyRating ps))
    (foldl PrimFloat.add (sumPersonalPerformance acc) (parsedColumn ParseFloat PersonalPerformance ps))
    (foldl PrimFloat.add (sumHLTV acc) (parsedColumn ParseFloat HLTVRating ps))
    (foldl PrimFloat.add (sumKD acc) (parsedColumn ParseFloat KD ps))
    (foldl PrimFloat.add (sumAim acc) (parsedColumn ParseFloat Aim ps))
    (foldl PrimFloat.add (sumUtility acc) (parsedColumn ParseFloat Utility ps)).

Lemma playerParses_fields p :
  playerParses ParseFloat p <->
  exists lr pp hr kdr aim util,
    ParseFloat (LeetifyRating p) = Some lr /\
    ParseFloat (PersonalPerformance p) = Some pp /\
    ParseFloat (HLTVRating p) = Some hr /\
    ParseFloat (KD p) = Some kdr /\
    ParseFloat (Aim p) = Some aim /\
    ParseFloat (Utility p) = Some util.
Proof.
  unfold playerParses, requiredFields, parses.
  rewrite !Forall_cons, Forall_nil. split.
  - intros ([lr ?] & [pp ?] & [hr ?] & [kdr ?] & [aim ?] & [util ?] & _).
    by exists lr, pp, hr, kdr, aim, util.
  - intros (lr & pp & hr & kdr & aim & util & -> & -> & -> & -> & -> & ->).
    repeat split; eauto.
Qed.

Lemma playerStep_parses acc p :
  playerParses ParseFloat p -> playerStep ParseFloat acc p = (sumsAfter acc [p], false).
Proof.
  rewrite playerParses_fields.
  intros (lr & pp & hr & kdr & aim & util & H1 & H2 & H3 & H4 & H5 & H6).
  unfold playerStep, sumsAfter, parsedColumn. simpl.
  by rewrite H1, H2, H3, H4, H5, H6.
Qed.

Lemma playerStep_skips acc p :
  ~ playerParses ParseFloat p -> (playerStep ParseFloat acc p).2 = true.
Proof.
  rewrite playerParses_fields. intros Hno.
  unfold playerStep.
  destruct (ParseFloat (LeetifyRating p)) as [lr|] eqn:H1; [|done].
  destruct (ParseFloat (PersonalPerformance p)) as [pp|] eqn:H2; [|done].
  destruct (ParseFloat (HLTVRating p)) as [hr|] eqn:H3; [|done].
  destruct (ParseFloat (KD p)) as [kdr|] eqn:H4; [|done].
  destruct (ParseFloat (Aim p)) as [aim|] eqn:H5; [|done].
  destruct (ParseFloat (Utility p)) as [util|] eqn:H6; [|done].
  destruct Hno. by exists lr, pp, hr, kdr, aim, util.
Qed.

Lemma sumsAfter_cons acc p ps :
  playerParses ParseFloat p -> sumsAfter (sumsAfter acc [p]) ps = sumsAfter acc (p :: ps).
Proof.
  rewrite playerParses_fields.
  intros (lr & pp & hr & kdr & aim & util & H1 & H2 & H3 & H4 & H5 & H6).
  unfold sumsAfter, parsedColumn. simpl.
  by rewrite H1, H2, H3, H4, H5, H6.
Qed.

Lemma teamLoop_parses ps : forall acc,
  Forall (playerParses ParseFloat) ps -> teamLoop ParseFloat ps acc = (sumsAfter acc ps, false).
Proof.
  induction ps as [|p ps IH]; intros acc Hall.
  - by destruct acc.
  - apply Forall_cons in Hall as [Hp Hps]. simpl.
    rewrite (playerStep_parses _ _ Hp), (IH _ Hps).
    by rewrite sumsAfter_cons.
Qed.

Lemma teamLoop_skips ps : forall acc,
  ~ Forall (playerParses ParseFloat) ps -> (teamLoop ParseFloat ps acc).2 = true.
Proof.
  induction ps as [|p ps IH]; intros acc Hno.
  - destruct Hno. constructor.
  - simpl. destruct (playerStep ParseFloat acc p) as [acc' skipMatch] eqn:Hstep.
    destruct skipMatch; [done|].
    apply IH. intros Hps. apply Hno. constructor; [|done].
    destruct (decide (playerParses ParseFloat p)) as [|Hp]; [done|].
    apply (playerStep_skips acc) in Hp. by rewrite Hstep in Hp.
Qed.

(** The record of a match all of whose fields parse: the twelve team
    averages, column by column. *)
Definition averagesOf (m : Match) : MatchAverageStats :=
  let win := Players (Teams m).1 in
  let loss := Players (Teams m).2 in
  mkMatchAverageStats (MatchURL m)
    (teamAverage (parsedColumn ParseFloat LeetifyRating win))
    (teamAverage (parsedColumn ParseFloat PersonalPerformance win))
    (teamAverage (parsedColumn ParseFloat HLTVRating win))
    (teamAverage (parsedColumn ParseFloat KD win))
    (teamAverage (parsedColumn ParseFloat Aim win))
    (teamAverage (parsedColumn ParseFloat Utility win))
    (teamAverage (parsedColumn ParseFloat LeetifyRating loss))
    (teamAverage (parsedColumn ParseFloat PersonalPerformance loss))
    (teamAverage (parsedColumn ParseFloat HLTVRating loss))
    (teamAverage (parsedColumn ParseFloat KD loss))
    (teamAverage (parsedColumn ParseFloat Aim loss))
    (teamAverage (parsedColumn ParseFloat Utility loss)).

Lemma matchIteration_parses m :
  allFieldsParse ParseFloat m -> matchIteration ParseFloat m = Some (averagesOf m).
Proof.
  unfold allFieldsParse. rewrite Forall_app. intros [Hw Hl].
  unfold matchIteration.
  by rewrite (teamLoop_parses _ _ Hw), (teamLoop_parses _ _ Hl).
Qed.

Lemma matchIteration_skips m :
  ~ allFieldsParse ParseFloat m -> matchIteration ParseFloat m = None.
Proof.
  unfold allFieldsParse. rewrite Forall_app. intros Hno.
  unfold matchIteration.
  destruct (decide (Forall (playerParses ParseFloat) (Players (Teams m).1))) as [Hw|Hw].
  - rewrite (teamLoop_parses _ _ Hw).
    assert (Hl : ~ Forall (playerParses ParseFloat) (Players (Teams m).2)) by tauto.
    apply (teamLoop_skips _ zeroSums) in Hl.
    destruct (teamLoop ParseFloat (Players (Teams m).2) zeroSums) as [l skipMatch].
    simpl in Hl. by subst.
  - apply (teamLoop_skips _ zeroSums) in Hw.
    destruct (teamLoop ParseFloat (Players (Teams m).1) zeroSums) as [w skipMatch].
    simpl in Hw. by subst.
Qed.

Lemma getAverageMatchStats_omap matches :
  getAverageMatchStats ParseFloat matches = omap (matchIteration ParseFloat) matches.
Proof.
  unfold getAverageMatchStats.
  enough (H : forall acc,
    foldl (fun matchesAverageStats m =>
             match matchIteration ParseFloat m with
             | None => matchesAverageStats
             | Some s => matchesAverageStats ++ [s]
             end) acc matches = acc ++ omap (matchIteration ParseFloat) matches)
    by apply (H []).
  induction matches as [|m ms IH]; intros acc; simpl.
  - by rewrite app_nil_r.
  - rewrite IH. destruct (matchIteration ParseFloat m); [|done].
    by rewrite <- app_assoc.
Qed.

Lemma getAverageMatchStats_app ms1 ms2 :
  getAverageMatchStats ParseFloat (ms1 ++ ms2) =
  getAverageMatchStats ParseFloat ms1 ++ getAverageMatchStats ParseFloat ms2.
Proof. rewrite !getAverageMatchStats_omap. apply omap_app. Qed.

Lemma getAverageMatchStats_url matches s :
  s ∈ getAverageMatchStats ParseFloat matches ->
  exists m, m ∈ matches /\ AvgMatchURL s = MatchURL m.
Proof.
  rewrite getAverageMatchStats_omap, list_elem_of_omap.
  intros (m & Hm & Hs). exists m. split; [done|].
  destruct (decide (allFieldsParse ParseFloat m)) as [Hp|Hp].
  - rewrite (matchIteration_parses _ Hp) in Hs. by injection Hs as <-.
  - by rewrite (matchIteration_skips _ Hp) in Hs.
Qed.

(** C1. Aggregation is all-or-nothing per match.  Whatever stands before
    and after a match in the input, the records emitted for it are those
    of the match alone, and for the match alone [getAverageMatchStats]
    emits one record (tagged with the URL of the match) if and only if
    every required field of every player of both teams parses, and emits
    nothing at all if and only if some field does not. *)
Theorem aggregation_all_or_nothing (pre post : list Match) (m : Match) :
  getAverageMatchStats ParseFloat (pre ++ m :: post) =
    getAverageMatchStats ParseFloat pre ++ getAverageMatchStats ParseFloat [m]
      ++ getAverageMatchStats ParseFloat post
  /\ (allFieldsParse ParseFloat m <->
      exists s, getAverageMatchStats ParseFloat [m] = [s] /\ AvgMatchURL s = MatchURL m)
  /\ (~ allFieldsParse ParseFloat m <-> getAverageMatchStats ParseFloat [m] = []).
Proof.
  split; [|split].
  - by rewrite (cons_middle m pre post), !getAverageMatchStats_app.
  - rewrite getAverageMatchStats_omap. simpl. split.
    + intros Hp. rewrite (matchIteration_parses _ Hp). by eexists.
    + intros (s & Hs & _). destruct (decide (allFieldsParse ParseFloat m)) as [|Hp]; [done|].
      by rewrite (matchIteration_skips _ Hp) in Hs.
  - rewrite getAverageMatchStats_omap. simpl. split.
    + intros Hp. by rewrite (matchIteration_skips _ Hp).
    + intros Hs Hp. by rewrite (matchIteration_parses _ Hp) in Hs.
Qed.

(** C3. When every required field of a match parses, the one record
    emitted for it holds, in each of its twelve fields, the binary64 sum
    (taken left to right from zero) of that field's parsed values over
    the team's players, divided by the team size 5.  In particular winner
    ratings that parse to 1.0, 1.2, 0.8, 1.1, 0.9 give
    [WinAvgLeetifyRating = 1.0]. *)
Theorem averages_are_team_means (m : Match) :
  allFieldsParse ParseFloat m ->
  getAverageMatchStats ParseFloat [m] = [averagesOf m]
  /\ (parsedColumn ParseFloat LeetifyRating (Players (Teams m).1)
        = [1; 1.2; 0.8; 1.1; 0.9]%float ->
      WinAvgLeetifyRating (averagesOf m) = 1%float).
Proof.
  intros Hp. split.
  - rewrite getAverageMatchStats_omap. simpl. by rewrite (matchIteration_parses _ Hp).
  - intros Hcol. simpl. by rewrite Hcol.
Qed.

End AggregationFacts.

(** A match to run the aggregation on. *)
Definition samplePlayer (name rating : string) : PlayerStats :=
  mkPlayerStats name rating "55.5" "1.02" "1.1" "80.3" "61" "48".

Definition sampleMatch : Match :=
  mkMatch
    (mkTeam [samplePlayer "a" "1.0"; samplePlayer "b" "1.2"; samplePlayer "c" "0.8";
             samplePlayer "d" "1.1"; samplePlayer "e" "0.9"] true,
     mkTeam [samplePlayer "f" "0.7"; samplePlayer "g" "0.95"; samplePlayer "h" "1.05";
             samplePlayer "i" "0.6"; samplePlayer "j" "0.85"] false)
    "https://leetify.com/app/match-details/1".

Lemma sampleMatch_parses : allFieldsParse sampleParseFloat sampleMatch.
Proof.
  apply (bool_decide_unpack _). vm_compute. exact I.
Qed.

Lemma aggregation_all_or_nothing_witness :
  exists s, getAverageMatchStats sampleParseFloat [sampleMatch] = [s]
            /\ AvgMatchURL s = MatchURL sampleMatch.
Proof.
  apply (proj1 (proj1 (proj2 (aggregation_all_or_nothing sampleParseFloat [] []
                                sampleMatch)))).
  exact sampleMatch_parses.
Defined.

Lemma averages_are_team_means_witness :
  WinAvgLeetifyRating (averagesOf sampleParseFloat sampleMatch) = 1%float.
Proof.
  apply (proj2 (averages_are_team_means sampleParseFloat sampleMatch sampleMatch_parses)).
  vm_compute. reflexivity.
Defined.

(** ** Match assembly *)

Lemma index_in_bounds (row : list string) (i : nat) :
  i < length row -> index row i = Ok (cell row i).
Proof.
  intros Hi. unfold index, cell.
  destruct (lookup_lt_is_Some_2 row i Hi) as [c Hc]. by rewrite Hc.
Qed.

Lemma index_out_of_bounds (row : list string) (i : nat) :
  length row <= i -> index row i = IndexOutOfRange i (length row).
Proof.
  intros Hi. unfold index. by rewrite (lookup_ge_None_2 row i Hi).
Qed.

Lemma buildPlayer_wide (row : list string) :
  8 <= length row -> buildPlayer row = Ok (positionalPlayer row).
Proof.
  intros Hlen. unfold buildPlayer.
  by rewrite !index_in_bounds by lia.
Qed.

(** On a row that is too short the first index past its end panics. *)
Lemma buildPlayer_narrow (row : list string) :
  length row < 8 -> buildPlayer row = IndexOutOfRange (length row) (length row).
Proof.
  intros Hlen. unfold buildPlayer.
  do 8 (destruct row as [|? row]; [by rewrite ?index_in_bounds by (simpl; lia)|]).
  simpl in Hlen. lia.
Qed.

(** A panic of the assembly: the index is the length of a row shorter
    than eight cells. *)
Definition shortRowPanic {A : Type} (r : result A) : Prop :=
  exists i, i < 8 /\ r = IndexOutOfRange i i.

Lemma playersLoop_wide (rows : list (list string)) :
  forall i winPlayers losePlayers,
    Forall (fun row : list string => 8 <= length row) rows ->
    playersLoop i rows winPlayers losePlayers
    = Ok (winPlayers ++ (positionalPlayer <$> take (5 - i) rows),
          losePlayers ++ (positionalPlayer <$> drop (5 - i) rows)).
Proof.
  induction rows as [|row rows IH]; intros i win lose Hwide; simpl.
  - rewrite take_nil, drop_nil. simpl. by rewrite !app_nil_r.
  - apply Forall_cons in Hwide as [Hrow Hrows].
    rewrite (buildPlayer_wide _ Hrow). simpl.
    destruct (Nat.ltb_spec i 5) as [Hi|Hi].
    + rewrite (IH _ _ _ Hrows).
      replace (5 - i) with (S (5 - S i)) by lia. simpl.
      by rewrite <- app_assoc.
    + rewrite (IH _ _ _ Hrows).
      replace (5 - i) with 0 by lia. replace (5 - S i) with 0 by lia. simpl.
      by rewrite <- app_assoc.
Qed.

Lemma playersLoop_narrow (rows : list (list string)) :
  forall i winPlayers losePlayers,
    ~ Forall (fun row : list string => 8 <= length row) rows ->
    shortRowPanic (playersLoop i rows winPlayers losePlayers).
Proof.
  induction rows as [|row rows IH]; intros i win lose Hno; simpl.
  - destruct Hno. constructor.
  - destruct (decide (8 <= length row)) as [Hrow|Hrow].
    + rewrite (buildPlayer_wide _ Hrow). simpl.
      assert (Hrows : ~ Forall (fun row : list string => 8 <= length row) rows).
      { intros Hrows. apply Hno. by constructor. }
      destruct (i <? 5)%nat; by apply IH.
    + rewrite buildPlayer_narrow by lia. simpl.
      exists (length row). split; [lia|done].
Qed.

(** The match built from the first ten valid rows. *)
Definition firstTenMatch (scraped : ScrapedMatchData) : Match :=
  let rows := validRows (Data scraped) in
  mkMatch (mkTeam (positionalPlayer <$> take 5 rows) true,
           mkTeam (positionalPlayer <$> take 5 (drop 5 rows)) false)
    (URL scraped).

Lemma assembleMatch_few (scraped : ScrapedMatchData) :
  length (validRows (Data scraped)) < 10 -> assembleMatch scraped = Ok None.
Proof.
  intros Hlen. unfold assembleMatch.
  by destruct (Nat.ltb_spec (length (validRows (Data scraped))) 10); [|lia].
Qed.

Lemma assembleMatch_wide (scraped : ScrapedMatchData) :
  10 <= length (validRows (Data scraped)) -> wideEnough scraped ->
  assembleMatch scraped = Ok (Some (firstTenMatch scraped)).
Proof.
  intros Hlen Hwide. unfold assembleMatch.
  destruct (Nat.ltb_spec (length (validRows (Data scraped))) 10); [lia|].
  rewrite (playersLoop_wide _ _ _ _ Hwide). simpl.
  unfold firstTenMatch.
  rewrite take_take, (take_drop_commute _ 5 5).
  by replace (5 `min` 10) with 5 by lia.
Qed.

Lemma assembleMatch_narrow (scraped : ScrapedMatchData) :
  10 <= length (validRows (Data scraped)) -> ~ wideEnough scraped ->
  shortRowPanic (assembleMatch scraped).
Proof.
  intros Hlen Hno. unfold assembleMatch.
  destruct (Nat.ltb_spec (length (validRows (Data scraped))) 10); [lia|].
  destruct (playersLoop_narrow _ 0 [] [] Hno) as (i & Hi & ->).
  by exists i.
Qed.

Lemma validRows_nonempty (data : list (list string)) :
  validRows data = filter (fun row : list string => row <> []) data.
Proof.
  unfold validRows. apply list_filter_iff. intros row.
  by destruct row.
Qed.

(** A [Match] comes out only of ten valid rows, and it is the match of
    the first ten. *)
Lemma assembleMatch_built (scraped : ScrapedMatchData) (m : Match) :
  assembleMatch scraped = Ok (Some m) ->
  10 <= length (validRows (Data scraped)) /\ m = firstTenMatch scraped.
Proof.
  intros Hm.
  destruct (decide (length (validRows (Data scraped)) < 10)) as [Hlen|Hlen].
  { by rewrite (assembleMatch_few _ Hlen) in Hm. }
  destruct (decide (wideEnough scraped)) as [Hwide|Hwide].
  - rewrite assembleMatch_wide in Hm by (done || lia).
    split; [lia|]. by injection Hm as <-.
  - destruct (assembleMatch_narrow scraped ltac:(lia) Hwide) as (i & _ & Hp).
    by rewrite Hm in Hp.
Qed.

(** C2, as amended.  Assembly first removes the empty rows.  With fewer
    than 10 non-empty rows it produces no [Match]; a [Match] is produced
    only when at least 10 remain; and when at least 10 remain and each of
    the first 10 has at least 8 cells, it produces the [Match] built from
    exactly those 10 (whatever follows them): cells 0 to 7 of a row read
    as name, leetify rating, personal performance, HLTV rating, K/D, ADR,
    aim and utility, rows 0-4 the winning team with [Won = true], rows
    5-9 the losing team with [Won = false], tagged with the URL. *)
Theorem assembly_first_ten (scraped : ScrapedMatchData) :
  validRows (Data scraped) = filter (fun row : list string => row <> []) (Data scraped)
  /\ (length (validRows (Data scraped)) < 10 -> assembleMatch scraped = Ok None)
  /\ (forall m, assembleMatch scraped = Ok (Some m) ->
        10 <= length (validRows (Data scraped)) /\ m = firstTenMatch scraped)
  /\ (10 <= length (validRows (Data scraped)) -> wideEnough scraped ->
        assembleMatch scraped = Ok (Some (firstTenMatch scraped))
        /\ length (Players (Teams (firstTenMatch scraped)).1) = 5
        /\ length (Players (Teams (firstTenMatch scraped)).2) = 5
        /\ Won (Teams (firstTenMatch scraped)).1 = true
        /\ Won (Teams (firstTenMatch scraped)).2 = false
        /\ MatchURL (firstTenMatch scraped) = URL scraped).
Proof.
  split; [apply validRows_nonempty|]. split; [apply assembleMatch_few|]. split.
  - apply assembleMatch_built.
  - intros Hlen Hwide. split; [by apply assembleMatch_wide|].
    simpl. rewrite !length_fmap, !length_take, length_drop.
    repeat split; lia.
Qed.

(** Ten one-cell rows pass both checks of the code, and the first
    positional access past the name panics: no [Match] comes out. *)
Definition tenNarrowRows : ScrapedMatchData :=
  mkScraped (replicate 10 ["solo"]) "https://leetify.com/app/match-details/2".

Lemma assembly_first_ten_counterexample :
  10 <= length (validRows (Data tenNarrowRows))
  /\ assembleMatch tenNarrowRows = IndexOutOfRange 1 1.
Proof. split; [vm_compute; lia | reflexivity]. Qed.

(** Thirteen rows of eight cells with two empty rows among them. *)
Definition wideRow (name : string) : list string :=
  [name; "1.0"; "55.5"; "1.02"; "1.1"; "80.3"; "61"; "48"].

Definition thirteenRows : ScrapedMatchData :=
  mkScraped
    ([wideRow "a"; []; wideRow "b"; wideRow "c"; wideRow "d"; wideRow "e"; [];
      wideRow "f"; wideRow "g"; wideRow "h"; wideRow "i"; wideRow "j";
      wideRow "k"; wideRow "l"; wideRow "m"])
    "https://leetify.com/app/match-details/3".

Lemma thirteenRows_wide : wideEnough thirteenRows.
Proof. unfold wideEnough. vm_compute. repeat constructor. Qed.

Lemma assembly_first_ten_witness :
  assembleMatch thirteenRows = Ok (Some (firstTenMatch thirteenRows))
  /\ length (Players (Teams (firstTenMatch thirteenRows)).1) = 5
  /\ length (Players (Teams (firstTenMatch thirteenRows)).2) = 5
  /\ Won (Teams (firstTenMatch thirteenRows)).1 = true
  /\ Won (Teams (firstTenMatch thirteenRows)).2 = false
  /\ MatchURL (firstTenMatch thirteenRows) = URL thirteenRows.
Proof.
  apply (proj2 (proj2 (proj2 (assembly_first_ten thirteenRows)))).
  - vm_compute. lia.
  - exact thirteenRows_wide.
Defined.

(** C9. Under the width precondition (each of the first ten non-empty
    rows has at least eight cells) every positional access at an index
    0..7 is in bounds and assembly finishes without a panic.  The code
    itself checks only for non-empty rows and for ten of them: assembly
    panics exactly when ten remain and the precondition fails, and the
    panic is then an index out of range at the length, below 8, of a
    short row. *)
Theorem assembly_width_precondition (scraped : ScrapedMatchData) :
  (wideEnough scraped ->
     (forall row i, row ∈ take 10 (validRows (Data scraped)) -> i < 8 ->
        index row i = Ok (cell row i))
     /\ exists r, assembleMatch scraped = Ok r)
  /\ ((exists i len, assembleMatch scraped = IndexOutOfRange i len) <->
      10 <= length (validRows (Data scraped)) /\ ~ wideEnough scraped)
  /\ (forall i len, assembleMatch scraped = IndexOutOfRange i len -> i < 8 /\ len = i).
Proof.
  assert (Hpanic : forall i len, assembleMatch scraped = IndexOutOfRange i len ->
            (10 <= length (validRows (Data scraped)) /\ ~ wideEnough scraped)
            /\ i < 8 /\ len = i).
  { intros i len Hp.
    destruct (decide (length (validRows (Data scraped)) < 10)) as [Hlen|Hlen].
    { by rewrite (assembleMatch_few _ Hlen) in Hp. }
    destruct (decide (wideEnough scraped)) as [Hwide|Hwide].
    { by rewrite assembleMatch_wide in Hp by (done || lia). }
    split; [split; [lia|done]|].
    destruct (assembleMatch_narrow scraped ltac:(lia) Hwide) as (j & Hj & Hq).
    rewrite Hq in Hp. injection Hp as <- <-. done. }
  split; [|split].
  - intros Hwide. split.
    + intros row i Hrow Hi. apply index_in_bounds.
      unfold wideEnough in Hwide. rewrite Forall_forall in Hwide.
      specialize (Hwide row Hrow). lia.
    + destruct (decide (length (validRows (Data scraped)) < 10)) as [Hlen|Hlen].
      * rewrite (assembleMatch_few _ Hlen). by eexists.
      * rewrite assembleMatch_wide by (done || lia). by eexists.
  - split.
    + intros (i & len & Hp). by apply (Hpanic i len).
    + intros [Hlen Hno].
      destruct (assembleMatch_narrow scraped Hlen Hno) as (i & _ & Hp). by exists i, i.
  - intros i len Hp. by apply (Hpanic i len).
Qed.

Lemma assembly_width_precondition_witness :
  (forall row i, row ∈ take 10 (validRows (Data thirteenRows)) -> i < 8 ->
     index row i = Ok (cell row i))
  /\ exists r, assembleMatch thirteenRows = Ok r.
Proof.
  apply (proj1 (assembly_width_precondition thirteenRows)).
  exact thirteenRows_wide.
Defined.

(** ** Link deduplication *)

Lemma dedupLoop_snoc (matchLinks : list string) (link : string) :
  dedupLoop (matchLinks ++ [link]) = dedupStep (dedupLoop matchLinks) link.
Proof. unfold dedupLoop. by rewrite foldl_app. Qed.

(** The map [seen] holds exactly the links appended so far. *)
Lemma dedupLoop_seen (matchLinks : list string) (x : string) :
  seenLookup (dedupLoop matchLinks).1 x = true <-> x ∈ (dedupLoop matchLinks).2.
Proof.
  induction matchLinks as [|link matchLinks IH] using rev_ind.
  - unfold seenLookup. simpl. rewrite lookup_empty. simpl.
    split; [done|]. by intros ?%elem_of_nil.
  - rewrite dedupLoop_snoc.
    destruct (dedupLoop matchLinks) as [seen unique]. simpl in *.
    destruct (seenLookup seen link) eqn:Hseen; simpl; [done|].
    rewrite elem_of_app, list_elem_of_singleton, <- IH.
    unfold seenLookup in *.
    destruct (decide (link = x)) as [->|Hne].
    + rewrite lookup_insert_eq. simpl. tauto.
    + rewrite lookup_insert_ne by done. split; [tauto|].
      intros [?|?]; [done|congruence].
Qed.

(** One more link: appended exactly when it is not among the links
    before it. *)
Lemma uniqueMatchLinks_snoc (matchLinks : list string) (link : string) :
  uniqueMatchLinks (matchLinks ++ [link]) =
  if decide (link ∈ uniqueMatchLinks matchLinks)
  then uniqueMatchLinks matchLinks
  else uniqueMatchLinks matchLinks ++ [link].
Proof.
  unfold uniqueMatchLinks. rewrite dedupLoop_snoc.
  pose proof (dedupLoop_seen matchLinks link) as Hseen.
  destruct (dedupLoop matchLinks) as [seen unique]. simpl in *.
  destruct (seenLookup seen link); simpl.
  - rewrite decide_True; [done|]. by apply Hseen.
  - rewrite decide_False; [done|]. intros Hin. apply Hseen in Hin. done.
Qed.

Lemma uniqueMatchLinks_elem (matchLinks : list string) (x : string) :
  x ∈ uniqueMatchLinks matchLinks <-> x ∈ matchLinks.
Proof.
  induction matchLinks as [|link matchLinks IH] using rev_ind; [done|].
  rewrite uniqueMatchLinks_snoc, elem_of_app, list_elem_of_singleton.
  case_decide as Hin.
  - rewrite IH. split; [tauto|]. intros [?| ->]; [done|]. by apply IH.
  - rewrite elem_of_app, list_elem_of_singleton, IH. tauto.
Qed.

Lemma uniqueMatchLinks_NoDup (matchLinks : list string) :
  NoDup (uniqueMatchLinks matchLinks).
Proof.
  induction matchLinks as [|link matchLinks IH] using rev_ind; [constructor|].
  rewrite uniqueMatchLinks_snoc. case_decide as Hin; [done|].
  apply NoDup_app. split; [done|]. split.
  - intros x Hx ->%list_elem_of_singleton. done.
  - apply NoDup_singleton.
Qed.

Lemma uniqueMatchLinks_sublist (matchLinks : list string) :
  uniqueMatchLinks matchLinks `sublist_of` matchLinks.
Proof.
  induction matchLinks as [|link matchLinks IH] using rev_ind; [done|].
  rewrite uniqueMatchLinks_snoc. case_decide.
  - by apply sublist_inserts_r.
  - by apply sublist_app.
Qed.

(** [x] is first seen before [y] in [l]: some occurrence of [x] precedes
    every occurrence of [y]. *)
Definition firstSeenBefore (l : list string) (x y : string) : Prop :=
  exists k, l !! k = Some x /\ forall k', l !! k' = Some y -> k < k'.

Lemma firstSeenBefore_snoc_old (l : list string) (a x y : string) :
  y ∈ l -> firstSeenBefore l x y -> firstSeenBefore (l ++ [a]) x y.
Proof.
  intros Hy (k & Hk & Hlt). exists k. split.
  - by apply lookup_app_l_Some.
  - intros k' Hk'. apply lookup_app_Some in Hk' as [Hk'|[Hge Hk']].
    + by apply Hlt.
    + apply lookup_lt_Some in Hk. lia.
Qed.

Lemma firstSeenBefore_snoc_new (l : list string) (x y : string) :
  x ∈ l -> y ∉ l -> firstSeenBefore (l ++ [y]) x y.
Proof.
  intros Hx Hy. apply list_elem_of_lookup in Hx as [k Hk].
  exists k. split.
  - by apply lookup_app_l_Some.
  - intros k' Hk'. apply lookup_app_Some in Hk' as [Hk'|[Hge Hk']].
    + destruct Hy. by eapply list_elem_of_lookup_2.
    + apply lookup_lt_Some in Hk. lia.
Qed.

Lemma uniqueMatchLinks_order (matchLinks : list string) (i j : nat) (x y : string) :
  i < j ->
  uniqueMatchLinks matchLinks !! i = Some x ->
  uniqueMatchLinks matchLinks !! j = Some y ->
  firstSeenBefore matchLinks x y.
Proof.
  revert i j x y.
  induction matchLinks as [|link matchLinks IH] using rev_ind; intros i j x y Hij Hx Hy.
  { done. }
  rewrite uniqueMatchLinks_snoc in Hx, Hy.
  assert (Hold : forall z k, uniqueMatchLinks matchLinks !! k = Some z -> z ∈ matchLinks).
  { intros z k Hz. apply uniqueMatchLinks_elem. by eapply list_elem_of_lookup_2. }
  case_decide as Hin.
  - apply firstSeenBefore_snoc_old; eauto.
  - apply lookup_app_Some in Hy as [Hy|[Hge Hy]].
    + apply lookup_app_Some in Hx as [Hx|[Hgx _]].
      * apply firstSeenBefore_snoc_old; eauto.
      * apply lookup_lt_Some in Hy. lia.
    + apply list_lookup_singleton_Some in Hy as [Hj <-].
      apply lookup_app_Some in Hx as [Hx|[Hgx _]]; [|lia].
      apply firstSeenBefore_snoc_new; [eauto|].
      by rewrite <- uniqueMatchLinks_elem.
Qed.

(** C4. The deduplicated list has no repeated locator, holds exactly the
    locators of the input (so at least one occurrence of each), and keeps
    them in first-seen order: it is a subsequence of the input, and of
    two of its entries the earlier one is first seen earlier in the
    input. *)
Theorem dedup_first_seen (matchLinks : list string) :
  NoDup (uniqueMatchLinks matchLinks)
  /\ (forall x, x ∈ uniqueMatchLinks matchLinks <-> x ∈ matchLinks)
  /\ uniqueMatchLinks matchLinks `sublist_of` matchLinks
  /\ (forall i j x y, i < j ->
        uniqueMatchLinks matchLinks !! i = Some x ->
        uniqueMatchLinks matchLinks !! j = Some y ->
        firstSeenBefore matchLinks x y).
Proof.
  split; [apply uniqueMatchLinks_NoDup|].
  split; [apply uniqueMatchLinks_elem|].
  split; [apply uniqueMatchLinks_sublist|].
  apply uniqueMatchLinks_order.
Qed.

(** The links handed to the deduplication are the collected link lists
    laid end to end. *)
Lemma gatherLinks_concat (collected : list (list string)) :
  gatherLinks collected = mjoin collected.
Proof.
  unfold gatherLinks.
  enough (H : forall acc,
            foldl (fun matchLinks link => matchLinks ++ link) acc collected
            = acc ++ mjoin collected) by apply (H []).
  induction collected as [|link collected IH]; intros acc; simpl.
  - by rewrite app_nil_r.
  - by rewrite IH, app_assoc.
Qed.

Example dedup_sample :
  uniqueMatchLinks ["m2"; "m1"; "m2"; "m3"; "m1"] = ["m2"; "m1"; "m3"].
Proof. vm_compute. reflexivity. Qed.

(** ** The leaderboard URL *)

(** C10. [getTopPlayersURL] clamps the page size: a limit above 50 is
    sent as [limit=50], any other limit is sent as it was given. *)
Theorem getTopPlayersURL_clamps (region : string) (limit : Z) :
  ((50 < limit)%Z ->
     getTopPlayersURL region limit
     = topPlayersURL +:+ region +:+ "?offset=0&limit=50")
  /\ ((limit <= 50)%Z ->
     getTopPlayersURL region limit
     = topPlayersURL +:+ region +:+ "?offset=0&limit=" +:+ fmtInt limit).
Proof.
  unfold getTopPlayersURL, maxLimit. split; intros Hlimit.
  - by destruct (Z.gtb_spec limit 50); [|lia].
  - by destruct (Z.gtb_spec limit 50); [lia|].
Qed.

Lemma getTopPlayersURL_clamps_witness :
  getTopPlayersURL "EU" 75
  = "https://open.faceit.com/data/v4/rankings/games/cs2/regions/EU?offset=0&limit=50"
  /\ getTopPlayersURL "EU" 5
  = "https://open.faceit.com/data/v4/rankings/games/cs2/regions/EU?offset=0&limit=5".
Proof.
  split.
  - apply (proj1 (getTopPlayersURL_clamps "EU" 75)). lia.
  - apply (proj2 (getTopPlayersURL_clamps "EU" 5)). lia.
Defined.

(** ** The batch insert *)

Section BatchInsertFacts.

Variable error : Type.
Variable beginTx : option error.
Variable createMatch : matchesTable -> CreateMatchParams -> error + matchesTable.
Variable commit : matchesTable -> option error.

(** What the statement of [CreateMatch] does when it succeeds: the row
    is stored under its URL. *)
Hypothesis createMatch_stores :
  forall view m view', createMatch view m = inr view' -> view' = <[MatchUrl m := m]> view.

Lemma runInserts_withBatch (matches : list CreateMatchParams) :
  forall view view',
    runInserts error createMatch view matches = inr view' ->
    view' = withBatch view matches.
Proof.
  induction matches as [|m matches IH]; intros view view' Hrun; simpl in *.
  - by injection Hrun as <-.
  - destruct (createMatch view m) as [e|view1] eqn:Hm; [done|].
    apply createMatch_stores in Hm as ->. by apply IH.
Qed.

(** The loop leaves the connection rolled back with the first error, or
    with the transaction holding the rows after every statement. *)
Lemma insertLoop_runs (matches : list CreateMatchParams) :
  forall rows view,
    insertLoop error createMatch matches (mkConn rows (Some view)) =
    match runInserts error createMatch view matches with
    | inl e => (mkConn rows None, Some e)
    | inr view' => (mkConn rows (Some view'), None)
    end.
Proof.
  induction matches as [|m matches IH]; intros rows view; simpl; [done|].
  unfold CreateMatch. simpl.
  destruct (createMatch view m) as [e|view1]; [done|]. apply IH.
Qed.

Lemma withBatch_lookup_last (matches : list CreateMatchParams) :
  forall t m,
    m ∈ matches ->
    exists m', m' ∈ matches /\ MatchUrl m' = MatchUrl m
               /\ withBatch t matches !! MatchUrl m = Some m'.
Proof.
  induction matches as [|m0 matches IH] using rev_ind; intros t m Hm.
  { by apply elem_of_nil in Hm. }
  unfold withBatch in *. rewrite foldl_app. simpl.
  destruct (decide (MatchUrl m0 = MatchUrl m)) as [Heq|Hne].
  - exists m0. rewrite <- Heq, lookup_insert_eq.
    split; [|done]. apply elem_of_app. right. by apply list_elem_of_singleton.
  - rewrite lookup_insert_ne by done.
    apply elem_of_app in Hm as [Hm| ->%list_elem_of_singleton]; [|done].
    destruct (IH t m Hm) as (m' & Hin & Hurl & Hlook).
    exists m'. split; [|done]. apply elem_of_app. by left.
Qed.

(** C8. [BatchInsertMatches] is all-or-nothing.  Called on a connection
    with no transaction open, it leaves none open.  If the statement of
    some record fails, the transaction is rolled back: the committed rows
    are the ones from before the call and that error is returned.  If
    every statement succeeds, the transaction is committed: the committed
    rows are the old ones with every record of the batch stored under its
    URL, and [nil] is returned.  (A [BeginTx] or [Commit] that itself
    fails returns its error with the rows unchanged.) *)
Theorem batch_insert_all_or_nothing (rows : matchesTable) (matches : list CreateMatchParams) :
  let c := mkConn rows None in
  let out := BatchInsertMatches error beginTx createMatch commit c matches in
  openTx out.1 = None
  /\ (forall e, beginTx = Some e -> out = (c, Some e))
  /\ (beginTx = None ->
      (forall e, runInserts error createMatch rows matches = inl e ->
         out = (c, Some e))
      /\ (forall view, runInserts error createMatch rows matches = inr view ->
            view = withBatch rows matches
            /\ (forall e, commit view = Some e -> out = (c, Some e))
            /\ (commit view = None ->
                  out = (mkConn (withBatch rows matches) None, None)
                  /\ forall m, m ∈ matches ->
                       exists m', m' ∈ matches /\ MatchUrl m' = MatchUrl m
                         /\ committed out.1 !! MatchUrl m = Some m'))).
Proof.
  simpl. unfold BatchInsertMatches, BeginTx. simpl.
  destruct beginTx as [e0|] eqn:Hbegin.
  { split; [done|]. split; [|done]. by intros e [= <-]. }
  rewrite insertLoop_runs.
  destruct (runInserts error createMatch rows matches) as [e|view] eqn:Hrun.
  { split; [done|]. split; [done|]. intros _. split; [|done]. by intros e' [= <-]. }
  pose proof (runInserts_withBatch _ _ _ Hrun) as ->.
  unfold Commit. simpl.
  destruct (commit (withBatch rows matches)) as [e|] eqn:Hcommit.
  { split; [done|]. split; [done|]. intros _. split; [done|].
    intros view [= <-]. rewrite Hcommit.
    split; [done|]. split; [|done]. by intros e' [= <-]. }
  split; [done|]. split; [done|]. intros _. split; [done|].
  intros view [= <-]. rewrite Hcommit.
  split; [done|]. split; [done|]. intros _. split; [done|].
  simpl. intros m Hm. by apply withBatch_lookup_last.
Qed.

End BatchInsertFacts.

(** A driver whose statement is a plain [INSERT]: it fails on a URL that
    is already stored. *)
Definition sampleCreateMatch (view : matchesTable) (m : CreateMatchParams)
    : string + matchesTable :=
  match view !! MatchUrl m with
  | Some _ => inl "UNIQUE constraint failed: matches.match_url"
  | None => inr (<[MatchUrl m := m]> view)
  end.

Lemma sampleCreateMatch_stores view m view' :
  sampleCreateMatch view m = inr view' -> view' = <[MatchUrl m := m]> view.
Proof.
  unfold sampleCreateMatch. destruct (view !! MatchUrl m); [done|].
  by intros [= <-].
Qed.

Definition sampleRecord (url : string) : CreateMatchParams :=
  mkCreateMatchParams url 1 50 1 1 60 40 0.8 45 0.9 0.9 55 35.

(** Two fresh records are both committed; a batch that repeats a URL is
    rolled back whole and returns the error of the failing statement. *)
Lemma batch_insert_all_or_nothing_witness :
  BatchInsertMatches string None sampleCreateMatch (fun _ => None) (mkConn ∅ None)
    [sampleRecord "m1"; sampleRecord "m2"]
  = (mkConn (withBatch ∅ [sampleRecord "m1"; sampleRecord "m2"]) None, None)
  /\ BatchInsertMatches string None sampleCreateMatch (fun _ => None) (mkConn ∅ None)
       [sampleRecord "m1"; sampleRecord "m1"]
     = (mkConn ∅ None, Some "UNIQUE constraint failed: matches.match_url").
Proof.
  split.
  - pose proof (batch_insert_all_or_nothing string None sampleCreateMatch (fun _ => None)
                  sampleCreateMatch_stores ∅ [sampleRecord "m1"; sampleRecord "m2"]) as H.
    destruct H as (_ & _ & H). destruct (H eq_refl) as [_ Hok].
    by destruct (Hok _ eq_refl) as (_ & _ & [Hout _]).
  - pose proof (batch_insert_all_or_nothing string None sampleCreateMatch (fun _ => None)
                  sampleCreateMatch_stores ∅ [sampleRecord "m1"; sampleRecord "m1"]) as H.
    destruct H as (_ & _ & H). destruct (H eq_refl) as [Hfail _].
    by apply Hfail.
Defined.

(** ** The worker pools *)

Section WorkerFacts.

Context {J E R : Type}.
Variable handler : J -> E -> option R.

(** A worker at position [i], and the list with that worker replaced. *)
Lemma workers_split (ws : list (worker J R)) (i : nat) (w : worker J R) :
  ws !! i = Some w ->
  exists l1 l2, ws = l1 ++ w :: l2 /\ forall w', <[i := w']> ws = l1 ++ w' :: l2.
Proof.
  intros Hi. exists (take i ws), (drop (S i) ws). split.
  - by rewrite take_drop_middle.
  - intros w'. apply insert_take_drop. by eapply lookup_lt_Some.
Qed.

Lemma elem_of_replaced (l1 l2 : list (worker J R)) (w w' x : worker J R) :
  x ∈ l1 ++ w' :: l2 -> x = w' \/ x ∈ l1 ++ w :: l2.
Proof. rewrite !elem_of_app, !elem_of_cons. tauto. Qed.

(** The moves of [workerStep], read off a successful step. *)
Inductive workerMove (h h' : hub J E R) : Prop :=
| TakesJob l1 l2 job rest :
    workers h = l1 ++ AtRange :: l2 ->
    buf (jobs h) = job :: rest ->
    h' = mkHub (mkChan rest (cap (jobs h)) (closed (jobs h))) (results h)
           (l1 ++ Running job :: l2) (log h) ->
    workerMove h h'
| LeavesLoop l1 l2 :
    workers h = l1 ++ AtRange :: l2 ->
    buf (jobs h) = [] ->
    closed (jobs h) = true ->
    h' = mkHub (jobs h) (results h) (l1 ++ Returned :: l2) (log h) ->
    workerMove h h'
| SendsResult l1 l2 r :
    workers h = l1 ++ Sending r :: l2 ->
    closed (results h) = false ->
    length (buf (results h)) < cap (results h) ->
    h' = mkHub (jobs h) (mkChan (buf (results h) ++ [r]) (cap (results h)) false)
           (l1 ++ AtRange :: l2) (log h) ->
    workerMove h h'
| GetsResponse l1 l2 job e :
    workers h = l1 ++ Running job :: l2 ->
    h' = mkHub (jobs h) (results h)
           (l1 ++ match handler job e with None => AtRange | Some r => Sending r end :: l2)
           (log h ++ [(job, e)]) ->
    workerMove h h'
| EndsGoroutine l1 l2 :
    workers h = l1 ++ Returned :: l2 ->
    h' = mkHub (jobs h) (results h) (l1 ++ Exited :: l2) (log h) ->
    workerMove h h'.

Lemma workerStep_move (i : nat) (h h' : hub J E R) :
  workerStep i h = Next h' -> workerMove h h'.
Proof.
  unfold workerStep. destruct (workers h !! i) as [w|] eqn:Hi; [|done].
  apply workers_split in Hi as (l1 & l2 & Hws & Hins).
  destruct w as [|job|r| |]; try done.
  - unfold recv. destruct (buf (jobs h)) as [|job rest] eqn:Hbuf.
    + destruct (closed (jobs h)) eqn:Hclosed; [|done].
      intros [= <-]. rewrite Hins. by eapply LeavesLoop.
    + intros [= <-]. rewrite Hins. by eapply TakesJob.
  - unfold send. destruct (closed (results h)) eqn:Hclosed; [done|].
    destruct (Nat.ltb_spec (length (buf (results h))) (cap (results h))); [|done].
    intros [= <-]. rewrite Hins. by eapply SendsResult.
Qed.

Lemma respond_move (i : nat) (e : E) (h h' : hub J E R) :
  respond handler i e h = Next h' -> workerMove h h'.
Proof.
  unfold respond. destruct (workers h !! i) as [w|] eqn:Hi; [|done].
  apply workers_split in Hi as (l1 & l2 & Hws & Hins).
  destruct w as [|job|r| |]; try done.
  intros [= <-]. rewrite Hins. by eapply GetsResponse.
Qed.

(** What holds of the shared part of a pool throughout a run, for the
    jobs [submitted], those the owner has still to send ([pending]) and
    the results it has taken ([collected]):
    - each submitted job is logged, in flight, queued or pending;
    - each produced result is collected, queued or about to be sent;
    - the job channel has room for every job;
    - a worker leaves its loop only on a closed, empty job channel;
    - nothing is pending once the job channel is closed. *)
Record hubInv (submitted pending : list J) (collected : list R) (h : hub J E R) : Prop := {
  inv_jobs :
    submitted ≡ₚ (log h).*1 ++ omap runningJob (workers h) ++ buf (jobs h) ++ pending;
  inv_results :
    produced handler (log h)
    ≡ₚ collected ++ buf (results h) ++ omap sendingResult (workers h);
  inv_cap : cap (jobs h) = length submitted;
  inv_left :
    forall w, w ∈ workers h -> afterLoop w = true ->
      closed (jobs h) = true /\ buf (jobs h) = [];
  inv_closed : closed (jobs h) = true -> pending = []
}.

Lemma produced_snoc (l : list (J * E)) (job : J) (e : E) :
  produced handler (l ++ [(job, e)])
  = produced handler l ++ match handler job e with None => [] | Some r => [r] end.
Proof.
  unfold produced. rewrite omap_app. simpl. by destruct (handler job e).
Qed.

Lemma length_produced (l : list (J * E)) : length (produced handler l) <= length l.
Proof.
  induction l as [|[job e] l IH]; simpl; [done|].
  unfold produced in *. simpl. destruct (handler job e); simpl; lia.
Qed.

Lemma hubInv_move submitted pending collected (h h' : hub J E R) :
  hubInv submitted pending collected h -> workerMove h h' ->
  hubInv submitted pending collected h'.
Proof.
  intros [Hjobs Hres Hcap Hleft Hclosed] Hmove.
  destruct Hmove as [l1 l2 job rest Hws Hbuf ->|l1 l2 Hws Hbuf Hcl ->
                    |l1 l2 r Hws Hcl Hlen ->|l1 l2 job e Hws ->|l1 l2 Hws ->];
    rewrite Hws in *.
  - split; simpl; [| |done| |done].
    + rewrite Hjobs, Hbuf, !omap_app. simpl. solve_Permutation.
    + by rewrite Hres, !omap_app.
    + intros w Hw Hafter.
      apply (elem_of_replaced _ _ AtRange) in Hw as [->|Hw]; [done|].
      destruct (Hleft w Hw Hafter) as [_ Hempty]. congruence.
  - split; simpl; [| |done| |done].
    + by rewrite Hjobs, !omap_app.
    + by rewrite Hres, !omap_app.
    + done.
  - split; simpl; [| |done| |done].
    + by rewrite Hjobs, !omap_app.
    + rewrite Hres, !omap_app. simpl. solve_Permutation.
    + intros w Hw Hafter.
      apply (elem_of_replaced _ _ (Sending r)) in Hw as [->|Hw]; [done|].
      by apply (Hleft w).
  - split; simpl; [| |done| |done].
    + rewrite Hjobs, fmap_app, !omap_app. simpl.
      destruct (handler job e); simpl; solve_Permutation.
    + rewrite produced_snoc, Hres, !omap_app.
      destruct (handler job e); simpl; [solve_Permutation|by rewrite app_nil_r].
    + intros w Hw Hafter.
      apply (elem_of_replaced _ _ (Running job)) in Hw as [->|Hw]; [|by apply (Hleft w)].
      by destruct (handler job e).
  - split; simpl; [| |done| |done].
    + by rewrite Hjobs, !omap_app.
    + by rewrite Hres, !omap_app.
    + intros w Hw Hafter. apply (Hleft Returned); [|done].
      rewrite elem_of_app, elem_of_cons. tauto.
Qed.

End WorkerFacts.

Section PoolFacts.

Context {J E R : Type}.
Variable handler : J -> E -> option R.

Definition pendingOf (o : owner J R) : list J :=
  match o with Submitting rest => rest | _ => [] end.

Definition collectedOf (o : owner J R) : list R :=
  match o with Draining collected | Finished collected => collected | _ => [] end.

(** The number of worker goroutines that have not finished. *)
Definition alive (ws : list (worker J R)) : nat :=
  sum_list_with (fun w => if exited w then 0 else 1) ws.

Definition allExited (ws : list (worker J R)) : Prop :=
  Forall (fun w => w = Exited) ws.

Lemma alive_zero (ws : list (worker J R)) : alive ws = 0 -> allExited ws.
Proof.
  unfold alive, allExited. induction ws as [|w ws IH]; simpl; [constructor|].
  destruct w; simpl; try lia. intros H. constructor; [done|]. by apply IH.
Qed.

Lemma alive_replaced (l1 l2 : list (worker J R)) (w w' : worker J R) :
  exited w = false ->
  alive (l1 ++ w :: l2) = alive (l1 ++ w' :: l2) + (if exited w' then 1 else 0).
Proof.
  intros Hw. unfold alive. rewrite !sum_list_with_app. simpl. rewrite Hw.
  destruct (exited w'); lia.
Qed.

Lemma allExited_none (l1 l2 : list (worker J R)) (w : worker J R) :
  exited w = false -> ~ allExited (l1 ++ w :: l2).
Proof.
  unfold allExited. rewrite Forall_app, Forall_cons. intros Hw (_ & -> & _). done.
Qed.

(** A move other than the end of a goroutine keeps the count; every move
    needs a worker that has not finished. *)
Lemma move_alive (h h' : hub J E R) :
  workerMove handler h h' ->
  ~ allExited (workers h)
  /\ alive (workers h) = alive (workers h')
                         + (if decide (alive (workers h') < alive (workers h)) then 1 else 0).
Proof.
  intros [l1 l2 job rest Hws _ ->|l1 l2 Hws _ _ ->|l1 l2 r Hws _ _ ->
         |l1 l2 job e Hws ->|l1 l2 Hws ->]; rewrite Hws; simpl;
    (split; [by apply allExited_none|]).
  - rewrite (alive_replaced l1 l2 AtRange (Running job)) by done. simpl.
    case_decide; lia.
  - rewrite (alive_replaced l1 l2 AtRange Returned) by done. simpl.
    case_decide; lia.
  - rewrite (alive_replaced l1 l2 (Sending r) AtRange) by done. simpl.
    case_decide; lia.
  - rewrite (alive_replaced l1 l2 (Running job)
               (match handler job e with None => AtRange | Some r => Sending r end)) by done.
    destruct (handler job e); simpl; case_decide; lia.
  - rewrite (alive_replaced l1 l2 Returned Exited) by done. simpl.
    case_decide; lia.
Qed.

Lemma workerStep_alive (i : nat) (h h' : hub J E R) :
  workerStep i h = Next h' -> alive (workers h') = alive (workers h).
Proof.
  unfold workerStep. destruct (workers h !! i) as [w|] eqn:Hi; [|done].
  apply workers_split in Hi as (l1 & l2 & Hws & Hins).
  destruct w as [|job|r| |]; try done.
  - unfold recv. destruct (buf (jobs h)) as [|job rest].
    + destruct (closed (jobs h)); [|done]. intros [= <-]. simpl.
      rewrite Hins, Hws, (alive_replaced l1 l2 AtRange Returned) by done. simpl. lia.
    + intros [= <-]. simpl.
      rewrite Hins, Hws, (alive_replaced l1 l2 AtRange (Running job)) by done. simpl. lia.
  - unfold send. destruct (closed (results h)); [done|].
    destruct (length (buf (results h)) <? cap (results h))%nat; [|done].
    intros [= <-]. simpl.
    rewrite Hins, Hws, (alive_replaced l1 l2 (Sending r) AtRange) by done. simpl. lia.
Qed.

Lemma respond_alive (i : nat) (e : E) (h h' : hub J E R) :
  respond handler i e h = Next h' -> alive (workers h') = alive (workers h).
Proof.
  unfold respond. destruct (workers h !! i) as [w|] eqn:Hi; [|done].
  apply workers_split in Hi as (l1 & l2 & Hws & Hins).
  destruct w as [|job|r| |]; try done.
  intros [= <-]. simpl.
  rewrite Hins, Hws, (alive_replaced l1 l2 (Running job)
    (match handler job e with None => AtRange | Some r => Sending r end)) by done.
  destruct (handler job e); simpl; lia.
Qed.

(** What holds of a pool throughout a run on the jobs [submitted]. *)
Record poolInv (submitted : list J) (s : pool J E R) : Prop := {
  pinv_hub :
    hubInv handler submitted (pendingOf (ownerG s)) (collectedOf (ownerG s)) (shared s);
  pinv_cap : length submitted <= cap (results (shared s));
  pinv_wg : wg s = alive (workers (shared s));
  pinv_jobs_closed :
    closed (jobs (shared s))
    = match ownerG s with Submitting _ => false | _ => true end;
  pinv_started :
    match closerG s, ownerG s with
    | NotStarted, (Submitting _ | Spawning) => True
    | (Waiting | Woken | CloserExited), (Draining _ | Finished _) => True
    | _, _ => False
    end;
  pinv_woken :
    match closerG s with
    | Woken | CloserExited => allExited (workers (shared s))
    | _ => True
    end;
  pinv_results_closed :
    closed (results (shared s))
    = match closerG s with CloserExited => true | _ => false end;
  pinv_finished :
    match ownerG s with
    | Finished _ => closed (results (shared s)) = true /\ buf (results (shared s)) = []
    | _ => True
    end;
  pinv_workers : length (workers (shared s)) = numWorkers
}.

Lemma poolInv_start (resultsCap : nat) (submitted : list J) :
  length submitted <= resultsCap ->
  poolInv submitted (startPool resultsCap submitted).
Proof.
  intros Hcap. split; simpl; try done.
  split; simpl; try done.
  intros w Hw Hafter. unfold numWorkers in Hw. simpl in Hw.
  repeat (apply elem_of_cons in Hw as [->|Hw]; [done|]). by apply elem_of_nil in Hw.
Qed.

Lemma poolInv_owner (submitted : list J) (s s' : pool J E R) :
  poolInv submitted s -> ownerStep s = Next s' -> poolInv submitted s'.
Proof.
  intros [[Hjobs Hres Hcapj Hleft Hclosed] Hcap Hwg Hjc Hst Hwk Hrc Hfin Hlen].
  unfold ownerStep.
  destruct (closerG s) eqn:Hc;
    destruct (ownerG s) as [[|job rest]| |collected|collected] eqn:Ho;
    simpl in *; try done.
  - unfold close. rewrite Hjc. intros [= <-].
    split; simpl; rewrite ?Ho, ?Hc; simpl; try done.
    split; simpl; try done.
    intros w Hw Hafter. destruct (Hleft w Hw Hafter) as [Hcl _]. congruence.
  - unfold send. rewrite Hjc.
    destruct (length (buf (jobs (shared s))) <? cap (jobs (shared s)))%nat; [|done].
    intros [= <-]. split; simpl; rewrite ?Ho, ?Hc; simpl; try done.
    split; simpl; try done.
    + rewrite Hjobs. solve_Permutation.
    + intros w Hw Hafter. destruct (Hleft w Hw Hafter) as [Hcl _]. congruence.
  - intros [= <-]. split; simpl; rewrite ?Ho, ?Hc; simpl; try done.
  - unfold recv. destruct (buf (results (shared s))) as [|r rest] eqn:Hbuf.
    + by rewrite Hrc.
    + intros [= <-]. split; simpl; rewrite ?Ho, ?Hc; simpl; try done.
      split; simpl; try done. rewrite Hres. solve_Permutation.
  - unfold recv. destruct (buf (results (shared s))) as [|r rest] eqn:Hbuf.
    + by rewrite Hrc.
    + intros [= <-]. split; simpl; rewrite ?Ho, ?Hc; simpl; try done.
      split; simpl; try done. rewrite Hres. solve_Permutation.
  - unfold recv. destruct (buf (results (shared s))) as [|r rest] eqn:Hbuf.
    + rewrite Hrc. intros [= <-].
      split; simpl; rewrite ?Ho, ?Hc; simpl; try done.
      split; simpl; rewrite ?Hbuf; done.
    + intros [= <-]. split; simpl; rewrite ?Ho, ?Hc; simpl; try done.
      split; simpl; try done. rewrite Hres. solve_Permutation.
Qed.

Lemma move_frame (h h' : hub J E R) :
  workerMove handler h h' ->
  cap (results h') = cap (results h)
  /\ closed (jobs h') = closed (jobs h)
  /\ closed (results h') = closed (results h)
  /\ length (workers h') = length (workers h).
Proof.
  intros [l1 l2 job rest Hws _ ->|l1 l2 Hws _ _ ->|l1 l2 r Hws Hcl _ ->
         |l1 l2 job e Hws ->|l1 l2 Hws ->];
    rewrite Hws; simpl; by rewrite !length_app.
Qed.

(** A move of a worker keeps the invariant of the pool, the WaitGroup
    counter following the number of live workers. *)
Lemma poolInv_move (submitted : list J) (s : pool J E R) (h' : hub J E R) (n : nat) :
  poolInv submitted s -> workerMove handler (shared s) h' ->
  n = alive (workers h') ->
  poolInv submitted (mkPool h' n (ownerG s) (closerG s)).
Proof.
  intros [Hhub Hcap Hwg Hjc Hst Hwk Hrc Hfin Hlen] Hmove ->.
  destruct (move_alive _ _ Hmove) as [Hlive _].
  destruct (move_frame _ _ Hmove) as (Hcap' & Hjc' & Hrc' & Hlen').
  destruct (closerG s) eqn:Hc; try done.
  - split; simpl; rewrite ?Hc, ?Hcap', ?Hjc', ?Hrc', ?Hlen'; try done.
    + by eapply hubInv_move.
    + by destruct (ownerG s).
  - split; simpl; rewrite ?Hc, ?Hcap', ?Hjc', ?Hrc', ?Hlen'; try done.
    + by eapply hubInv_move.
    + destruct (ownerG s); try done. destruct Hfin as [Hcl _]. congruence.
Qed.

Lemma poolInv_worker (submitted : list J) (i : nat) (s s' : pool J E R) :
  poolInv submitted s -> poolWorkerStep i s = Next s' -> poolInv submitted s'.
Proof.
  intros Hinv. unfold poolWorkerStep.
  destruct (workers (shared s) !! i) as [w|] eqn:Hi.
  - assert (Hshared : withShared s (workerStep i (shared s)) = Next s' ->
                      poolInv submitted s').
    { unfold withShared.
      destruct (workerStep i (shared s)) as [h'| |] eqn:Hstep; try done.
      intros [= <-]. eapply poolInv_move; [done|by eapply workerStep_move|].
      rewrite (workerStep_alive _ _ _ Hstep). apply Hinv. }
    destruct w as [|job|r| |]; try done.
    destruct (wg s) as [|n] eqn:Hwg; [done|]. intros [= <-].
    apply workers_split in Hi as (l1 & l2 & Hws & Hins).
    eapply poolInv_move; [done| |].
    + eapply EndsGoroutine; [done|]. by rewrite Hins.
    + simpl. rewrite Hins.
      pose proof (pinv_wg _ _ Hinv) as Hcount. rewrite Hwg, Hws in Hcount.
      rewrite (alive_replaced l1 l2 Returned Exited) in Hcount by done.
      simpl in Hcount. lia.
  - unfold workerStep. by rewrite Hi.
Qed.

Lemma poolInv_respond (submitted : list J) (i : nat) (e : E) (s s' : pool J E R) :
  poolInv submitted s -> withShared s (respond handler i e (shared s)) = Next s' ->
  poolInv submitted s'.
Proof.
  intros Hinv. unfold withShared.
  destruct (respond handler i e (shared s)) as [h'| |] eqn:Hstep; try done.
  intros [= <-]. eapply poolInv_move; [done|by eapply respond_move|].
  rewrite (respond_alive _ _ _ _ Hstep). apply Hinv.
Qed.

Lemma poolInv_closer (submitted : list J) (s s' : pool J E R) :
  poolInv submitted s -> closerStep s = Next s' -> poolInv submitted s'.
Proof.
  intros [Hhub Hcap Hwg Hjc Hst Hwk Hrc Hfin Hlen]. unfold closerStep.
  destruct (closerG s) eqn:Hc; try done.
  - destruct (wg s) eqn:Hzero; [|done]. intros [= <-].
    split; simpl; rewrite ?Hc; try done.
    by apply alive_zero.
  - unfold close. rewrite Hrc. intros [= <-].
    destruct Hhub as [Hjobs Hres Hcapj Hleft Hclosed].
    split; simpl; rewrite ?Hc; try done.
    destruct (ownerG s); try done. destruct Hfin as [Hcl _]. congruence.
Qed.

Lemma poolInv_step (submitted : list J) (s s' : pool J E R) :
  poolInv submitted s -> step handler s s' -> poolInv submitted s'.
Proof.
  intros Hinv [[|i|i e|] Hexec]; simpl in Hexec.
  - by eapply poolInv_owner.
  - by eapply poolInv_worker.
  - by eapply poolInv_respond.
  - by eapply poolInv_closer.
Qed.

Lemma poolInv_reachable (resultsCap : nat) (submitted : list J) (s : pool J E R) :
  length submitted <= resultsCap ->
  reachable handler (startPool resultsCap submitted) s ->
  poolInv submitted s.
Proof.
  intros Hcap Hreach. unfold reachable in Hreach.
  pose proof (poolInv_start resultsCap submitted Hcap) as Hstart.
  induction Hreach as [|s0 s1 s2 Hstep _ IH]; [done|].
  apply IH. by eapply poolInv_step.
Qed.

(** *** What the invariant gives *)

Lemma allExited_idle (ws : list (worker J R)) :
  allExited ws -> omap runningJob ws = [] /\ omap sendingResult ws = [].
Proof.
  unfold allExited. induction 1 as [|w ws -> _ [IH1 IH2]]; [done|].
  split; [exact IH1|exact IH2].
Qed.

Lemma alive_pick (ws : list (worker J R)) :
  0 < alive ws -> exists l1 w l2, ws = l1 ++ w :: l2 /\ exited w = false.
Proof.
  unfold alive. induction ws as [|w ws IH]; simpl; [lia|].
  destruct (exited w) eqn:Hw.
  - intros Hpos. destruct (IH Hpos) as (l1 & w' & l2 & -> & Hw').
    by exists (w :: l1), w', l2.
  - intros _. by exists [], w, ws.
Qed.

Lemma lookup_middle_insert (l1 l2 : list (worker J R)) (w w' : worker J R) :
  (l1 ++ w :: l2) !! length l1 = Some w
  /\ <[length l1 := w']> (l1 ++ w :: l2) = l1 ++ w' :: l2.
Proof.
  split; [by rewrite list_lookup_middle|].
  rewrite insert_app_r_alt by lia. by rewrite Nat.sub_diag.
Qed.

(** When the owner has finished: every submitted job went through the
    external call exactly once, and the owner holds exactly the results
    these calls led to; all workers have finished and the WaitGroup is
    back at zero. *)
Lemma poolInv_finished (submitted : list J) (s : pool J E R) (collected : list R) :
  poolInv submitted s -> ownerG s = Finished collected ->
  (log (shared s)).*1 ≡ₚ submitted
  /\ collected ≡ₚ produced handler (log (shared s))
  /\ allExited (workers (shared s))
  /\ wg s = 0.
Proof.
  intros [[Hjobs Hres Hcapj Hleft Hclosed] Hcap Hwg Hjc Hst Hwk Hrc Hfin Hlen] Ho.
  rewrite Ho in *. simpl in *. destruct Hfin as [Hcl Hbuf].
  destruct (closerG s); try (rewrite Hcl in Hrc; done).
  destruct (allExited_idle _ Hwk) as [Hrun Hsend].
  assert (Hempty : buf (jobs (shared s)) = []).
  { destruct (workers (shared s)) as [|w ws] eqn:Hws; [done|].
    apply (Hleft w); [by left|]. by apply Forall_cons in Hwk as [-> _]. }
  rewrite Hrun, Hempty in Hjobs. rewrite Hsend, Hbuf in Hres.
  simpl in *. rewrite !app_nil_r in *.
  split; [done|]. split; [done|]. split; [done|].
  rewrite Hwg. clear -Hwk. unfold alive.
  induction Hwk as [|w ws -> _ IH]; [done|]. done.
Qed.

(** The result channel is closed only when all workers have finished,
    and by then every submitted job has been attempted. *)
Lemma poolInv_closed_late (submitted : list J) (s : pool J E R) :
  poolInv submitted s -> closed (results (shared s)) = true ->
  allExited (workers (shared s)) /\ wg s = 0
  /\ (log (shared s)).*1 ≡ₚ submitted.
Proof.
  intros [[Hjobs Hres Hcapj Hleft Hclosed] Hcap Hwg Hjc Hst Hwk Hrc Hfin Hlen] Hcl.
  rewrite Hcl in Hrc. destruct (closerG s); try done.
  split; [done|]. split.
  { rewrite Hwg. clear -Hwk. unfold alive.
    induction Hwk as [|w ws -> _ IH]; [done|]. done. }
  destruct (allExited_idle _ Hwk) as [Hrun _].
  assert (Hempty : buf (jobs (shared s)) = []).
  { destruct (workers (shared s)) as [|w ws] eqn:Hws; [done|].
    apply (Hleft w); [by left|]. by apply Forall_cons in Hwk as [-> _]. }
  assert (Hpending : pendingOf (ownerG s) = []) by (by destruct (ownerG s)).
  rewrite Hrun, Hempty, Hpending in Hjobs. simpl in Hjobs.
  by rewrite app_nil_r in Hjobs.
Qed.

(** At most one external call per submitted job, at any time. *)
Lemma poolInv_attempts (submitted : list J) (s : pool J E R) :
  poolInv submitted s -> length (log (shared s)) <= length submitted.
Proof.
  intros [[Hjobs _ _ _ _] _ _ _ _ _ _ _ _].
  apply Permutation_length in Hjobs. rewrite !length_app, length_fmap in Hjobs. lia.
Qed.

(** No goroutine panics: no send on a closed channel, no channel closed
    twice, no negative WaitGroup counter. *)
Lemma poolInv_no_panic (submitted : list J) (s : pool J E R) (a : actor E) :
  poolInv submitted s -> exec handler a s <> Panics.
Proof.
  intros [[Hjobs Hres Hcapj Hleft Hclosed] Hcap Hwg Hjc Hst Hwk Hrc Hfin Hlen].
  destruct a as [|i|i e|]; simpl.
  - unfold ownerStep. destruct (ownerG s) as [[|job rest]| |collected|collected]; try done.
    + unfold close. by rewrite Hjc.
    + unfold send. rewrite Hjc.
      by destruct (length (buf (jobs (shared s))) <? cap (jobs (shared s)))%nat.
    + unfold recv. destruct (buf (results (shared s))); [|done].
      by destruct (closed (results (shared s))).
  - unfold poolWorkerStep, withShared, workerStep.
    destruct (workers (shared s) !! i) as [w|] eqn:Hi; [|done].
    apply workers_split in Hi as (l1 & l2 & Hws & _).
    destruct w as [|job|r| |]; try done.
    + unfold recv. destruct (buf (jobs (shared s))); [|done].
      by destruct (closed (jobs (shared s))).
    + unfold send. destruct (closed (results (shared s))) eqn:Hcl.
      * destruct (closerG s); try done.
        rewrite Hws in Hwk. by apply allExited_none in Hwk.
      * by destruct (length (buf (results (shared s))) <? cap (results (shared s)))%nat.
    + destruct (wg s); [|done].
      rewrite Hws, (alive_replaced l1 l2 Returned Exited) in Hwg by done.
      simpl in Hwg. lia.
  - unfold withShared, respond.
    destruct (workers (shared s) !! i) as [[|job|r| |]|]; done.
  - unfold closerStep. destruct (closerG s); try done.
    + by destruct (wg s).
    + unfold close. by rewrite Hrc.
Qed.

(** Until the owner has finished, some goroutine can take a step, or a
    worker is inside its external call and steps as soon as that call
    comes back, whatever it comes back with: the pool cannot deadlock. *)
Lemma poolInv_progress (submitted : list J) (s : pool J E R) :
  poolInv submitted s ->
  (exists collected, ownerG s = Finished collected)
  \/ (exists a s', exec handler a s = Next s')
  \/ (exists i, forall e, exists s', exec handler (Respond i e) s = Next s').
Proof.
  intros Hinv.
  pose proof (poolInv_attempts _ _ Hinv) as Hattempts.
  destruct Hinv as [[Hjobs Hres Hcapj Hleft Hclosed] Hcap Hwg Hjc Hst Hwk Hrc Hfin Hlen].
  destruct (ownerG s) as [[|job rest]| |collected|collected] eqn:Ho; simpl in *.
  - right. left. exists OwnerG. simpl. unfold ownerStep, close. rewrite Ho, Hjc. by eexists.
  - right. left. exists OwnerG. simpl. unfold ownerStep, send. rewrite Ho, Hjc.
    apply Permutation_length in Hjobs. rewrite !length_app in Hjobs. simpl in Hjobs.
    destruct (Nat.ltb_spec (length (buf (jobs (shared s)))) (cap (jobs (shared s))));
      [by eexists|lia].
  - right. left. exists OwnerG. simpl. unfold ownerStep. rewrite Ho. by eexists.
  - destruct (buf (results (shared s))) as [|r rest] eqn:Hbuf.
    2:{ right. left. exists OwnerG. simpl. unfold ownerStep, recv. rewrite Ho, Hbuf.
        by eexists. }
    destruct (closerG s) eqn:Hc; try done.
    + (* the closer waits: a live worker moves, or the counter is zero *)
      destruct (wg s) as [|n] eqn:Hzero.
      { right. left. exists CloserG. simpl. unfold closerStep. rewrite Hc, Hzero.
        by eexists. }
      destruct (alive_pick (workers (shared s))) as (l1 & w & l2 & Hws & Hw); [lia|].
      destruct (lookup_middle_insert l1 l2 w w) as [Hi _]. rewrite <- Hws in Hi.
      destruct w as [|job|r| |]; try done.
      * right. left. exists (WorkerG (length l1)). simpl.
        unfold poolWorkerStep, withShared, workerStep, recv. rewrite Hi.
        destruct (buf (jobs (shared s))); [|by eexists].
        rewrite Hjc. by eexists.
      * right. right. exists (length l1). intros e. simpl.
        unfold withShared, respond. rewrite Hi. by eexists.
      * right. left. exists (WorkerG (length l1)). simpl.
        unfold poolWorkerStep, withShared, workerStep, send. rewrite Hi, Hrc, Hbuf.
        simpl. destruct (cap (results (shared s))) eqn:Hzcap; [|by eexists].
        apply Permutation_length in Hres.
        pose proof (length_produced handler (log (shared s))) as Hprod.
        rewrite Hws, !length_app, !omap_app, length_app in Hres. simpl in Hres. lia.
      * right. left. exists (WorkerG (length l1)). simpl.
        unfold poolWorkerStep. rewrite Hi, Hzero. by eexists.
    + right. left. exists CloserG. simpl. unfold closerStep, close. rewrite Hc, Hrc.
      by eexists.
    + right. left. exists OwnerG. simpl. unfold ownerStep, recv. rewrite Ho, Hbuf, Hrc.
      by eexists.
  - left. by eexists.
Qed.

(** Every step uses up some of [stepsLeft]: whatever the schedule, a run
    takes at most [stepsLeft] steps. *)
Lemma move_weight (h h' : hub J E R) :
  workerMove handler h h' -> hubWeight h' < hubWeight h.
Proof.
  intros [l1 l2 job rest Hws Hbuf ->|l1 l2 Hws _ _ ->|l1 l2 r Hws _ _ ->
         |l1 l2 job e Hws ->|l1 l2 Hws ->];
    unfold hubWeight; rewrite Hws; simpl;
    rewrite ?Hbuf, !sum_list_with_app, ?length_app; simpl; try lia.
  destruct (handler job e); simpl; lia.
Qed.

Lemma step_decreases (s s' : pool J E R) :
  step handler s s' -> stepsLeft s' < stepsLeft s.
Proof.
  intros [[|i|i e|] Hexec]; simpl in Hexec; unfold stepsLeft.
  - unfold ownerStep in Hexec.
    destruct (ownerG s) as [[|job rest]| |collected|collected] eqn:Ho; try done.
    + unfold close in Hexec. destruct (closed (jobs (shared s))); [done|].
      injection Hexec as <-. unfold hubWeight. simpl. lia.
    + unfold send in Hexec. destruct (closed (jobs (shared s))); [done|].
      destruct (length (buf (jobs (shared s))) <? cap (jobs (shared s)))%nat; [|done].
      injection Hexec as <-. unfold hubWeight. simpl. rewrite length_app. simpl. lia.
    + injection Hexec as <-. simpl. destruct (closerG s); simpl; lia.
    + unfold recv in Hexec. destruct (buf (results (shared s))) as [|r rest] eqn:Hbuf.
      * destruct (closed (results (shared s))); [|done].
        injection Hexec as <-. simpl. lia.
      * injection Hexec as <-. unfold hubWeight. simpl. rewrite Hbuf. simpl. lia.
  - unfold poolWorkerStep in Hexec.
    destruct (workers (shared s) !! i) as [w|] eqn:Hi.
    + assert (Hshared : withShared s (workerStep i (shared s)) = Next s' ->
                        hubWeight (shared s') + ownerWeight (ownerG s')
                          + closerWeight (closerG s')
                        < hubWeight (shared s) + ownerWeight (ownerG s)
                          + closerWeight (closerG s)).
      { unfold withShared.
        destruct (workerStep i (shared s)) as [h'| |] eqn:Hstep; try done.
        intros [= <-]. simpl. apply (workerStep_move handler), move_weight in Hstep. lia. }
      destruct w as [|job|r| |]; try (by apply Hshared).
      destruct (wg s); [done|]. injection Hexec as <-. simpl.
      apply workers_split in Hi as (l1 & l2 & Hws & Hins).
      assert (Hm : workerMove handler (shared s)
                     (mkHub (jobs (shared s)) (results (shared s))
                        (<[i:=Exited]> (workers (shared s))) (log (shared s)))).
      { eapply EndsGoroutine; [done|]. by rewrite Hins. }
      apply move_weight in Hm. lia.
    + unfold workerStep in Hexec. by rewrite Hi in Hexec.
  - unfold withShared in Hexec.
    destruct (respond handler i e (shared s)) as [h'| |] eqn:Hstep; try done.
    injection Hexec as <-. simpl. apply respond_move, move_weight in Hstep. lia.
  - unfold closerStep in Hexec. destruct (closerG s); try done.
    + destruct (wg s); [|done]. injection Hexec as <-. simpl. lia.
    + unfold close in Hexec. destruct (closed (results (shared s))); [done|].
      injection Hexec as <-. unfold hubWeight. simpl. lia.
Qed.

(** A schedule that runs through is a run of the pool. *)
Lemma run_reachable (schedule : list (actor E)) (s0 s : pool J E R) :
  run handler schedule s0 = Next s -> reachable handler s0 s.
Proof.
  unfold reachable. revert s0.
  induction schedule as [|a schedule IH]; intros s0; simpl.
  - by intros [= <-].
  - destruct (exec handler a s0) as [s1| |] eqn:Hexec; try done.
    + intros Hrun. eapply rtc_l; [by exists a|]. by apply IH.
    + by apply IH.
Qed.

(** What the pool guarantees in a state [s] of a run on [submitted]. *)
Record poolGuarantees (submitted : list J) (s : pool J E R) : Prop := {
  (** the result channel is closed only after all workers have finished
      and every submitted job has been attempted *)
  closes_after_workers :
    closed (results (shared s)) = true ->
    allExited (workers (shared s)) /\ wg s = 0
    /\ (log (shared s)).*1 ≡ₚ submitted;
  (** never more attempts than jobs *)
  attempts_bounded : length (log (shared s)) <= length submitted;
  (** once the owner has drained the closed result channel: the attempts
      are exactly the submitted jobs, and the owner holds exactly the
      results the attempts produced (a failed attempt producing none) *)
  drains_everything :
    forall collected, ownerG s = Finished collected ->
      (log (shared s)).*1 ≡ₚ submitted
      /\ length (log (shared s)) = length submitted
      /\ collected ≡ₚ produced handler (log (shared s));
  (** no goroutine panics *)
  never_panics : forall a, exec handler a s <> Panics;
  (** no deadlock before the owner has finished *)
  makes_progress :
    (exists collected, ownerG s = Finished collected)
    \/ (exists a s', exec handler a s = Next s')
    \/ (exists i, forall e, exists s', exec handler (Respond i e) s = Next s');
  (** every run is finite *)
  terminates : forall s', step handler s s' -> stepsLeft s' < stepsLeft s
}.

Lemma pool_guarantees (resultsCap : nat) (submitted : list J) (s : pool J E R) :
  length submitted <= resultsCap ->
  reachable handler (startPool resultsCap submitted) s ->
  poolGuarantees submitted s.
Proof.
  intros Hcap Hreach. pose proof (poolInv_reachable _ _ _ Hcap Hreach) as Hinv.
  split.
  - by apply (poolInv_closed_late submitted).
  - by apply poolInv_attempts.
  - intros collected Ho.
    destruct (poolInv_finished _ _ _ Hinv Ho) as (Hlog & Hcol & _).
    split; [done|]. split; [|done].
    apply Permutation_length in Hlog. by rewrite length_fmap in Hlog.
  - intros a. by eapply poolInv_no_panic.
  - by eapply poolInv_progress.
  - apply step_decreases.
Qed.

End PoolFacts.

(** C5. In every state of every run of the pools of
    [scrapeMatchesWithWorkers] and [scrapeMatchLinksWithWorkers] on K
    submitted jobs: the result channel is closed only after all 5 workers
    have finished and each of the K jobs has been attempted; there are
    never more than K attempts; once the owner has drained the result
    channel to its close, exactly the K submitted jobs have been attempted
    and the owner holds every result these attempts produced (a failed
    attempt counting with no result); no goroutine panics, the pool
    cannot deadlock and every run is finite. *)
Theorem worker_pools_drain :
  (forall matchLinks s,
     reachable matchesHandler (startMatchesPool matchLinks) s ->
     poolGuarantees matchesHandler matchLinks s)
  /\ (forall playerURLs s,
        reachable linksHandler (startLinksPool playerURLs) s ->
        poolGuarantees linksHandler playerURLs s).
Proof.
  split.
  - intros matchLinks s. apply pool_guarantees. lia.
  - intros playerURLs s. by apply pool_guarantees.
Qed.

(** ** Ties *)

Lemma matchesHandler_url (matchLink : string) (page : matchPage) (d : ScrapedMatchData) :
  matchesHandler matchLink page = Some d -> URL d = matchLink.
Proof.
  unfold matchesHandler. destruct page as [[matchResult matchData]|]; [|done].
  destruct (String.eqb matchResult "TIE"); [done|]. by intros [= <-].
Qed.

Lemma matchesHandler_tie (matchLink : string) (matchData : list (list string)) :
  matchesHandler matchLink (Some ("TIE", matchData)) = None.
Proof. done. Qed.

(** Every assembled match carries the URL of the scraped data it was
    built from. *)
Lemma assembleLoop_url (allMatches : list ScrapedMatchData) :
  forall matches ms m,
    assembleLoop allMatches matches = Ok ms -> m ∈ ms ->
    m ∈ matches \/ exists d, d ∈ allMatches /\ MatchURL m = URL d.
Proof.
  induction allMatches as [|d rest IH]; intros matches ms m; simpl.
  - intros [= <-]. by left.
  - destruct (assembleMatch d) as [[m0|]|] eqn:Hd; simpl; [| |done].
    + intros Hloop Hm. destruct (IH _ _ _ Hloop Hm) as [Hin|(d' & Hd' & Hurl)].
      * apply elem_of_app in Hin as [Hin|Hin%list_elem_of_singleton]; [by left|].
        subst m0. right. exists d. split; [by left|].
        by destruct (assembleMatch_built _ _ Hd) as [_ ->].
      * right. exists d'. split; [by right|done].
    + intros Hloop Hm. destruct (IH _ _ _ Hloop Hm) as [Hin|(d' & Hd' & Hurl)].
      * by left.
      * right. exists d'. split; [by right|done].
Qed.

Lemma assembleMatches_url (allMatches : list ScrapedMatchData) (ms : list Match) (m : Match) :
  assembleMatches allMatches = Ok ms -> m ∈ ms ->
  exists d, d ∈ allMatches /\ MatchURL m = URL d.
Proof.
  intros Hloop Hm. destruct (assembleLoop_url _ _ _ _ Hloop Hm) as [Hin|Hd]; [|done].
  by apply elem_of_nil in Hin.
Qed.

(** C7. A worker whose page load comes back with the phrase "TIE" sends
    nothing and returns to the head of its loop.  Hence, in a finished
    run of [scrapeMatchesWithWorkers], a link whose every page load
    showed "TIE" tags none of the collected [ScrapedMatchData], so none of
    the assembled [Match]es and none of the [MatchAverageStats] computed
    from them. *)
Theorem tie_never_assembled (matchLinks : list string)
    (s : pool string matchPage ScrapedMatchData)
    (collected : list ScrapedMatchData) (link : string) :
  reachable matchesHandler (startMatchesPool matchLinks) s ->
  ownerG s = Finished collected ->
  (forall page, (link, page) ∈ log (shared s) -> exists data, page = Some ("TIE", data)) ->
  (forall i data h h',
     respond matchesHandler i (Some ("TIE", data)) h = Next h' ->
     results h' = results h /\ workers h' !! i = Some AtRange)
  /\ (forall d, d ∈ collected -> URL d <> link)
  /\ (forall ms, assembleMatches collected = Ok ms ->
        (forall m, m ∈ ms -> MatchURL m <> link)
        /\ (forall ParseFloat st,
              st ∈ getAverageMatchStats ParseFloat ms -> AvgMatchURL st <> link)).
Proof.
  intros Hreach Ho Htie.
  assert (Hcollected : forall d, d ∈ collected -> URL d <> link).
  { intros d Hd Hurl.
    assert (Hinv : poolInv matchesHandler matchLinks s).
    { apply (poolInv_reachable _ (length matchLinks * 10)); [lia|done]. }
    destruct (poolInv_finished _ _ _ _ Hinv Ho) as (_ & Hcol & _).
    rewrite Hcol in Hd. unfold produced in Hd.
    apply list_elem_of_omap in Hd as ([job page] & Hlog & Hh). simpl in Hh.
    pose proof (matchesHandler_url _ _ _ Hh) as Hjob. rewrite Hurl in Hjob. subst job.
    destruct (Htie page Hlog) as [data ->]. by rewrite matchesHandler_tie in Hh. }
  split; [|split; [done|]].
  - intros i data h h'. unfold respond.
    destruct (workers h !! i) as [[|job|r| |]|] eqn:Hi; try done.
    rewrite matchesHandler_tie. intros [= <-]. simpl. split; [done|].
    apply list_lookup_insert_eq. by eapply lookup_lt_Some.
  - intros ms Hms.
    assert (Hmatches : forall m, m ∈ ms -> MatchURL m <> link).
    { intros m Hm. destruct (assembleMatches_url _ _ _ Hms Hm) as (d & Hd & ->).
      by apply Hcollected. }
    split; [done|].
    intros ParseFloat st Hst.
    destruct (getAverageMatchStats_url _ _ _ Hst) as (m & Hm & ->).
    by apply Hmatches.
Qed.

(** *** A run of the match pool *)

(** Three links: a won match, a tie, and a page that fails to load. *)
Definition sampleLinks : list string := ["m1"; "m2"; "m3"].

Definition samplePage : matchPage := Some ("WIN", Data thirteenRows).

Definition sampleTie : matchPage := Some ("TIE", Data thirteenRows).

Definition sampleSchedule : list (actor matchPage) :=
  [OwnerG; OwnerG; OwnerG; OwnerG; OwnerG;
   WorkerG 0; WorkerG 1; WorkerG 2;
   Respond 1 sampleTie; Respond 2 None; Respond 0 samplePage;
   WorkerG 0; OwnerG;
   WorkerG 0; WorkerG 1; WorkerG 2; WorkerG 3; WorkerG 4;
   WorkerG 0; WorkerG 1; WorkerG 2; WorkerG 3; WorkerG 4;
   CloserG; CloserG; OwnerG].

Definition sampleEnd : pool string matchPage ScrapedMatchData :=
  match run matchesHandler sampleSchedule (startMatchesPool sampleLinks) with
  | Next s => s
  | _ => startMatchesPool sampleLinks
  end.

Definition sampleCollected : list ScrapedMatchData :=
  [mkScraped (Data thirteenRows) "m1"].

Lemma sampleEnd_reachable :
  reachable matchesHandler (startMatchesPool sampleLinks) sampleEnd.
Proof. apply (run_reachable _ sampleSchedule). vm_compute. reflexivity. Qed.

Lemma sampleEnd_finished : ownerG sampleEnd = Finished sampleCollected.
Proof. vm_compute. reflexivity. Qed.

Lemma worker_pools_drain_witness :
  (log (shared sampleEnd)).*1 ≡ₚ sampleLinks
  /\ length (log (shared sampleEnd)) = length sampleLinks
  /\ sampleCollected ≡ₚ produced matchesHandler (log (shared sampleEnd)).
Proof.
  exact (drains_everything _ _ _
           (proj1 worker_pools_drain sampleLinks sampleEnd sampleEnd_reachable)
           sampleCollected sampleEnd_finished).
Defined.

Lemma sampleEnd_ties (page : matchPage) :
  ("m2", page) ∈ log (shared sampleEnd) -> exists data, page = Some ("TIE", data).
Proof.
  intros Hin.
  assert (Hlog : Forall (fun je : string * matchPage =>
                           je.1 = "m2" -> exists data, je.2 = Some ("TIE", data))
                   (log (shared sampleEnd))).
  { vm_compute. repeat constructor; intros Heq; try discriminate; by eexists. }
  rewrite Forall_forall in Hlog. by apply (Hlog ("m2", page)).
Qed.

Lemma tie_never_assembled_witness :
  Forall (fun d => URL d <> "m2") sampleCollected.
Proof.
  apply Forall_forall.
  exact (proj1 (proj2 (tie_never_assembled sampleLinks sampleEnd sampleCollected "m2"
                         sampleEnd_reachable sampleEnd_finished sampleEnd_ties))).
Defined.

(** ** The pool of [getPlayerDetailsWithWorkers] *)

Section DetailsFacts.

Context {J E R : Type}.
Variable handler : J -> E -> option R.
Variable zeroValue : R.

Definition stillToSend (c : collector J R) : list J :=
  match c with DSubmitting rest => rest | _ => [] end.

Definition playersSoFar (c : collector J R) : list R :=
  match c with
  | Collecting _ players | ReturnedPlayers players => players
  | _ => []
  end.

(** What holds throughout a run until the caller gives up on
    [ctx.Done()]: the shared invariant; the result channel is never
    closed; and the counted loop has received one result per iteration
    done. *)
Record detailsInv (playerIDs : list J) (s : detailsPool J E R) : Prop := {
  dinv_hub :
    hubInv handler playerIDs (stillToSend (collectorG s)) (playersSoFar (collectorG s))
      (dshared s);
  dinv_results_open : closed (results (dshared s)) = false;
  dinv_jobs_closed :
    closed (jobs (dshared s))
    = match collectorG s with DSubmitting _ => false | _ => true end;
  dinv_count :
    match collectorG s with
    | Collecting n players => n + length players = length playerIDs
    | ReturnedPlayers players => length players = length playerIDs
    | _ => True
    end
}.

Lemma detailsInv_start (playerIDs : list J) :
  detailsInv playerIDs (startDetails playerIDs).
Proof.
  split; simpl; try done. split; simpl; try done.
  intros w Hw Hafter. unfold numWorkers in Hw. simpl in Hw.
  repeat (apply elem_of_cons in Hw as [->|Hw]; [done|]). by apply elem_of_nil in Hw.
Qed.

Lemma detailsInv_move (playerIDs : list J) (s : detailsPool J E R) (h' : hub J E R) :
  detailsInv playerIDs s -> workerMove handler (dshared s) h' ->
  detailsInv playerIDs (mkDetails h' (collectorG s) (ctxDone s)).
Proof.
  intros [Hhub Hopen Hjc Hcount] Hmove.
  destruct (move_frame _ _ _ Hmove) as (_ & Hjc' & Hrc' & _).
  split; simpl; rewrite ?Hjc', ?Hrc'; try done.
  by eapply hubInv_move.
Qed.

Lemma detailsInv_step (playerIDs : list J) (s s' : detailsPool J E R) :
  detailsInv playerIDs s -> dstep handler zeroValue playerIDs s s' ->
  collectorG s' = ReturnedCtxErr \/ detailsInv playerIDs s'.
Proof.
  intros Hinv [[| |i|i e|] Hexec]; simpl in Hexec.
  - right. destruct Hinv as [[Hjobs Hres Hcapj Hleft Hclosed] Hopen Hjc Hcount].
    unfold collectorStep in Hexec.
    destruct (collectorG s) as [[|job rest]|[|n] players|players|] eqn:Hc;
      simpl in *; try done.
    + unfold close in Hexec. rewrite Hjc in Hexec. injection Hexec as <-.
      split; simpl; try done. split; simpl; try done.
      intros w Hw Hafter. destruct (Hleft w Hw Hafter) as [Hcl _]. congruence.
    + unfold send in Hexec. rewrite Hjc in Hexec.
      destruct (length (buf (jobs (dshared s))) <? cap (jobs (dshared s)))%nat; [|done].
      injection Hexec as <-. split; simpl; try done. split; simpl; try done.
      * rewrite Hjobs. solve_Permutation.
      * intros w Hw Hafter. destruct (Hleft w Hw Hafter) as [Hcl _]. congruence.
    + injection Hexec as <-. split; simpl; try done.
    + unfold recv in Hexec. rewrite Hopen in Hexec.
      destruct (buf (results (dshared s))) as [|r rest] eqn:Hbuf; [done|].
      injection Hexec as <-. split; simpl; try done.
      * split; simpl; try done. rewrite Hres. solve_Permutation.
      * rewrite length_app. simpl. lia.
  - left. unfold collectorCtxStep in Hexec.
    destruct (collectorG s) as [|[|n] players| |]; try done.
    destruct (ctxDone s); [|done]. by injection Hexec as <-.
  - right. unfold detailsWorkerStep in Hexec.
    destruct (workers (dshared s) !! i) as [w|] eqn:Hi.
    + assert (Hshared : dwithShared s (workerStep i (dshared s)) = Next s' ->
                        detailsInv playerIDs s').
      { unfold dwithShared.
        destruct (workerStep i (dshared s)) as [h'| |] eqn:Hstep; try done.
        intros [= <-]. apply detailsInv_move; [done|]. by eapply workerStep_move. }
      destruct w as [|job|r| |]; try (by apply Hshared).
      injection Hexec as <-.
      apply workers_split in Hi as (l1 & l2 & Hws & Hins).
      apply detailsInv_move; [done|]. eapply EndsGoroutine; [done|]. by rewrite Hins.
    + unfold dwithShared, workerStep in Hexec. by rewrite Hi in Hexec.
  - right. unfold dwithShared in Hexec.
    destruct (respond handler i e (dshared s)) as [h'| |] eqn:Hstep; try done.
    injection Hexec as <-. apply detailsInv_move; [done|]. by eapply respond_move.
  - right. destruct (ctxDone s); [done|]. injection Hexec as <-.
    by destruct Hinv.
Qed.

(** Once the caller has returned it stays where it is. *)
Lemma collector_returned_stays (playerIDs : list J) (s s' : detailsPool J E R) :
  dstep handler zeroValue playerIDs s s' ->
  dreturned s = true -> collectorG s' = collectorG s.
Proof.
  intros [[| |i|i e|] Hexec] Hret; simpl in Hexec; unfold dreturned in Hret.
  - unfold collectorStep in Hexec.
    by destruct (collectorG s) as [[|job rest]|[|n] players|players|].
  - unfold collectorCtxStep in Hexec.
    by destruct (collectorG s) as [|[|n] players| |].
  - unfold detailsWorkerStep, dwithShared in Hexec.
    destruct (workers (dshared s) !! i) as [[|job|r| |]|];
      destruct (workerStep i (dshared s)); try done; by injection Hexec as <-.
  - unfold dwithShared in Hexec.
    destruct (respond handler i e (dshared s)); try done. by injection Hexec as <-.
  - destruct (ctxDone s); [done|]. by injection Hexec as <-.
Qed.

Lemma detailsInv_reachable (playerIDs : list J) (s : detailsPool J E R) :
  dreachable handler zeroValue playerIDs s ->
  collectorG s = ReturnedCtxErr \/ detailsInv playerIDs s.
Proof.
  unfold dreachable. intros Hreach.
  assert (Hstart : collectorG (startDetails playerIDs : detailsPool J E R) = ReturnedCtxErr
                   \/ detailsInv playerIDs (startDetails playerIDs))
    by (right; apply detailsInv_start).
  induction Hreach as [|s0 s1 s2 Hstep _ IH]; [done|].
  apply IH. destruct Hstart as [Herr|Hinv].
  - left. rewrite <- Herr. apply (collector_returned_stays _ _ _ Hstep).
    unfold dreturned. by rewrite Herr.
  - by eapply detailsInv_step.
Qed.

Lemma length_omap_le {A B : Type} (f : A -> option B) (l : list A) :
  length (omap f l) <= length l.
Proof.
  induction l as [|a l IH]; simpl; [done|].
  change (list_omap A B f l) with (omap f l). destruct (f a); simpl; lia.
Qed.

Lemma omap_full {A B : Type} (f : A -> option B) (l : list A) :
  length l <= length (omap f l) -> Forall (fun a => is_Some (f a)) l.
Proof.
  induction l as [|a l IH]; simpl; [constructor|].
  change (list_omap A B f l) with (omap f l).
  pose proof (length_omap_le f l) as Hle.
  destruct (f a) as [b|] eqn:Ha; simpl; intros Hlen.
  - constructor; [by rewrite Ha|]. apply IH. lia.
  - lia.
Qed.

(** The caller returns the players only after as many results as there
    are player IDs: then every ID has been fetched, and every fetch has
    produced its result. *)
Lemma returned_players_all_fetched (playerIDs : list J) (s : detailsPool J E R)
    (players : list R) :
  dreachable handler zeroValue playerIDs s ->
  collectorG s = ReturnedPlayers players ->
  length players = length playerIDs
  /\ (log (dshared s)).*1 ≡ₚ playerIDs
  /\ Forall (fun je => is_Some (handler je.1 je.2)) (log (dshared s)).
Proof.
  intros Hreach Hc. destruct (detailsInv_reachable _ _ Hreach) as [Herr|Hinv].
  { by rewrite Hc in Herr. }
  destruct Hinv as [[Hjobs Hres Hcapj Hleft Hclosed] Hopen Hjc Hcount].
  rewrite Hc in *. simpl in *.
  pose proof (length_produced handler (log (dshared s))) as Hprod.
  pose proof (Permutation_length Hjobs) as Hlj.
  pose proof (Permutation_length Hres) as Hlr.
  rewrite !length_app, length_fmap in Hlj. rewrite !length_app in Hlr.
  assert (Hfull : Forall (fun je => is_Some (handler je.1 je.2)) (log (dshared s))).
  { apply omap_full. unfold produced in Hlr. lia. }
  split; [done|]. split; [|done].
  assert (Hrun : omap runningJob (workers (dshared s)) = []).
  { apply nil_length_inv. lia. }
  assert (Hbuf : buf (jobs (dshared s)) = []).
  { apply nil_length_inv. lia. }
  rewrite Hrun, Hbuf in Hjobs. simpl in Hjobs. by rewrite app_nil_r in Hjobs.
Qed.

End DetailsFacts.

(** C6 (the code departs from the claim).  In
    [getPlayerDetailsWithWorkers] a failed fetch is dropped by the worker,
    but the caller still waits for one result per player ID: in no state
    of any run whose log holds a failed fetch has the call returned the
    players; it is still waiting, or it has returned [ctx.Err()] with no
    players at all. *)
Theorem details_failure_fails_batch (playerIDs : list string)
    (s : detailsPool string (option PlayerDetails) PlayerDetails) (playerID : string) :
  dreachable detailsHandler zeroPlayerDetails playerIDs s ->
  (playerID, None) ∈ log (dshared s) ->
  forall players, collectorG s <> ReturnedPlayers players.
Proof.
  intros Hreach Hfail players Hc.
  destruct (returned_players_all_fetched _ _ _ _ _ Hreach Hc) as (_ & _ & Hall).
  rewrite Forall_forall in Hall. specialize (Hall _ Hfail).
  by destruct Hall.
Qed.

(** *** A run with one failed fetch *)

Definition samplePlayerIDs : list string := ["p1"; "p2"].

Definition sampleDetails : PlayerDetails :=
  mkPlayerDetails "p1" "nick" "avatar.png" "SE" "76561198000000001"
    "https://www.faceit.com/{lang}/players/nick".

(** Both jobs are sent and taken; the fetch of [p1] succeeds, that of
    [p2] fails; the one result is sent and received; the workers leave. *)
Definition sampleDetailsSchedule : list (dactor (option PlayerDetails)) :=
  [DOwner; DOwner; DOwner; DWorker 0; DWorker 1;
   DRespond 0 (Some sampleDetails); DRespond 1 None;
   DWorker 0; DOwner;
   DWorker 0; DWorker 1; DWorker 2; DWorker 3; DWorker 4;
   DWorker 0; DWorker 1; DWorker 2; DWorker 3; DWorker 4].

Definition sampleStuck : detailsPool string (option PlayerDetails) PlayerDetails :=
  match drun detailsHandler zeroPlayerDetails samplePlayerIDs sampleDetailsSchedule
          (startDetails samplePlayerIDs) with
  | Next s => s
  | _ => startDetails samplePlayerIDs
  end.

Lemma drun_reachable {J E R : Type} (handler : J -> E -> option R) (zeroValue : R)
    (playerIDs : list J) (schedule : list (dactor E)) (s0 s : detailsPool J E R) :
  drun handler zeroValue playerIDs schedule s0 = Next s ->
  rtc (dstep handler zeroValue playerIDs) s0 s.
Proof.
  revert s0. induction schedule as [|a schedule IH]; intros s0; simpl.
  - by intros [= <-].
  - destruct (dexec handler zeroValue playerIDs a s0) as [s1| |] eqn:Hexec; try done.
    + intros Hrun. eapply rtc_l; [by exists a|]. by apply IH.
    + by apply IH.
Qed.

Lemma sampleStuck_reachable :
  dreachable detailsHandler zeroPlayerDetails samplePlayerIDs sampleStuck.
Proof. apply (drun_reachable _ _ _ sampleDetailsSchedule). vm_compute. reflexivity. Qed.

(** The caller holds the player that was fetched and waits for a second
    result that no worker is left to send: only the deadline of the
    context lets it return, and then with the error and no players. *)
Example details_failure_run :
  collectorG sampleStuck = Collecting 1 [sampleDetails]
  /\ allExited (workers (dshared sampleStuck))
  /\ buf (results (dshared sampleStuck)) = []
  /\ dexec detailsHandler zeroPlayerDetails samplePlayerIDs DOwner sampleStuck = Blocked
  /\ dexec detailsHandler zeroPlayerDetails samplePlayerIDs DOwnerCtx sampleStuck = Blocked
  /\ exists s, drun detailsHandler zeroPlayerDetails samplePlayerIDs [DDeadline; DOwnerCtx]
                 sampleStuck = Next s
               /\ collectorG s = ReturnedCtxErr.
Proof.
  split; [vm_compute; reflexivity|].
  split; [vm_compute; repeat constructor|].
  split; [vm_compute; reflexivity|].
  split; [vm_compute; reflexivity|].
  split; [vm_compute; reflexivity|].
  eexists. split; vm_compute; reflexivity.
Qed.

Lemma details_failure_fails_batch_witness :
  (forall players, collectorG sampleStuck <> ReturnedPlayers players)
  /\ ("p2", None) ∈ log (dshared sampleStuck).
Proof.
  assert (Hfail : ("p2", None) ∈ log (dshared sampleStuck)).
  { vm_compute. apply elem_of_cons. right. apply elem_of_cons. by left. }
  split; [|exact Hfail].
  exact (details_failure_fails_batch samplePlayerIDs sampleStuck "p2"
           sampleStuck_reachable Hfail).
Defined.

(** ** The three pool functions, end to end *)

(** Every match that comes out carries one of the submitted links, and
    two teams of five. *)
Lemma scrapeMatchesWithWorkers_shape (matchLinks : list string) (ms : list Match) (m : Match) :
  scrapeMatchesWithWorkers matchLinks (Ok ms) -> m ∈ ms ->
  MatchURL m ∈ matchLinks
  /\ length (Players (Teams m).1) = 5 /\ length (Players (Teams m).2) = 5
  /\ Won (Teams m).1 = true /\ Won (Teams m).2 = false.
Proof.
  intros (s & collected & Hreach & Ho & Hout) Hm. symmetry in Hout.
  assert (Hinv : poolInv matchesHandler matchLinks s).
  { apply (poolInv_reachable _ (length matchLinks * 10)); [lia|done]. }
  destruct (poolInv_finished _ _ _ _ Hinv Ho) as (Hlog & Hcol & _).
  split.
  - destruct (assembleMatches_url _ _ _ Hout Hm) as (d & Hd & ->).
    rewrite Hcol in Hd. unfold produced in Hd.
    apply list_elem_of_omap in Hd as ([job page] & Hin & Hh). simpl in Hh.
    rewrite (matchesHandler_url _ _ _ Hh), <- Hlog.
    apply list_elem_of_fmap. by exists (job, page).
  - clear -Hout Hm. unfold assembleMatches in Hout.
    assert (Hshape : forall allMatches matches,
              assembleLoop allMatches matches = Ok ms ->
              m ∈ matches \/ exists d, assembleMatch d = Ok (Some m)).
    { clear Hout. intros allMatches.
      induction allMatches as [|d rest IH]; intros matches; simpl.
      - intros [= <-]. by left.
      - destruct (assembleMatch d) as [[m0|]|] eqn:Hd; simpl; [| |done].
        + intros Hloop. destruct (IH _ Hloop) as [Hin|Hd']; [|by right].
          apply elem_of_app in Hin as [Hin|Hin%list_elem_of_singleton]; [by left|].
          subst m0. right. by exists d.
        + apply IH. }
    destruct (Hshape _ _ Hout) as [Hin|[d Hd]]; [by apply elem_of_nil in Hin|].
    destruct (assembleMatch_built _ _ Hd) as [Hlen ->]. simpl.
    rewrite !length_fmap, !length_take, length_drop. repeat split; lia.
Qed.

(** The links that come out are pairwise distinct. *)
Lemma scrapeMatchLinksWithWorkers_NoDup (playerURLs out : list string) :
  scrapeMatchLinksWithWorkers playerURLs out -> NoDup out.
Proof. intros (s & collected & _ & _ & ->). apply uniqueMatchLinks_NoDup. Qed.

(** When the player details come back there is one for each player ID. *)
Lemma getPlayerDetailsWithWorkers_complete (playerIDs : list string)
    (players : list PlayerDetails) :
  getPlayerDetailsWithWorkers playerIDs (inl players) ->
  length players = length playerIDs.
Proof.
  intros (s & Hreach & Hout).
  destruct (collectorG s) as [| |players'|] eqn:Hc; try done.
  injection Hout as <-.
  by destruct (returned_players_all_fetched _ _ _ _ _ Hreach Hc) as [Hlen _].
Qed.

(** * More of the package *)

(** ** Aggregation, as a whole *)

Section AggregationMore.

Variable ParseFloat : string -> option float.

Lemma matchIteration_decide (m : Match) :
  matchIteration ParseFloat m
  = if decide (allFieldsParse ParseFloat m) then Some (averagesOf ParseFloat m) else None.
Proof.
  case_decide as Hp.
  - by apply matchIteration_parses.
  - by apply matchIteration_skips.
Qed.

Lemma omap_filter_fmap {A B : Type} (P : A -> Prop) `{!forall a, Decision (P a)}
    (f : A -> option B) (g : A -> B) (l : list A) :
  (forall a, f a = if decide (P a) then Some (g a) else None) ->
  omap f l = g <$> filter P l.
Proof.
  intros Hf. induction l as [|a l IH]; [done|].
  rewrite filter_cons. cbn [omap list_omap]. rewrite Hf.
  change (list_omap A B f l) with (omap f l). rewrite IH.
  by case_decide.
Qed.

Lemma getAverageMatchStats_filter (matches : list Match) :
  getAverageMatchStats ParseFloat matches
  = averagesOf ParseFloat <$> filter (allFieldsParse ParseFloat) matches.
Proof.
  rewrite getAverageMatchStats_omap. apply omap_filter_fmap, matchIteration_decide.
Qed.

Lemma getAverageMatchStats_urls (matches : list Match) :
  AvgMatchURL <$> getAverageMatchStats ParseFloat matches
    `sublist_of` MatchURL <$> matches.
Proof.
  rewrite getAverageMatchStats_filter, <- list_fmap_compose.
  change (AvgMatchURL ∘ averagesOf ParseFloat) with MatchURL.
  apply fmap_sublist, sublist_filter.
Qed.

(** X1.  [getAverageMatchStats] returns, in the order of its input, the
    averages of exactly those matches whose required fields all parse:
    the records keep the input order, there is at most one per match,
    and the URLs of the output are a subsequence of those of the input. *)
Theorem aggregation_filters_in_order (matches : list Match) :
  getAverageMatchStats ParseFloat matches
    = averagesOf ParseFloat <$> filter (allFieldsParse ParseFloat) matches
  /\ AvgMatchURL <$> getAverageMatchStats ParseFloat matches
       `sublist_of` MatchURL <$> matches
  /\ length (getAverageMatchStats ParseFloat matches) <= length matches.
Proof.
  split; [apply getAverageMatchStats_filter|].
  split; [apply getAverageMatchStats_urls|].
  rewrite getAverageMatchStats_filter, length_fmap. apply length_filter.
Qed.

(** Two players with the same six rating fields (their names and ADR may
    differ). *)
Definition sameRatings (p q : PlayerStats) : Prop :=
  LeetifyRating p = LeetifyRating q
  /\ PersonalPerformance p = PersonalPerformance q
  /\ HLTVRating p = HLTVRating q
  /\ KD p = KD q
  /\ Aim p = Aim q
  /\ Utility p = Utility q.

(** Two matches with the same URL whose players have, position by
    position, the same six rating fields. *)
Definition sameRatedMatch (m m' : Match) : Prop :=
  MatchURL m = MatchURL m'
  /\ Forall2 sameRatings (Players (Teams m).1) (Players (Teams m').1)
  /\ Forall2 sameRatings (Players (Teams m).2) (Players (Teams m').2).

Lemma playerStep_sameRatings (acc : TeamSums) (p q : PlayerStats) :
  sameRatings p q -> playerStep ParseFloat acc p = playerStep ParseFloat acc q.
Proof.
  intros (H1 & H2 & H3 & H4 & H5 & H6). unfold playerStep.
  by rewrite H1, H2, H3, H4, H5, H6.
Qed.

Lemma teamLoop_sameRatings (ps qs : list PlayerStats) :
  Forall2 sameRatings ps qs ->
  forall acc, teamLoop ParseFloat ps acc = teamLoop ParseFloat qs acc.
Proof.
  induction 1 as [|p q ps qs Hpq _ IH]; intros acc; simpl; [done|].
  rewrite (playerStep_sameRatings _ _ _ Hpq).
  destruct (playerStep ParseFloat acc q) as [acc' skipMatch].
  destruct skipMatch; [done|]. apply IH.
Qed.

Lemma matchIteration_sameRated (m m' : Match) :
  sameRatedMatch m m' -> matchIteration ParseFloat m = matchIteration ParseFloat m'.
Proof.
  intros (Hurl & Hw & Hl). unfold matchIteration.
  by rewrite (teamLoop_sameRatings _ _ Hw), (teamLoop_sameRatings _ _ Hl), Hurl.
Qed.

(** X2.  The aggregation never reads a player's name or ADR, nor the
    [Won] flag of a team: matches that agree on their URL and, player by
    player, on the six rating fields give the same output, so a match
    with a missing or non-numeric ADR is kept like any other. *)
Theorem aggregation_ignores_name_and_adr (matches matches' : list Match) :
  Forall2 sameRatedMatch matches matches' ->
  getAverageMatchStats ParseFloat matches = getAverageMatchStats ParseFloat matches'.
Proof.
  intros Hsame. rewrite !getAverageMatchStats_omap.
  induction Hsame as [|m m' ms ms' Hm _ IH]; [done|].
  cbn [omap list_omap]. rewrite (matchIteration_sameRated _ _ Hm).
  change (list_omap _ _ (matchIteration ParseFloat) ms)
    with (omap (matchIteration ParseFloat) ms).
  change (list_omap _ _ (matchIteration ParseFloat) ms')
    with (omap (matchIteration ParseFloat) ms').
  by rewrite IH.
Qed.

End AggregationMore.

(** The sample match with other names, no ADR and the flags swapped. *)
Definition anonymousPlayer (p : PlayerStats) : PlayerStats :=
  mkPlayerStats "?" (LeetifyRating p) (PersonalPerformance p) (HLTVRating p)
    (KD p) "-" (Aim p) (Utility p).

Definition anonymousMatch (m : Match) : Match :=
  mkMatch (mkTeam (anonymousPlayer <$> Players (Teams m).1) false,
           mkTeam (anonymousPlayer <$> Players (Teams m).2) true)
    (MatchURL m).

Lemma aggregation_ignores_name_and_adr_witness :
  getAverageMatchStats sampleParseFloat [sampleMatch]
  = getAverageMatchStats sampleParseFloat [anonymousMatch sampleMatch].
Proof.
  apply aggregation_ignores_name_and_adr.
  repeat constructor.
Defined.

(** ** The assembly loop, as a whole *)

(** A table the assembly can take: it is dropped for having fewer than
    ten valid rows, or its first ten valid rows have eight cells each. *)
Definition tableOk (scraped : ScrapedMatchData) : Prop :=
  length (validRows (Data scraped)) < 10 \/ wideEnough scraped.

Definition enoughRows (scraped : ScrapedMatchData) : Prop :=
  10 <= length (validRows (Data scraped)).

Lemma assembleMatch_ok (scraped : ScrapedMatchData) :
  tableOk scraped ->
  assembleMatch scraped
  = Ok (if decide (enoughRows scraped) then Some (firstTenMatch scraped) else None).
Proof.
  unfold enoughRows. intros Hok. case_decide as Hlen.
  - destruct Hok as [Hfew|Hwide]; [lia|]. by apply assembleMatch_wide.
  - apply assembleMatch_few. lia.
Qed.

Lemma assembleLoop_ok (allMatches : list ScrapedMatchData) :
  Forall tableOk allMatches ->
  forall matches,
    assembleLoop allMatches matches
    = Ok (matches ++ (firstTenMatch <$> filter enoughRows allMatches)).
Proof.
  induction 1 as [|d rest Hd _ IH]; intros matches; simpl.
  - by rewrite app_nil_r.
  - rewrite (assembleMatch_ok _ Hd), filter_cons. simpl.
    rewrite IH. case_decide; [|done]. by rewrite <- app_assoc.
Qed.

Lemma assembleLoop_panics (allMatches : list ScrapedMatchData) :
  ~ Forall tableOk allMatches ->
  forall matches, shortRowPanic (assembleLoop allMatches matches).
Proof.
  induction allMatches as [|d rest IH]; intros Hno matches; simpl.
  - destruct Hno. constructor.
  - destruct (decide (tableOk d)) as [Hd|Hd].
    + rewrite (assembleMatch_ok _ Hd). simpl. apply IH.
      intros Hrest. apply Hno. by constructor.
    + unfold tableOk in Hd.
      destruct (assembleMatch_narrow d) as (i & Hi & ->); [lia|tauto|].
      by exists i.
Qed.

(** X3.  The assembly loop is all-or-panic.  If every scraped table is
    either short of ten valid rows or has eight cells in each of its
    first ten valid rows, the loop returns, in input order, the match of
    the first ten valid rows of each table that has ten.  If a single
    table has ten valid rows and a short row among the first ten, the
    loop panics (index out of range at the length of that row) and no
    match is returned at all, whatever the other tables hold. *)
Theorem assembly_loop_all_or_panic (allMatches : list ScrapedMatchData) :
  (Forall tableOk allMatches ->
     assembleMatches allMatches = Ok (firstTenMatch <$> filter enoughRows allMatches))
  /\ (~ Forall tableOk allMatches ->
        exists i, i < 8 /\ assembleMatches allMatches = IndexOutOfRange i i)
  /\ (forall ms, assembleMatches allMatches = Ok ms ->
        length ms <= length allMatches
        /\ MatchURL <$> ms `sublist_of` URL <$> allMatches).
Proof.
  split; [|split].
  - intros Hok. unfold assembleMatches. by rewrite assembleLoop_ok.
  - intros Hno. by apply assembleLoop_panics.
  - intros ms Hms.
    destruct (decide (Forall tableOk allMatches)) as [Hok|Hno].
    + unfold assembleMatches in Hms. rewrite assembleLoop_ok in Hms by done.
      injection Hms as <-. simpl. split.
      * rewrite length_fmap. apply length_filter.
      * rewrite <- list_fmap_compose.
        change (MatchURL ∘ firstTenMatch) with URL.
        apply fmap_sublist, sublist_filter.
    + destruct (assembleLoop_panics _ Hno []) as (i & _ & Hp).
      unfold assembleMatches in Hms. by rewrite Hms in Hp.
Qed.

(** A good table between a short one and a narrow one. *)
Definition fewRows : ScrapedMatchData :=
  mkScraped [wideRow "a"; []; wideRow "b"] "https://leetify.com/app/match-details/4".

Lemma tenNarrowRows_not_ok : ~ tableOk tenNarrowRows.
Proof.
  unfold tableOk, wideEnough. apply (bool_decide_unpack _). vm_compute. exact I.
Qed.

Lemma assembly_loop_all_or_panic_witness :
  assembleMatches [fewRows; thirteenRows] = Ok [firstTenMatch thirteenRows]
  /\ exists i, i < 8
       /\ assembleMatches [fewRows; thirteenRows; tenNarrowRows] = IndexOutOfRange i i.
Proof.
  split.
  - apply (proj1 (assembly_loop_all_or_panic [fewRows; thirteenRows])).
    apply Forall_cons. split; [left; vm_compute; lia|].
    apply Forall_cons. split; [right; exact thirteenRows_wide|]. by apply Forall_nil.
  - apply (proj1 (proj2 (assembly_loop_all_or_panic [fewRows; thirteenRows; tenNarrowRows]))).
    intros Hok. apply Forall_cons in Hok as [_ Hok]. apply Forall_cons in Hok as [_ Hok].
    apply Forall_cons in Hok as [Hbad _].
    by apply tenNarrowRows_not_ok.
Defined.

(** ** The assembly of the earlier version *)

(** The earlier [Match] has no URL: it is the array of its two teams. *)
Definition MatchV1 : Type := Team * Team.

(** One iteration of the loop over [allMatches] in the earlier
    [scrapeMatchesWithWorkers]: the same loops, then the guard
    [len(winPlayers) < 5 || len(losePlayers) < 5], whose [continue] is
    again [Ok None]. *)
Definition assembleMatchV1 (matchRow : list (list string)) : result (option MatchV1) :=
  let nonEmptyRows := validRows matchRow in
  if (length nonEmptyRows <? 10)%nat then Ok None
  else
    players <-! playersLoop 0 (take 10 nonEmptyRows) [] [];
    let '(winPlayers, losePlayers) := players in
    if ((length winPlayers <? 5)%nat || (length losePlayers <? 5)%nat)%bool then Ok None
    else Ok (Some (mkTeam winPlayers true, mkTeam losePlayers false)).

Definition mapResult {A B : Type} (f : A -> B) (r : result A) : result B :=
  match r with
  | Ok a => Ok (f a)
  | IndexOutOfRange i len => IndexOutOfRange i len
  end.

(** X4.  The team-size guard of the earlier assembly is dead code: on
    every table the earlier loop body does what the later one does (up
    to the URL the later [Match] carries), so it skips a table only for
    having fewer than ten valid rows, never for a team of fewer than
    five. *)
Theorem team_size_guard_is_dead (matchRow : list (list string)) (url : string) :
  assembleMatchV1 matchRow
    = mapResult (fmap (M := option) Teams) (assembleMatch (mkScraped matchRow url))
  /\ (assembleMatchV1 matchRow = Ok None <-> length (validRows matchRow) < 10).
Proof.
  assert (Heq : assembleMatchV1 matchRow
                = mapResult (fmap (M := option) Teams)
                    (assembleMatch (mkScraped matchRow url))).
  { unfold assembleMatchV1, assembleMatch. simpl.
    destruct (Nat.ltb_spec (length (validRows matchRow)) 10) as [Hlen|Hlen]; [done|].
    destruct (decide (Forall (fun row : list string => 8 <= length row)
                        (take 10 (validRows matchRow)))) as [Hwide|Hwide].
    - rewrite (playersLoop_wide _ _ _ _ Hwide). simpl.
      repeat match goal with
             | |- context [(?a <? 5)%nat] =>
               destruct (Nat.ltb_spec a 5) as [Hlt|_];
               [exfalso; revert Hlt;
                rewrite ?length_fmap, ?length_take, ?length_drop, ?length_take; lia|]
             end.
      done.
    - destruct (playersLoop_narrow _ 0 [] [] Hwide) as (i & _ & ->). done. }
  split; [done|]. rewrite Heq. split.
  - intros Hnone.
    destruct (decide (length (validRows matchRow) < 10)) as [|Hlen]; [done|].
    exfalso.
    destruct (decide (wideEnough (mkScraped matchRow url))) as [Hwide|Hwide].
    + rewrite assembleMatch_wide in Hnone by (done || (simpl; lia)). done.
    + destruct (assembleMatch_narrow (mkScraped matchRow url)) as (i & _ & Hp);
        [simpl; lia|done|].
      rewrite Hp in Hnone. done.
  - intros Hlen. by rewrite (assembleMatch_few (mkScraped matchRow url)).
Qed.

(** ** Deduplication, further *)

Lemma uniqueMatchLinks_NoDup_id (matchLinks : list string) :
  NoDup matchLinks -> uniqueMatchLinks matchLinks = matchLinks.
Proof.
  induction matchLinks as [|link matchLinks IH] using rev_ind; [done|].
  intros Hnd. apply NoDup_app in Hnd as (Hnd & Hfresh & _).
  rewrite uniqueMatchLinks_snoc, (IH Hnd).
  rewrite decide_False; [done|].
  intros Hin. apply (Hfresh link Hin). by apply list_elem_of_singleton.
Qed.

Lemma uniqueMatchLinks_prefix (matchLinks more : list string) :
  uniqueMatchLinks matchLinks `prefix_of` uniqueMatchLinks (matchLinks ++ more).
Proof.
  induction more as [|link more IH] using rev_ind.
  - by rewrite app_nil_r.
  - rewrite app_assoc, uniqueMatchLinks_snoc. case_decide; [done|].
    by apply prefix_app_r.
Qed.

Lemma uniqueMatchLinks_length (matchLinks : list string) :
  length (uniqueMatchLinks matchLinks) <= length matchLinks.
Proof. apply sublist_length, uniqueMatchLinks_sublist. Qed.

(** X5.  Deduplication is stable.  It leaves a list without repetitions
    as it is, so doing it twice changes nothing; and links gathered later
    never reorder or remove what the earlier ones gave: the result for a
    list is a prefix of the result for any extension of it. *)
Theorem dedup_stable (matchLinks more : list string) :
  (NoDup matchLinks -> uniqueMatchLinks matchLinks = matchLinks)
  /\ uniqueMatchLinks (uniqueMatchLinks matchLinks) = uniqueMatchLinks matchLinks
  /\ uniqueMatchLinks matchLinks `prefix_of` uniqueMatchLinks (matchLinks ++ more)
  /\ length (uniqueMatchLinks matchLinks) <= length matchLinks.
Proof.
  split; [apply uniqueMatchLinks_NoDup_id|].
  split; [apply uniqueMatchLinks_NoDup_id, uniqueMatchLinks_NoDup|].
  split; [apply uniqueMatchLinks_prefix|apply uniqueMatchLinks_length].
Qed.

(** ** The two scraping stages, end to end *)

Lemma length_mjoin_le {A : Type} (n : nat) (ls : list (list A)) :
  Forall (fun l => length l <= n) ls -> length (mjoin ls) <= n * length ls.
Proof.
  induction 1 as [|l ls Hl _ IH]; simpl; [lia|].
  rewrite length_app. lia.
Qed.

Lemma linksHandler_produced (l : list (string * option (list string))) (links : list string) :
  links ∈ produced linksHandler l <-> exists url, (url, Some links) ∈ l.
Proof.
  unfold produced, linksHandler. rewrite list_elem_of_omap. split.
  - intros ([url page] & Hin & Hpage). simpl in Hpage. subst page. by exists url.
  - intros [url Hin]. by exists (url, Some links).
Qed.

(** X6.  What [scrapeMatchLinksWithWorkers] returns at the end of a run:
    a list without repetitions that holds exactly the links found on
    the profile pages that loaded (a page that failed to load gives
    none), every submitted profile having been loaded once.  If no page
    gives more than 5 links, there are at most 5 links per profile. *)
Theorem links_stage_end_to_end (playerURLs : list string)
    (s : pool string (option (list string)) (list string))
    (collected : list (list string)) :
  reachable linksHandler (startLinksPool playerURLs) s ->
  ownerG s = Finished collected ->
  NoDup (uniqueMatchLinks (gatherLinks collected))
  /\ (forall x, x ∈ uniqueMatchLinks (gatherLinks collected) <->
        exists url links, (url, Some links) ∈ log (shared s) /\ x ∈ links)
  /\ (log (shared s)).*1 ≡ₚ playerURLs
  /\ (Forall (fun je => forall links, je.2 = Some links -> length links <= 5)
        (log (shared s)) ->
      length (uniqueMatchLinks (gatherLinks collected)) <= 5 * length playerURLs).
Proof.
  intros Hreach Ho.
  assert (Hinv : poolInv linksHandler playerURLs s).
  { by apply (poolInv_reachable _ (length playerURLs)). }
  destruct (poolInv_finished _ _ _ _ Hinv Ho) as (Hlog & Hcol & _).
  split; [apply uniqueMatchLinks_NoDup|]. split; [|split; [done|]].
  - intros x. rewrite uniqueMatchLinks_elem, gatherLinks_concat, list_elem_of_join.
    split.
    + intros (links & Hx & Hin). rewrite Hcol in Hin.
      apply linksHandler_produced in Hin as [url Hin]. by exists url, links.
    + intros (url & links & Hin & Hx). exists links. split; [done|].
      rewrite Hcol. apply linksHandler_produced. by exists url.
  - intros Hfive.
    etrans; [apply uniqueMatchLinks_length|].
    rewrite gatherLinks_concat.
    etrans; [apply (length_mjoin_le 5)|].
    + rewrite Hcol. apply Forall_forall. intros links Hin.
      apply linksHandler_produced in Hin as [url Hin].
      rewrite Forall_forall in Hfive. by apply (Hfive _ Hin).
    + rewrite Hcol. pose proof (length_produced linksHandler (log (shared s))) as Hle.
      apply Permutation_length in Hlog. rewrite length_fmap in Hlog. lia.
Qed.

(** A run of the link pool: two profiles, both load, one link shared. *)
Definition sampleProfiles : list string := ["u1"; "u2"].

Definition sampleLinksSchedule : list (actor (option (list string))) :=
  [OwnerG; OwnerG; OwnerG; OwnerG;
   WorkerG 0; WorkerG 1;
   Respond 1 (Some ["m2"; "m3"]); Respond 0 (Some ["m1"; "m2"]);
   WorkerG 1; WorkerG 0; OwnerG; OwnerG;
   WorkerG 0; WorkerG 1; WorkerG 2; WorkerG 3; WorkerG 4;
   WorkerG 0; WorkerG 1; WorkerG 2; WorkerG 3; WorkerG 4;
   CloserG; CloserG; OwnerG].

Definition sampleLinksEnd : pool string (option (list string)) (list string) :=
  match run linksHandler sampleLinksSchedule (startLinksPool sampleProfiles) with
  | Next s => s
  | _ => startLinksPool sampleProfiles
  end.

Lemma sampleLinksEnd_reachable :
  reachable linksHandler (startLinksPool sampleProfiles) sampleLinksEnd.
Proof. apply (run_reachable _ sampleLinksSchedule). vm_compute. reflexivity. Qed.

Lemma sampleLinksEnd_finished :
  ownerG sampleLinksEnd = Finished [["m2"; "m3"]; ["m1"; "m2"]].
Proof. vm_compute. reflexivity. Qed.

Lemma links_stage_end_to_end_witness :
  NoDup (uniqueMatchLinks (gatherLinks [["m2"; "m3"]; ["m1"; "m2"]]))
  /\ uniqueMatchLinks (gatherLinks [["m2"; "m3"]; ["m1"; "m2"]]) = ["m2"; "m3"; "m1"].
Proof.
  split; [|vm_compute; reflexivity].
  exact (proj1 (links_stage_end_to_end sampleProfiles sampleLinksEnd _
                  sampleLinksEnd_reachable sampleLinksEnd_finished)).
Defined.

Lemma produced_urls_sublist (l : list (string * matchPage)) :
  URL <$> produced matchesHandler l `sublist_of` l.*1.
Proof.
  induction l as [|[job page] l IH]; [done|].
  unfold produced in *. cbn [omap list_omap fmap list_fmap].
  change (list_omap _ _ ?f l) with (omap f l).
  destruct (matchesHandler job page) as [d|] eqn:Hd; simpl; rewrite Hd; simpl.
  - rewrite (matchesHandler_url _ _ _ Hd). by apply sublist_skip.
  - by apply sublist_cons.
Qed.

Lemma assembleMatches_urls (allMatches : list ScrapedMatchData) (ms : list Match) :
  assembleMatches allMatches = Ok ms ->
  MatchURL <$> ms `sublist_of` URL <$> allMatches.
Proof.
  intros Hms. destruct (decide (Forall tableOk allMatches)) as [Hok|Hno].
  - unfold assembleMatches in Hms. rewrite assembleLoop_ok in Hms by done.
    injection Hms as <-. simpl. rewrite <- list_fmap_compose.
    change (MatchURL ∘ firstTenMatch) with URL.
    apply fmap_sublist, sublist_filter.
  - destruct (assembleLoop_panics _ Hno []) as (i & _ & Hp).
    unfold assembleMatches in Hms. by rewrite Hms in Hp.
Qed.

Lemma assembleMatches_teams (allMatches : list ScrapedMatchData) (ms : list Match) (m : Match) :
  assembleMatches allMatches = Ok ms -> m ∈ ms ->
  length (Players (Teams m).1) = 5 /\ length (Players (Teams m).2) = 5
  /\ Won (Teams m).1 = true /\ Won (Teams m).2 = false.
Proof.
  intros Hms Hm. destruct (decide (Forall tableOk allMatches)) as [Hok|Hno].
  - unfold assembleMatches in Hms. rewrite assembleLoop_ok in Hms by done.
    injection Hms as <-. simpl in Hm.
    apply list_elem_of_fmap in Hm as (d & -> & Hd).
    apply list_elem_of_filter in Hd as [Hlen _]. unfold enoughRows in Hlen. simpl.
    rewrite !length_fmap, !length_take, length_drop. repeat split; lia.
  - destruct (assembleLoop_panics _ Hno []) as (i & _ & Hp).
    unfold assembleMatches in Hms. by rewrite Hms in Hp.
Qed.

(** The matches a finished run gives carry links that were submitted,
    none more often than it was submitted. *)
Lemma finished_matches_urls (matchLinks : list string)
    (s : pool string matchPage ScrapedMatchData)
    (collected : list ScrapedMatchData) (ms : list Match) :
  reachable matchesHandler (startMatchesPool matchLinks) s ->
  ownerG s = Finished collected ->
  assembleMatches collected = Ok ms ->
  MatchURL <$> ms ⊆+ matchLinks.
Proof.
  intros Hreach Ho Hms.
  assert (Hinv : poolInv matchesHandler matchLinks s).
  { apply (poolInv_reachable _ (length matchLinks * 10)); [lia|done]. }
  destruct (poolInv_finished _ _ _ _ Hinv Ho) as (Hlog & Hcol & _).
  etrans; [apply sublist_submseteq, (assembleMatches_urls _ _ Hms)|].
  rewrite Hcol, <- Hlog. apply sublist_submseteq, produced_urls_sublist.
Qed.

Lemma submseteq_NoDup {A : Type} (l k : list A) : l ⊆+ k -> NoDup k -> NoDup l.
Proof.
  intros Hsub Hnd. destruct (submseteq_Permutation _ _ Hsub) as [k' Hk].
  rewrite Hk in Hnd. by apply NoDup_app in Hnd as [? _].
Qed.

(** X7.  Deduplicated links give each match once.  In a finished run of
    [scrapeMatchesWithWorkers] on pairwise distinct links, if the assembly
    returns, then the matches returned have pairwise distinct URLs, each
    one of the submitted links, each match has two teams of five (the
    first marked as the winner), there are at most as many matches as
    links, and the records [getAverageMatchStats] computes from them have
    pairwise distinct URLs too. *)
Theorem matches_stage_no_repeats (matchLinks : list string)
    (s : pool string matchPage ScrapedMatchData)
    (collected : list ScrapedMatchData) (ms : list Match) :
  reachable matchesHandler (startMatchesPool matchLinks) s ->
  ownerG s = Finished collected ->
  NoDup matchLinks ->
  assembleMatches collected = Ok ms ->
  NoDup (MatchURL <$> ms)
  /\ (forall m, m ∈ ms ->
        MatchURL m ∈ matchLinks
        /\ length (Players (Teams m).1) = 5 /\ length (Players (Teams m).2) = 5
        /\ Won (Teams m).1 = true /\ Won (Teams m).2 = false)
  /\ length ms <= length matchLinks
  /\ (forall ParseFloat, NoDup (AvgMatchURL <$> getAverageMatchStats ParseFloat ms)).
Proof.
  intros Hreach Ho Hnd Hms.
  pose proof (finished_matches_urls _ _ _ _ Hreach Ho Hms) as Hsub.
  pose proof (submseteq_NoDup _ _ Hsub Hnd) as Hunique.
  split; [done|]. split; [|split].
  - intros m Hm. split; [|by apply (assembleMatches_teams collected ms)].
    apply (elem_of_submseteq (MatchURL <$> ms)); [|done].
    apply list_elem_of_fmap. by exists m.
  - apply submseteq_length in Hsub. by rewrite length_fmap in Hsub.
  - intros ParseFloat. eapply sublist_NoDup; [exact Hunique|].
    apply getAverageMatchStats_urls.
Qed.

Lemma sampleLinks_NoDup : NoDup sampleLinks.
Proof. apply (bool_decide_unpack _). vm_compute. exact I. Qed.

Lemma matches_stage_no_repeats_witness :
  NoDup (MatchURL <$> [firstTenMatch (mkScraped (Data thirteenRows) "m1")])
  /\ assembleMatches sampleCollected
     = Ok [firstTenMatch (mkScraped (Data thirteenRows) "m1")].
Proof.
  assert (Hms : assembleMatches sampleCollected
                = Ok [firstTenMatch (mkScraped (Data thirteenRows) "m1")])
    by (vm_compute; reflexivity).
  split; [|exact Hms].
  exact (proj1 (matches_stage_no_repeats sampleLinks sampleEnd sampleCollected _
                  sampleEnd_reachable sampleEnd_finished sampleLinks_NoDup Hms)).
Defined.

(** ** [getPlayerDetailsWithWorkers], further *)

Section DetailsMore.

Context {J E R : Type}.
Variable handler : J -> E -> option R.
Variable zeroValue : R.

(** The two facts the first invariant leaves out: there are always five
    workers, and the caller returns the context error only once the
    context is done. *)
Lemma dstep_frame (playerIDs : list J) (s s' : detailsPool J E R) :
  dstep handler zeroValue playerIDs s s' ->
  length (workers (dshared s')) = length (workers (dshared s))
  /\ cap (results (dshared s')) = cap (results (dshared s))
  /\ (collectorG s' = ReturnedCtxErr ->
      collectorG s = ReturnedCtxErr
      \/ ctxDone s' = true /\ exists n players, collectorG s = Collecting (S n) players)
  /\ (ctxDone s = true -> ctxDone s' = true).
Proof.
  intros [[| |i|i e|] Hexec]; simpl in Hexec.
  - unfold collectorStep in Hexec.
    destruct (collectorG s) as [[|job rest]|[|n] players|players|] eqn:Hc; try done.
    + unfold close in Hexec. destruct (closed (jobs (dshared s))); [done|].
      by injection Hexec as <-.
    + unfold send in Hexec. destruct (closed (jobs (dshared s))); [done|].
      destruct (length (buf (jobs (dshared s))) <? cap (jobs (dshared s)))%nat; [|done].
      by injection Hexec as <-.
    + by injection Hexec as <-.
    + unfold recv in Hexec. destruct (buf (results (dshared s))).
      * destruct (closed (results (dshared s))); [|done]. by injection Hexec as <-.
      * by injection Hexec as <-.
  - unfold collectorCtxStep in Hexec.
    destruct (collectorG s) as [|[|n] players| |]; try done.
    destruct (ctxDone s); [|done]. injection Hexec as <-. simpl.
    split; [done|]. split; [done|]. split; [|done]. intros _. right. eauto.
  - unfold detailsWorkerStep in Hexec.
    destruct (workers (dshared s) !! i) as [w|] eqn:Hi.
    + assert (Hshared : dwithShared s (workerStep i (dshared s)) = Next s' ->
                length (workers (dshared s')) = length (workers (dshared s))
                /\ cap (results (dshared s')) = cap (results (dshared s))
                /\ (collectorG s' = ReturnedCtxErr ->
                    collectorG s = ReturnedCtxErr
                    \/ ctxDone s' = true
                       /\ exists n players, collectorG s = Collecting (S n) players)
                /\ (ctxDone s = true -> ctxDone s' = true)).
      { unfold dwithShared.
        destruct (workerStep i (dshared s)) as [h'| |] eqn:Hstep; try done.
        intros [= <-]. simpl.
        apply (workerStep_move handler), move_frame in Hstep as (Hcap & _ & _ & Hlen).
        tauto. }
      destruct w as [|job|r| |]; try (by apply Hshared).
      injection Hexec as <-. simpl. rewrite length_insert. tauto.
    + unfold dwithShared, workerStep in Hexec. by rewrite Hi in Hexec.
  - unfold dwithShared in Hexec.
    destruct (respond handler i e (dshared s)) as [h'| |] eqn:Hstep; try done.
    injection Hexec as <-. simpl.
    apply respond_move, move_frame in Hstep as (Hcap & _ & _ & Hlen). tauto.
  - destruct (ctxDone s); [done|]. injection Hexec as <-. simpl. tauto.
Qed.

Lemma dreachable_frame (playerIDs : list J) (s : detailsPool J E R) :
  dreachable handler zeroValue playerIDs s ->
  length (workers (dshared s)) = numWorkers
  /\ cap (results (dshared s)) = length playerIDs
  /\ (collectorG s = ReturnedCtxErr -> ctxDone s = true /\ playerIDs <> []).
Proof.
  unfold dreachable. intros Hreach. pattern s. revert s Hreach.
  apply rtc_ind_r; [done|].
  intros s s' Hreach Hstep (Hlen & Hcap & Hctx).
  destruct (dstep_frame _ _ _ Hstep) as (Hlen' & Hcap' & Herr & Hdone).
  split; [congruence|]. split; [congruence|]. intros Hc.
  destruct (Herr Hc) as [Hold|(Hnow & n & players & Hcoll)].
  { destruct (Hctx Hold). split; [by apply Hdone|done]. }
  split; [done|].
  destruct (detailsInv_reachable _ _ _ _ Hreach) as [Hbad|Hinv].
  { by rewrite Hcoll in Hbad. }
  destruct Hinv as [_ _ _ Hcount]. rewrite Hcoll in Hcount.
  intros ->. simpl in Hcount. lia.
Qed.

(** When the caller holds [players] at its return, they are the results
    of the fetches, and nothing is left in the pool. *)
Lemma returned_players_are_results (playerIDs : list J) (s : detailsPool J E R)
    (players : list R) :
  dreachable handler zeroValue playerIDs s ->
  collectorG s = ReturnedPlayers players ->
  players ≡ₚ produced handler (log (dshared s)).
Proof.
  intros Hreach Hc. destruct (detailsInv_reachable _ _ _ _ Hreach) as [Herr|Hinv].
  { by rewrite Hc in Herr. }
  destruct Hinv as [[Hjobs Hres Hcapj Hleft Hclosed] Hopen Hjc Hcount].
  rewrite Hc in *. simpl in *.
  pose proof (length_produced handler (log (dshared s))) as Hprod.
  pose proof (Permutation_length Hjobs) as Hlj.
  pose proof (Permutation_length Hres) as Hlr.
  rewrite !length_app, length_fmap in Hlj. rewrite !length_app in Hlr.
  assert (Hbuf : buf (results (dshared s)) = []) by (apply nil_length_inv; lia).
  assert (Hsend : omap sendingResult (workers (dshared s)) = [])
    by (apply nil_length_inv; lia).
  rewrite Hbuf, Hsend in Hres. simpl in Hres. by rewrite app_nil_r in Hres.
Qed.

(** X8.  [getPlayerDetailsWithWorkers] cannot hang while no fetch has
    failed.  In every state of a run in which each fetch made so far has
    succeeded and the caller has not returned, the caller can take its
    next step, or a worker can, or a worker is inside a fetch that every
    response lets it finish: the deadline of the context is never the
    only way out. *)
Theorem details_progress (playerIDs : list J) (s : detailsPool J E R) :
  dreachable handler zeroValue playerIDs s ->
  Forall (fun je => is_Some (handler je.1 je.2)) (log (dshared s)) ->
  dreturned s = false ->
  (exists s', dexec handler zeroValue playerIDs DOwner s = Next s')
  \/ (exists i s', dexec handler zeroValue playerIDs (DWorker i) s = Next s')
  \/ (exists i, forall e, exists s',
        dexec handler zeroValue playerIDs (DRespond i e) s = Next s').
Proof.
  intros Hreach Hall Hret.
  destruct (dreachable_frame _ _ Hreach) as (Hfive & Hrcap & _).
  destruct (detailsInv_reachable _ _ _ _ Hreach) as [Herr|Hinv].
  { unfold dreturned in Hret. by rewrite Herr in Hret. }
  destruct Hinv as [[Hjobs Hres Hcapj Hleft Hclosed] Hopen Hjc Hcount].
  unfold dreturned in Hret. simpl.
  pose proof (Permutation_length Hjobs) as Hlj.
  pose proof (Permutation_length Hres) as Hlr.
  rewrite !length_app, length_fmap in Hlj. rewrite !length_app in Hlr.
  destruct (collectorG s) as [[|job rest]|[|n] players|players|] eqn:Hc;
    simpl in *; try done.
  - left. unfold collectorStep, close. rewrite Hc, Hjc. by eexists.
  - left. unfold collectorStep, send. rewrite Hc, Hjc.
    destruct (Nat.ltb_spec (length (buf (jobs (dshared s)))) (cap (jobs (dshared s))));
      [by eexists|lia].
  - left. unfold collectorStep. rewrite Hc. by eexists.
  - destruct (buf (results (dshared s))) as [|r rest] eqn:Hbuf.
    2:{ left. unfold collectorStep, recv. rewrite Hc, Hbuf. by eexists. }
    (* every logged fetch has produced: one job is still on its way *)
    assert (Hfull : length (produced handler (log (dshared s))) = length (log (dshared s))).
    { clear -Hall. induction Hall as [|[job e] l [r Hr] _ IH]; [done|].
      unfold produced in *. cbn [omap list_omap]. simpl in Hr. simpl. rewrite Hr.
      simpl. change (list_omap _ _ ?f l) with (omap f l). by rewrite IH. }
    simpl in Hlr.
    destruct (workers (dshared s)) as [|w0 ws0] eqn:Hws; [done|]. rewrite <- Hws in *.
    assert (Hpick : exists l1 w l2, workers (dshared s) = l1 ++ w :: l2
                      /\ afterLoop w = false).
    { destruct (decide (Forall (fun w => afterLoop w = true) (workers (dshared s))))
        as [Hgone|Hsome].
      - exfalso.
        assert (Hidle : omap runningJob (workers (dshared s)) = []
                        /\ omap sendingResult (workers (dshared s)) = []).
        { clear -Hgone. induction Hgone as [|w ws Hw _ [IH1 IH2]]; [done|].
          destruct w; try done. }
        destruct Hidle as [Hrun Hsend].
        assert (Hempty : buf (jobs (dshared s)) = []).
        { apply (Hleft w0); [rewrite Hws; by left|].
          rewrite Hws in Hgone. by apply Forall_cons in Hgone as [? _]. }
        rewrite Hrun, Hempty in Hlj. rewrite Hsend in Hlr. simpl in *. lia.
      - apply not_Forall_Exists in Hsome; [|apply _].
        apply Exists_exists in Hsome as (w & Hw & Hnot).
        apply list_elem_of_split in Hw as (l1 & l2 & ->).
        exists l1, w, l2. split; [done|]. simpl in Hnot. by destruct (afterLoop w). }
    destruct Hpick as (l1 & w & l2 & Hsplit & Hw).
    destruct (lookup_middle_insert l1 l2 w w) as [Hi _]. rewrite <- Hsplit in Hi.
    destruct w as [|job|r| |]; try done.
    + right. left. exists (length l1). unfold detailsWorkerStep, dwithShared, workerStep, recv.
      rewrite Hi. destruct (buf (jobs (dshared s))); [|by eexists].
      rewrite Hjc. by eexists.
    + right. right. exists (length l1). intros e.
      unfold dwithShared, respond. rewrite Hi. by eexists.
    + right. left. exists (length l1).
      unfold detailsWorkerStep, dwithShared, workerStep, send. rewrite Hi, Hopen, Hbuf.
      simpl. rewrite Hrcap.
      assert (Hone : 0 < length playerIDs).
      { rewrite Hsplit, omap_app in Hlr. simpl in Hlr. rewrite length_app in Hlr.
        simpl in Hlr. pose proof (length_produced handler (log (dshared s))). lia. }
      destruct (Nat.ltb_spec 0 (length playerIDs)); [by eexists|lia].
Qed.

(** X9.  What [getPlayerDetailsWithWorkers] hands back.  When it returns
    the players they are, up to order, the results of the fetches; each
    player ID was fetched exactly once and every fetch succeeded; no
    result is left in the channel or in a worker.  When it returns the
    error of the context, the context is done and there was a player ID
    to wait for: with no player IDs the call never fails. *)
Theorem details_return_complete (playerIDs : list J) (s : detailsPool J E R) :
  dreachable handler zeroValue playerIDs s ->
  (forall players, collectorG s = ReturnedPlayers players ->
     players ≡ₚ produced handler (log (dshared s))
     /\ (log (dshared s)).*1 ≡ₚ playerIDs
     /\ Forall (fun je => is_Some (handler je.1 je.2)) (log (dshared s))
     /\ buf (results (dshared s)) = []
     /\ omap sendingResult (workers (dshared s)) = []
     /\ omap runningJob (workers (dshared s)) = [])
  /\ (collectorG s = ReturnedCtxErr -> ctxDone s = true /\ playerIDs <> []).
Proof.
  intros Hreach. split; [|by apply dreachable_frame].
  intros players Hc.
  pose proof (returned_players_are_results _ _ _ Hreach Hc) as Hplayers.
  destruct (returned_players_all_fetched _ _ _ _ _ Hreach Hc) as (Hlen & Hids & Hall).
  split; [done|]. split; [done|]. split; [done|].
  destruct (detailsInv_reachable _ _ _ _ Hreach) as [Herr|Hinv].
  { by rewrite Hc in Herr. }
  destruct Hinv as [[Hjobs Hres _ _ _] _ _ _].
  rewrite Hc in *. simpl in *.
  pose proof (length_produced handler (log (dshared s))) as Hprod.
  pose proof (Permutation_length Hjobs) as Hlj.
  pose proof (Permutation_length Hres) as Hlr.
  pose proof (Permutation_length Hids) as Hli.
  rewrite !length_app, length_fmap in Hlj. rewrite !length_app in Hlr.
  rewrite length_fmap in Hli.
  split; [apply nil_length_inv; lia|]. split; apply nil_length_inv; lia.
Qed.

End DetailsMore.

(** *** A run in which both fetches succeed *)

Definition sampleDetails2 : PlayerDetails :=
  mkPlayerDetails "p2" "other" "other.png" "DK" "76561198000000002"
    "https://www.faceit.com/{lang}/players/other".

(** As in the run above, but the fetch of [p2] succeeds too and is the
    first to be sent; the caller receives both and returns. *)
Definition sampleDetailsOkSchedule : list (dactor (option PlayerDetails)) :=
  [DOwner; DOwner; DOwner; DWorker 0; DWorker 1;
   DRespond 0 (Some sampleDetails); DRespond 1 (Some sampleDetails2);
   DWorker 1; DWorker 0; DOwner; DOwner; DOwner].

Definition sampleReturned : detailsPool string (option PlayerDetails) PlayerDetails :=
  match drun detailsHandler zeroPlayerDetails samplePlayerIDs sampleDetailsOkSchedule
          (startDetails samplePlayerIDs) with
  | Next s => s
  | _ => startDetails samplePlayerIDs
  end.

Lemma sampleReturned_reachable :
  dreachable detailsHandler zeroPlayerDetails samplePlayerIDs sampleReturned.
Proof. apply (drun_reachable _ _ _ sampleDetailsOkSchedule). vm_compute. reflexivity. Qed.

Lemma details_return_complete_witness :
  dreachable detailsHandler zeroPlayerDetails samplePlayerIDs sampleReturned
  /\ collectorG sampleReturned = ReturnedPlayers [sampleDetails2; sampleDetails]
  /\ [sampleDetails2; sampleDetails]
     ≡ₚ produced detailsHandler (log (dshared sampleReturned))
  /\ (log (dshared sampleReturned)).*1 ≡ₚ samplePlayerIDs.
Proof.
  assert (Hc : collectorG sampleReturned = ReturnedPlayers [sampleDetails2; sampleDetails])
    by (vm_compute; reflexivity).
  split; [exact sampleReturned_reachable|]. split; [exact Hc|].
  destruct (details_return_complete detailsHandler zeroPlayerDetails samplePlayerIDs
              sampleReturned sampleReturned_reachable) as [Hplayers _].
  destruct (Hplayers _ Hc) as (Hres & Hids & _). by split.
Defined.

(** The state of that run in which both workers are inside their fetch. *)
Definition sampleFetching : detailsPool string (option PlayerDetails) PlayerDetails :=
  match drun detailsHandler zeroPlayerDetails samplePlayerIDs
          (take 5 sampleDetailsOkSchedule) (startDetails samplePlayerIDs) with
  | Next s => s
  | _ => startDetails samplePlayerIDs
  end.

Lemma sampleFetching_reachable :
  dreachable detailsHandler zeroPlayerDetails samplePlayerIDs sampleFetching.
Proof.
  apply (drun_reachable _ _ _ (take 5 sampleDetailsOkSchedule)). vm_compute. reflexivity.
Qed.

Lemma details_progress_witness :
  dreachable detailsHandler zeroPlayerDetails samplePlayerIDs sampleFetching
  /\ dreturned sampleFetching = false
  /\ Forall (fun je => is_Some (detailsHandler je.1 je.2)) (log (dshared sampleFetching))
  /\ ((exists s', dexec detailsHandler zeroPlayerDetails samplePlayerIDs DOwner
                    sampleFetching = Next s')
      \/ (exists i s', dexec detailsHandler zeroPlayerDetails samplePlayerIDs (DWorker i)
                         sampleFetching = Next s')
      \/ (exists i, forall e, exists s',
            dexec detailsHandler zeroPlayerDetails samplePlayerIDs (DRespond i e)
              sampleFetching = Next s')).
Proof.
  assert (Hlog : Forall (fun je => is_Some (detailsHandler je.1 je.2))
                   (log (dshared sampleFetching))) by (vm_compute; constructor).
  assert (Hret : dreturned sampleFetching = false) by (vm_compute; reflexivity).
  split; [exact sampleFetching_reachable|]. split; [exact Hret|]. split; [exact Hlog|].
  exact (details_progress detailsHandler zeroPlayerDetails samplePlayerIDs sampleFetching
           sampleFetching_reachable Hlog Hret).
Defined.

(** ** The workers of [getPlayerDetailsWithWorkers] after the caller has left *)

Section DetailsBuffers.

Context {J E R : Type}.
Variable handler : J -> E -> option R.
Variable zeroValue : R.

(** What holds of the channels and the workers in every state, also
    after the caller has returned the error of the context: the shared
    invariant for the results received so far, whoever keeps them. *)
Definition workersInv (playerIDs : list J) (s : detailsPool J E R) : Prop :=
  exists received,
    hubInv handler playerIDs (stillToSend (collectorG s)) received (dshared s)
    /\ closed (results (dshared s)) = false
    /\ cap (results (dshared s)) = length playerIDs
    /\ closed (jobs (dshared s))
       = match collectorG s with DSubmitting _ => false | _ => true end.

Lemma workersInv_move (playerIDs : list J) (s : detailsPool J E R) (h' : hub J E R) :
  workersInv playerIDs s -> workerMove handler (dshared s) h' ->
  workersInv playerIDs (mkDetails h' (collectorG s) (ctxDone s)).
Proof.
  intros (received & Hhub & Hopen & Hcap & Hjc) Hmove.
  destruct (move_frame _ _ _ Hmove) as (Hcap' & Hjc' & Hrc' & _).
  exists received. simpl. rewrite Hcap', Hjc', Hrc'.
  split; [by eapply hubInv_move|done].
Qed.

Lemma workersInv_step (playerIDs : list J) (s s' : detailsPool J E R) :
  workersInv playerIDs s -> dstep handler zeroValue playerIDs s s' ->
  workersInv playerIDs s'.
Proof.
  intros Hinv [[| |i|i e|] Hexec]; simpl in Hexec.
  - destruct Hinv as (received & [Hjobs Hres Hcapj Hleft Hclosed] & Hopen & Hcap & Hjc).
    unfold collectorStep in Hexec.
    destruct (collectorG s) as [[|job rest]|[|n] players|players|] eqn:Hc;
      simpl in *; try done.
    + unfold close in Hexec. rewrite Hjc in Hexec. injection Hexec as <-.
      exists received. simpl. split; [|done]. split; simpl; try done.
      intros w Hw Hafter. destruct (Hleft w Hw Hafter) as [Hcl _]. congruence.
    + unfold send in Hexec. rewrite Hjc in Hexec.
      destruct (length (buf (jobs (dshared s))) <? cap (jobs (dshared s)))%nat; [|done].
      injection Hexec as <-. exists received. simpl. split; [|done].
      split; simpl; try done.
      * rewrite Hjobs. solve_Permutation.
      * intros w Hw Hafter. destruct (Hleft w Hw Hafter) as [Hcl _]. congruence.
    + injection Hexec as <-. exists received. simpl. split; [|done]. by split.
    + unfold recv in Hexec. rewrite Hopen in Hexec.
      destruct (buf (results (dshared s))) as [|r rest] eqn:Hbuf; [done|].
      injection Hexec as <-. exists (received ++ [r]). simpl. split; [|done].
      split; simpl; try done. rewrite Hres. solve_Permutation.
  - unfold collectorCtxStep in Hexec.
    destruct (collectorG s) as [|[|n] players| |] eqn:Hc; try done.
    destruct (ctxDone s); [|done]. injection Hexec as <-.
    destruct Hinv as (received & Hhub & Hopen & Hcap & Hjc). rewrite Hc in *.
    by exists received.
  - unfold detailsWorkerStep in Hexec.
    destruct (workers (dshared s) !! i) as [w|] eqn:Hi.
    + assert (Hshared : dwithShared s (workerStep i (dshared s)) = Next s' ->
                        workersInv playerIDs s').
      { unfold dwithShared.
        destruct (workerStep i (dshared s)) as [h'| |] eqn:Hstep; try done.
        intros [= <-]. apply workersInv_move; [done|]. by eapply workerStep_move. }
      destruct w as [|job|r| |]; try (by apply Hshared).
      injection Hexec as <-.
      apply workers_split in Hi as (l1 & l2 & Hws & Hins).
      apply workersInv_move; [done|]. eapply EndsGoroutine; [done|]. by rewrite Hins.
    + unfold dwithShared, workerStep in Hexec. by rewrite Hi in Hexec.
  - unfold dwithShared in Hexec.
    destruct (respond handler i e (dshared s)) as [h'| |] eqn:Hstep; try done.
    injection Hexec as <-. apply workersInv_move; [done|]. by eapply respond_move.
  - destruct (ctxDone s); [done|]. by injection Hexec as <-.
Qed.

Lemma workersInv_reachable (playerIDs : list J) (s : detailsPool J E R) :
  dreachable handler zeroValue playerIDs s -> workersInv playerIDs s.
Proof.
  unfold dreachable. intros Hreach. pattern s. revert s Hreach.
  apply rtc_ind_r.
  - exists []. split; [|done]. apply (detailsInv_start handler).
  - intros s s' _ Hstep Hinv. by eapply workersInv_step.
Qed.

(** X10.  The workers of [getPlayerDetailsWithWorkers] never wait on a
    send, whatever the caller does.  In every state of a run, also after
    the caller has returned with the error of the context, the result
    channel is open and, when a worker holds a result, has room for it:
    the worker's send goes through.  A worker that asks for the next job
    gets one, or, once the caller has closed the job channel, leaves its
    loop; a worker inside a fetch goes on when the fetch comes back.  So
    a worker that has not finished can always take its next step: no
    goroutine is left behind blocked on a channel. *)
Theorem details_workers_never_wait (playerIDs : list J) (s : detailsPool J E R)
    (i : nat) (w : worker J R) :
  dreachable handler zeroValue playerIDs s ->
  workers (dshared s) !! i = Some w ->
  closed (results (dshared s)) = false
  /\ length (buf (results (dshared s))) <= cap (results (dshared s))
  /\ match w with
     | Sending r =>
       length (buf (results (dshared s))) < cap (results (dshared s))
       /\ exists s', dexec handler zeroValue playerIDs (DWorker i) s = Next s'
     | AtRange =>
       (exists rest, collectorG s = DSubmitting rest)
       \/ exists s', dexec handler zeroValue playerIDs (DWorker i) s = Next s'
     | Running job =>
       forall e, exists s', dexec handler zeroValue playerIDs (DRespond i e) s = Next s'
     | Returned => exists s', dexec handler zeroValue playerIDs (DWorker i) s = Next s'
     | Exited => True
     end.
Proof.
  intros Hreach Hi.
  destruct (workersInv_reachable _ _ Hreach)
    as (received & [Hjobs Hres Hcapj Hleft Hclosed] & Hopen & Hcap & Hjc).
  pose proof (length_produced handler (log (dshared s))) as Hprod.
  pose proof (Permutation_length Hjobs) as Hlj.
  pose proof (Permutation_length Hres) as Hlr.
  rewrite !length_app, length_fmap in Hlj. rewrite !length_app in Hlr.
  split; [done|]. split; [lia|].
  destruct w as [|job|r| |]; simpl; try done.
  - destruct (collectorG s) as [rest| | |] eqn:Hc; [left; by exists rest|right..];
      unfold detailsWorkerStep, dwithShared, workerStep, recv; rewrite Hi;
      destruct (buf (jobs (dshared s))); rewrite ?Hjc; by eexists.
  - intros e. unfold dwithShared, respond. rewrite Hi. by eexists.
  - assert (Hroom : length (buf (results (dshared s))) < cap (results (dshared s))).
    { destruct (workers_split _ _ _ Hi) as (l1 & l2 & Hws & _).
      rewrite Hws, !omap_app, length_app in Hlr. simpl in Hlr. lia. }
    split; [done|].
    unfold detailsWorkerStep, dwithShared, workerStep, send. rewrite Hi, Hopen.
    destruct (Nat.ltb_spec (length (buf (results (dshared s)))) (cap (results (dshared s))));
      [by eexists|lia].
  - unfold detailsWorkerStep. rewrite Hi. by eexists.
Qed.

End DetailsBuffers.

(** In the run with the failed fetch, once the caller has given up:
    the workers have all finished, none is stuck. *)
Definition sampleGivenUp : detailsPool string (option PlayerDetails) PlayerDetails :=
  match drun detailsHandler zeroPlayerDetails samplePlayerIDs
          (take 8 sampleDetailsSchedule ++ [DDeadline; DOwner; DOwnerCtx])
          (startDetails samplePlayerIDs) with
  | Next s => s
  | _ => startDetails samplePlayerIDs
  end.

Lemma details_workers_never_wait_witness :
  collectorG sampleGivenUp = ReturnedCtxErr
  /\ workers (dshared sampleGivenUp) !! 1 = Some AtRange
  /\ closed (results (dshared sampleGivenUp)) = false
  /\ exists s', dexec detailsHandler zeroPlayerDetails samplePlayerIDs (DWorker 1)
                  sampleGivenUp = Next s'.
Proof.
  assert (Hi : workers (dshared sampleGivenUp) !! 1 = Some AtRange)
    by (vm_compute; reflexivity).
  assert (Hc : collectorG sampleGivenUp = ReturnedCtxErr) by (vm_compute; reflexivity).
  assert (Hreach : dreachable detailsHandler zeroPlayerDetails samplePlayerIDs sampleGivenUp).
  { apply (drun_reachable _ _ _ (take 8 sampleDetailsSchedule ++ [DDeadline; DOwner; DOwnerCtx])).
    vm_compute. reflexivity. }
  split; [exact Hc|]. split; [exact Hi|].
  destruct (details_workers_never_wait detailsHandler zeroPlayerDetails samplePlayerIDs
              sampleGivenUp 1 AtRange Hreach Hi) as (Hopen & _ & Hmove).
  split; [exact Hopen|].
  destruct Hmove as [[rest Hsub]|Hnext]; [|exact Hnext].
  rewrite Hc in Hsub. discriminate Hsub.
Defined.

(** ** Every run of [getPlayerDetailsWithWorkers] ends *)

Section DetailsRuns.

Context {J E R : Type}.
Variable handler : J -> E -> option R.
Variable zeroValue : R.

(** A bound on the number of steps left, for [k] player IDs. *)
Definition collectorWeight (k : nat) (c : collector J R) : nat :=
  match c with
  | DSubmitting rest => 12 * length rest + k + 4
  | Collecting n _ => n + 2
  | ReturnedPlayers _ | ReturnedCtxErr => 0
  end.

Definition dstepsLeft (k : nat) (s : detailsPool J E R) : nat :=
  hubWeight (dshared s) + collectorWeight k (collectorG s)
  + (if ctxDone s then 0 else 1).

Lemma dstep_decreases (playerIDs : list J) (s s' : detailsPool J E R) :
  dstep handler zeroValue playerIDs s s' ->
  dstepsLeft (length playerIDs) s' < dstepsLeft (length playerIDs) s.
Proof.
  intros [[| |i|i e|] Hexec]; simpl in Hexec; unfold dstepsLeft.
  - unfold collectorStep in Hexec.
    destruct (collectorG s) as [[|job rest]|[|n] players|players|] eqn:Hc; try done.
    + unfold close in Hexec. destruct (closed (jobs (dshared s))); [done|].
      injection Hexec as <-. unfold hubWeight. simpl. lia.
    + unfold send in Hexec. destruct (closed (jobs (dshared s))); [done|].
      destruct (length (buf (jobs (dshared s))) <? cap (jobs (dshared s)))%nat; [|done].
      injection Hexec as <-. unfold hubWeight. simpl. rewrite length_app. simpl. lia.
    + injection Hexec as <-. simpl. lia.
    + unfold recv in Hexec. destruct (buf (results (dshared s))) as [|r rest] eqn:Hbuf.
      * destruct (closed (results (dshared s))); [|done].
        injection Hexec as <-. simpl. lia.
      * injection Hexec as <-. unfold hubWeight. simpl. rewrite Hbuf. simpl. lia.
  - unfold collectorCtxStep in Hexec.
    destruct (collectorG s) as [|[|n] players| |]; try done.
    destruct (ctxDone s); [|done]. injection Hexec as <-. simpl. lia.
  - unfold detailsWorkerStep in Hexec.
    destruct (workers (dshared s) !! i) as [w|] eqn:Hi.
    + assert (Hshared : dwithShared s (workerStep i (dshared s)) = Next s' ->
                hubWeight (dshared s') + collectorWeight (length playerIDs) (collectorG s')
                  + (if ctxDone s' then 0 else 1)
                < hubWeight (dshared s) + collectorWeight (length playerIDs) (collectorG s)
                  + (if ctxDone s then 0 else 1)).
      { unfold dwithShared.
        destruct (workerStep i (dshared s)) as [h'| |] eqn:Hstep; try done.
        intros [= <-]. simpl. apply (workerStep_move handler), move_weight in Hstep. lia. }
      destruct w as [|job|r| |]; try (by apply Hshared).
      injection Hexec as <-. simpl.
      apply workers_split in Hi as (l1 & l2 & Hws & Hins).
      assert (Hm : workerMove handler (dshared s)
                     (mkHub (jobs (dshared s)) (results (dshared s))
                        (<[i:=Exited]> (workers (dshared s))) (log (dshared s)))).
      { eapply EndsGoroutine; [done|]. by rewrite Hins. }
      apply move_weight in Hm. lia.
    + unfold dwithShared, workerStep in Hexec. by rewrite Hi in Hexec.
  - unfold dwithShared in Hexec.
    destruct (respond handler i e (dshared s)) as [h'| |] eqn:Hstep; try done.
    injection Hexec as <-. simpl. apply respond_move, move_weight in Hstep. lia.
  - destruct (ctxDone s); [done|]. injection Hexec as <-. simpl. lia.
Qed.

Lemma nsteps_dstepsLeft (playerIDs : list J) (n : nat) (s s' : detailsPool J E R) :
  nsteps (dstep handler zeroValue playerIDs) n s s' ->
  n + dstepsLeft (length playerIDs) s' <= dstepsLeft (length playerIDs) s.
Proof.
  induction 1 as [|n s0 s1 s2 Hstep _ IH]; [done|].
  apply dstep_decreases in Hstep. lia.
Qed.

(** X11.  Every run of [getPlayerDetailsWithWorkers] ends, and ends
    cleanly.  Each step of a goroutine uses up some of a bound, so a run
    on [k] player IDs has at most [13 * k + 15] steps, the firing of the
    deadline and the return of each fetch counted as steps.  And a state
    in which nothing can move any more (no goroutine, no fetch still to
    come back, the deadline has fired) is one in which the caller has
    returned and every worker goroutine has ended: the call and its
    workers cannot stay behind, waiting for each other. *)
Theorem details_runs_end_finished (e0 : E) (playerIDs : list J) (n : nat)
    (s : detailsPool J E R) :
  nsteps (dstep handler zeroValue playerIDs) n (startDetails playerIDs) s ->
  n + dstepsLeft (length playerIDs) s <= 13 * length playerIDs + 15
  /\ (forall s', dstep handler zeroValue playerIDs s s' ->
        dstepsLeft (length playerIDs) s' < dstepsLeft (length playerIDs) s)
  /\ ((forall s', ~ dstep handler zeroValue playerIDs s s') ->
      dreturned s = true /\ ctxDone s = true /\ allExited (workers (dshared s))).
Proof.
  intros Hrun. split; [|split; [intros s'; apply dstep_decreases|]].
  { apply nsteps_dstepsLeft in Hrun. unfold dstepsLeft in Hrun at 2.
    unfold hubWeight, numWorkers in Hrun. simpl in Hrun. lia. }
  intros Hstuck.
  assert (Hwait : forall a s', dexec handler zeroValue playerIDs a s <> Next s').
  { intros a s' Hexec. apply (Hstuck s'). by exists a. }
  assert (Hreach : dreachable handler zeroValue playerIDs s).
  { by eapply rtc_nsteps_2. }
  destruct (workersInv_reachable _ _ _ _ Hreach)
    as (received & [Hjobs Hres Hcapj Hleft Hclosed] & Hopen & Hcap & Hjc).
  pose proof (length_produced handler (log (dshared s))) as Hprod.
  pose proof (Permutation_length Hjobs) as Hlj.
  pose proof (Permutation_length Hres) as Hlr.
  rewrite !length_app, length_fmap in Hlj. rewrite !length_app in Hlr.
  (* the deadline has fired *)
  assert (Hdone : ctxDone s = true).
  { destruct (ctxDone s) eqn:Hd; [done|]. exfalso.
    apply (Hwait DDeadline (mkDetails (dshared s) (collectorG s) true)).
    simpl. by rewrite Hd. }
  (* the caller has returned *)
  assert (Hret : dreturned s = true).
  { unfold dreturned.
    destruct (collectorG s) as [[|job rest]|[|m] players|players|] eqn:Hc; try done;
      exfalso; simpl in *.
    - eapply (Hwait DOwner). simpl. unfold collectorStep, close. by rewrite Hc, Hjc.
    - eapply (Hwait DOwner). simpl. unfold collectorStep, send. rewrite Hc, Hjc.
      destruct (Nat.ltb_spec (length (buf (jobs (dshared s)))) (cap (jobs (dshared s))));
        [done|lia].
    - eapply (Hwait DOwner). simpl. unfold collectorStep. by rewrite Hc.
    - eapply (Hwait DOwnerCtx). simpl. unfold collectorCtxStep. by rewrite Hc, Hdone. }
  split; [done|]. split; [done|].
  (* every worker has ended *)
  assert (Hclosedj : closed (jobs (dshared s)) = true).
  { rewrite Hjc. unfold dreturned in Hret. by destruct (collectorG s). }
  apply Forall_forall. intros w Hw.
  apply list_elem_of_lookup_1 in Hw as [i Hi].
  destruct w as [|job|r| |]; [exfalso..|done].
  - destruct (buf (jobs (dshared s))) as [|job rest] eqn:Hbuf.
    + eapply (Hwait (DWorker i)). simpl.
      unfold detailsWorkerStep, dwithShared, workerStep, recv.
      by rewrite Hi, Hbuf, Hclosedj.
    + eapply (Hwait (DWorker i)). simpl.
      unfold detailsWorkerStep, dwithShared, workerStep, recv.
      by rewrite Hi, Hbuf.
  - eapply (Hwait (DRespond i e0)). simpl. unfold dwithShared, respond. by rewrite Hi.
  - eapply (Hwait (DWorker i)). simpl.
    unfold detailsWorkerStep, dwithShared, workerStep, send. rewrite Hi, Hopen.
    destruct (workers_split _ _ _ Hi) as (l1 & l2 & Hws & _).
    rewrite Hws, !omap_app, length_app in Hlr. simpl in Hlr.
    destruct (Nat.ltb_spec (length (buf (results (dshared s)))) (cap (results (dshared s))));
      [done|lia].
  - eapply (Hwait (DWorker i)). simpl. unfold detailsWorkerStep. by rewrite Hi.
Qed.

End DetailsRuns.

Lemma nsteps_drun {J E R : Type} (handler : J -> E -> option R) (zeroValue : R)
    (playerIDs : list J) (schedule : list (dactor E)) (s0 s : detailsPool J E R) :
  drun handler zeroValue playerIDs schedule s0 = Next s ->
  exists n, n <= length schedule /\ nsteps (dstep handler zeroValue playerIDs) n s0 s.
Proof.
  revert s0. induction schedule as [|a schedule IH]; intros s0; simpl.
  - intros [= <-]. exists 0. split; [done|]. constructor.
  - destruct (dexec handler zeroValue playerIDs a s0) as [s1| |] eqn:Hexec; try done.
    + intros (n & Hn & Hsteps)%IH. exists (S n). split; [lia|].
      eapply nsteps_l; [by exists a|done].
    + intros (n & Hn & Hsteps)%IH. exists n. split; [lia|done].
Qed.

(** The run with the failed fetch stays within the bound. *)
Lemma details_runs_end_finished_witness :
  exists n,
    nsteps (dstep detailsHandler zeroPlayerDetails samplePlayerIDs) n
      (startDetails samplePlayerIDs) sampleStuck
    /\ n + dstepsLeft (length samplePlayerIDs) sampleStuck
       <= 13 * length samplePlayerIDs + 15.
Proof.
  assert (Hrun : drun detailsHandler zeroPlayerDetails samplePlayerIDs sampleDetailsSchedule
                   (startDetails samplePlayerIDs) = Next sampleStuck)
    by (vm_compute; reflexivity).
  destruct (nsteps_drun _ _ _ _ _ _ Hrun) as (n & _ & Hn).
  exists n. split; [exact Hn|].
  exact (proj1 (details_runs_end_finished detailsHandler zeroPlayerDetails None
                  samplePlayerIDs n sampleStuck Hn)).
Defined.

(** ** The buffers of the pools *)

Section PoolBuffers.

Context {J E R : Type}.
Variable handler : J -> E -> option R.

(** X12.  The channels of [scrapeMatchesWithWorkers] and
    [scrapeMatchLinksWithWorkers] are made large enough that no send ever
    waits.  In every state of a run the job channel holds at most as many
    jobs as were submitted and the result channel fewer results than its
    capacity allows whenever a worker has one to send; so the caller's
    next step is always possible while it submits the jobs and closes the
    channel, and so is the send of a worker that holds a result.  The
    result channel is still open at that point. *)
Theorem pool_sends_never_wait (resultsCap : nat) (submitted : list J) (s : pool J E R) :
  length submitted <= resultsCap ->
  reachable handler (startPool resultsCap submitted) s ->
  length (buf (jobs (shared s))) + length (pendingOf (ownerG s)) <= cap (jobs (shared s))
  /\ length (buf (results (shared s))) <= cap (results (shared s))
  /\ (forall rest, ownerG s = Submitting rest -> exists s', exec handler OwnerG s = Next s')
  /\ (forall i r, workers (shared s) !! i = Some (Sending r) ->
        closed (results (shared s)) = false
        /\ length (buf (results (shared s))) < cap (results (shared s))
        /\ exists s', exec handler (WorkerG i) s = Next s').
Proof.
  intros Hcap Hreach.
  pose proof (poolInv_reachable _ _ _ _ Hcap Hreach) as Hinv.
  pose proof (poolInv_attempts _ _ _ Hinv) as Hattempts.
  destruct Hinv as [[Hjobs Hres Hcapj Hleft Hclosed] Hrcap Hwg Hjc Hst Hwk Hrc Hfin Hlen].
  pose proof (length_produced handler (log (shared s))) as Hprod.
  pose proof (Permutation_length Hjobs) as Hlj.
  pose proof (Permutation_length Hres) as Hlr.
  rewrite !length_app, length_fmap in Hlj. rewrite !length_app in Hlr.
  split; [lia|]. split; [lia|]. split.
  - intros rest Ho. simpl. unfold ownerStep, send, close. rewrite Ho in *. simpl in *.
    rewrite Hjc. destruct rest as [|job rest]; [by eexists|].
    simpl in Hlj.
    destruct (Nat.ltb_spec (length (buf (jobs (shared s)))) (cap (jobs (shared s))));
      [by eexists|lia].
  - intros i r Hi.
    assert (Hopen : closed (results (shared s)) = false).
    { revert Hwk. rewrite Hrc. destruct (closerG s); try done.
      unfold allExited. rewrite Forall_forall. intros Hwk.
      by specialize (Hwk _ (list_elem_of_lookup_2 _ _ _ Hi)). }
    assert (Hroom : length (buf (results (shared s))) < cap (results (shared s))).
    { destruct (workers_split _ _ _ Hi) as (l1 & l2 & Hws & _).
      rewrite Hws, !omap_app, length_app in Hlr. simpl in Hlr. lia. }
    split; [done|]. split; [done|].
    simpl. unfold poolWorkerStep, withShared, workerStep, send. rewrite Hi, Hopen.
    destruct (Nat.ltb_spec (length (buf (results (shared s)))) (cap (results (shared s))));
      [by eexists|lia].
Qed.

End PoolBuffers.

(** In the run of the match pool above, after the three pages have come
    back: worker 0 holds the one result and can send it. *)
Definition sampleSending : pool string matchPage ScrapedMatchData :=
  match run matchesHandler (take 11 sampleSchedule) (startMatchesPool sampleLinks) with
  | Next s => s
  | _ => startMatchesPool sampleLinks
  end.

Lemma pool_sends_never_wait_witness :
  workers (shared sampleSending) !! 0 = Some (Sending (mkScraped (Data thirteenRows) "m1"))
  /\ length (buf (results (shared sampleSending))) < cap (results (shared sampleSending))
  /\ exists s', exec matchesHandler (WorkerG 0) sampleSending = Next s'.
Proof.
  assert (Hi : workers (shared sampleSending) !! 0
               = Some (Sending (mkScraped (Data thirteenRows) "m1")))
    by (vm_compute; reflexivity).
  assert (Hreach : reachable matchesHandler (startPool (length sampleLinks * 10) sampleLinks)
                     sampleSending).
  { apply (run_reachable _ (take 11 sampleSchedule)). vm_compute. reflexivity. }
  split; [exact Hi|].
  destruct (pool_sends_never_wait matchesHandler (length sampleLinks * 10) sampleLinks
              sampleSending ltac:(simpl; lia) Hreach) as (_ & _ & _ & Hsend).
  destruct (Hsend _ _ Hi) as (_ & Hroom & Hnext). by split.
Defined.

(** ** The leaderboard in pages *)

(** The later [getTopPlayersURL], which takes the offset of the page. *)
Module Paged.

Definition getTopPlayersURL (region : string) (offset limit : Z) : string :=
  if (limit >? maxLimit)%Z
  then topPlayersURL +:+ region +:+ "?offset=" +:+ fmtInt offset
       +:+ "&limit=" +:+ fmtInt maxLimit
  else topPlayersURL +:+ region +:+ "?offset=" +:+ fmtInt offset
       +:+ "&limit=" +:+ fmtInt limit.

End Paged.

(** The constants of [FetchAndScrapeJob]. *)
Definition leaderboardStart : Z := 0.
Definition leaderboardEnd : Z := 2000.
Definition pageOffset : Z := 50.
Definition fetchLimit : Z := 50.

(** [n] start positions, [offset] apart: the values [startPos] takes in a
    loop [for ...; startPos += offset] that runs [n] times. *)
Fixpoint pagesFrom (n : nat) (startPos offset : Z) : list Z :=
  match n with
  | O => []
  | S n => startPos :: pagesFrom n (startPos + offset)%Z offset
  end.

Lemma pagesFrom_elem (n : nat) (startPos offset p : Z) :
  p ∈ pagesFrom n startPos offset
  <-> exists k, (0 <= k < Z.of_nat n)%Z /\ p = (startPos + offset * k)%Z.
Proof.
  revert startPos. induction n as [|n IH]; intros startPos; simpl.
  - split; [by intros ?%elem_of_nil|]. intros (k & ? & _). lia.
  - rewrite elem_of_cons, IH. split.
    + intros [->|(k & Hk & ->)]; [exists 0%Z|exists (k + 1)%Z]; split; lia.
    + intros (k & Hk & ->). destruct (decide (k = 0%Z)) as [->|Hnz]; [left; lia|].
      right. exists (k - 1)%Z. split; lia.
Qed.

Lemma length_pagesFrom (n : nat) (startPos offset : Z) :
  length (pagesFrom n startPos offset) = n.
Proof. revert startPos. induction n as [|n IH]; intros startPos; simpl; [done|]. by rewrite IH. Qed.

(** Every position from [startPos] up to the end of the [n] pages lies on
    exactly one of them. *)
Lemma pagesFrom_tiles (n : nat) (startPos offset pos : Z) :
  (0 < offset)%Z -> (startPos <= pos < startPos + offset * Z.of_nat n)%Z ->
  exists p, p ∈ pagesFrom n startPos offset /\ (p <= pos < p + offset)%Z
    /\ forall p', p' ∈ pagesFrom n startPos offset -> (p' <= pos < p' + offset)%Z -> p' = p.
Proof.
  intros Hoff Hpos. exists (startPos + offset * ((pos - startPos) / offset))%Z.
  pose proof (Z.mul_div_le (pos - startPos) offset Hoff) as Hle.
  pose proof (Z.mul_succ_div_gt (pos - startPos) offset Hoff) as Hgt.
  split; [|split; [lia|]].
  - apply pagesFrom_elem. exists ((pos - startPos) / offset)%Z. split; [|done].
    split; [apply Z.div_pos; lia|]. apply Z.div_lt_upper_bound; lia.
  - intros p' (k & Hk & ->)%pagesFrom_elem Hp'. f_equal. f_equal.
    apply (Z.div_unique_pos _ _ _ (pos - startPos - offset * k)); lia.
Qed.

Lemma pagesFrom_NoDup (n : nat) (startPos offset : Z) :
  (0 < offset)%Z -> NoDup (pagesFrom n startPos offset).
Proof.
  intros Hoff. revert startPos. induction n as [|n IH]; intros startPos; simpl.
  - apply NoDup_nil_2.
  - apply NoDup_cons. split; [|apply IH].
    intros (k & Hk & Heq)%pagesFrom_elem. nia.
Qed.


(** *** [fmt.Sprintf] with the verb [%d] can be read back *)

Lemma to_int_not_nil (n : Z) :
  Z.to_int n <> Decimal.Pos Decimal.Nil /\ Z.to_int n <> Decimal.Neg Decimal.Nil.
Proof.
  rewrite <- (DecimalZ.of_to n), DecimalZ.to_of.
  destruct (Z.to_int n) as [d|d]; simpl.
  - split; [|done]. intros [= Hd]. by apply DecimalFacts.unorm_nonnil in Hd.
  - destruct (Decimal.nzhead d) eqn:Hd; split; try done.
Qed.

Lemma fmtInt_inj (a b : Z) : fmtInt a = fmtInt b -> a = b.
Proof.
  unfold fmtInt. intros Heq. apply DecimalZ.to_int_inj.
  destruct (to_int_not_nil a) as [Ha1 Ha2]. destruct (to_int_not_nil b) as [Hb1 Hb2].
  pose proof (NilZero.isi _ Ha1 Ha2) as Hpa. pose proof (NilZero.isi _ Hb1 Hb2) as Hpb.
  rewrite Heq in Hpa. congruence.
Qed.

(** No [&] in a number. *)
Fixpoint noAmp (s : string) : Prop :=
  match s with
  | EmptyString => True
  | String c s => c <> "&"%char /\ noAmp s
  end.

Lemma noAmp_uint (d : Decimal.uint) : noAmp (NilEmpty.string_of_uint d).
Proof. induction d; simpl; try done; split; done. Qed.

Lemma noAmp_fmtInt (n : Z) : noAmp (fmtInt n).
Proof.
  unfold fmtInt, NilZero.string_of_int, NilZero.string_of_uint.
  destruct (Z.to_int n) as [d|d].
  - destruct d; try (split; [done|apply noAmp_uint]). simpl. done.
  - split; [done|]. destruct d; try (split; [done|apply noAmp_uint]). simpl. done.
Qed.

Lemma append_inj_l (p a b : string) : p +:+ a = p +:+ b -> a = b.
Proof. induction p as [|c p IH]; simpl; [done|]. intros [= H]. by apply IH. Qed.

Lemma noAmp_split (a b x y : string) :
  noAmp a -> noAmp b ->
  a +:+ String "&" x = b +:+ String "&" y -> a = b /\ x = y.
Proof.
  revert b. induction a as [|c a IH]; intros [|c' b]; simpl.
  - by intros _ _ [= ->].
  - intros _ [Hc _] [= <- _]. done.
  - intros [Hc _] _ [= -> _]. done.
  - intros [_ Ha] [_ Hb] [= -> Heq]. destruct (IH _ Ha Hb Heq) as [-> ->]. done.
Qed.

(** X13.  The paged [getTopPlayersURL].  At offset 0 it is the URL of the
    earlier one-page version.  A limit above 50 is sent as 50.  For one
    region the URL determines the page: two URLs are equal only if the
    offsets are, and the limits after clamping; so the 40 pages of
    [FetchAndScrapeJob] are fetched from 40 different URLs. *)
Theorem paged_url_determines_page (region : string) (offset limit offset' limit' : Z) :
  Paged.getTopPlayersURL region 0 limit = getTopPlayersURL region limit
  /\ Paged.getTopPlayersURL region offset limit
     = topPlayersURL +:+ region +:+ "?offset=" +:+ fmtInt offset
       +:+ "&limit=" +:+ fmtInt (Z.min limit 50)
  /\ (Paged.getTopPlayersURL region offset limit
      = Paged.getTopPlayersURL region offset' limit' ->
      offset = offset' /\ Z.min limit 50 = Z.min limit' 50)
  /\ NoDup ((fun startPos => Paged.getTopPlayersURL region startPos fetchLimit)
              <$> pagesFrom 40 leaderboardStart pageOffset).
Proof.
  assert (Hclamp : forall o l, Paged.getTopPlayersURL region o l
            = topPlayersURL +:+ region +:+ "?offset=" +:+ fmtInt o
              +:+ "&limit=" +:+ fmtInt (Z.min l 50)).
  { intros o l. unfold Paged.getTopPlayersURL, maxLimit.
    destruct (Z.gtb_spec l 50).
    - by rewrite Z.min_r by lia.
    - by rewrite Z.min_l by lia. }
  assert (Hinj : forall o l o' l',
            Paged.getTopPlayersURL region o l = Paged.getTopPlayersURL region o' l' ->
            o = o' /\ Z.min l 50 = Z.min l' 50).
  { intros o l o' l'. rewrite !Hclamp. intros Heq.
    do 3 apply append_inj_l in Heq.
    apply noAmp_split in Heq as [Ho Hl]; [|apply noAmp_fmtInt..].
    apply (append_inj_l "limit=") in Hl.
    split; by apply fmtInt_inj. }
  split; [|split; [apply Hclamp|split; [apply Hinj|]]].
  - unfold Paged.getTopPlayersURL, getTopPlayersURL. by destruct (limit >? maxLimit)%Z.
  - apply NoDup_fmap_2_strong; [|apply pagesFrom_NoDup; unfold pageOffset; lia].
    intros p p' _ _ Heq. by apply Hinj in Heq as [-> _].
Qed.

(** ** [strings.ReplaceAll] on the profile URL *)

(** [strings.ReplaceAll(s, old, new)] for a non-empty [old]: the string is
    read from the left; where [old] starts, [new] is written and the
    reading goes on behind it.  [skip] counts the bytes of a match that
    are still to be passed over. *)
Fixpoint replaceFrom (old new : string) (skip : nat) (s : string) : string :=
  match s with
  | EmptyString => EmptyString
  | String c rest =>
    match skip with
    | S k => replaceFrom old new k rest
    | O =>
      if String.prefix old s
      then new +:+ replaceFrom old new (String.length old - 1) rest
      else String c (replaceFrom old new 0 rest)
    end
  end.

Definition ReplaceAll (s old new : string) : string := replaceFrom old new 0 s.

Fixpoint hasChar (c : ascii) (s : string) : bool :=
  match s with
  | EmptyString => false
  | String c' s => if ascii_dec c c' then true else hasChar c s
  end.

(** [old] occurs in [s]. *)
Definition occursIn (old s : string) : Prop := exists a b, s = a +:+ old +:+ b.

Lemma append_cons (c : ascii) (p b : string) : String c p +:+ b = String c (p +:+ b).
Proof. done. Qed.

Lemma append_nil (b : string) : EmptyString +:+ b = b.
Proof. done. Qed.

Lemma prefix_append (p s : string) : String.prefix p s = true <-> exists b, s = p +:+ b.
Proof.
  revert s. induction p as [|c p IH]; intros s; simpl.
  - destruct s; split; eauto.
  - destruct s as [|c' s]; simpl.
    + split; [done|]. by intros [b ?].
    + destruct (ascii_dec c c') as [->|Hne].
      * rewrite IH. split; intros [b Hb]; exists b; rewrite append_cons in *; congruence.
      * split; [done|]. intros [b Hb]. rewrite append_cons in Hb. congruence.
Qed.

Lemma occursIn_cons (old : string) (c : ascii) (s : string) :
  occursIn old (String c s) <-> String.prefix old (String c s) = true \/ occursIn old s.
Proof.
  split.
  - intros ([|c' a] & b & Heq).
    + left. apply prefix_append. by exists b.
    + right. rewrite append_cons in Heq. injection Heq as _ ->. by exists a, b.
  - intros [[b Hb]%prefix_append|(a & b & ->)].
    + exists EmptyString, b. done.
    + exists (String c a), b. done.
Qed.

Section ReplaceAllFacts.

(** The first byte of [old] is not in [new], and the first byte of [new]
    is not in [old]. *)
Variables (o : ascii) (old' : string) (n : ascii) (new' : string).
Hypothesis old_not_in_new : hasChar o (String n new') = false.
Hypothesis new_not_in_old : hasChar n (String o old') = false.

Local Abbreviation old := (String o old').
Local Abbreviation new := (String n new').

(** What is read behind a byte that was copied starts as the input
    does, as far as [old] is concerned. *)
Lemma replaceFrom_prefix (p s : string) :
  hasChar n p = false ->
  String.prefix p (replaceFrom old new 0 s) = true -> String.prefix p s = true.
Proof.
  revert s. induction p as [|c p IH]; intros s Hp.
  { by destruct s. }
  simpl in Hp. destruct (ascii_dec n c) as [|Hnc]; [done|].
  destruct s as [|d s]; [done|].
  cbn [replaceFrom].
  destruct (String.prefix old (String d s)) eqn:Hmatch.
  - simpl. by destruct (ascii_dec c n) as [->|].
  - cbn [String.prefix]. destruct (ascii_dec c d); [|done]. by apply IH.
Qed.

Lemma no_prefix_in_new (u r : string) :
  u <> EmptyString -> (exists a, new = a +:+ u) -> String.prefix old (u +:+ r) = false.
Proof.
  intros Hu [a Ha]. destruct u as [|c u]; [done|]. rewrite append_cons. simpl.
  destruct (ascii_dec o c) as [<-|]; [|done]. exfalso.
  assert (Hin : hasChar o new = true).
  { rewrite Ha. clear. induction a as [|c a IH]; [rewrite append_nil|rewrite append_cons]; simpl.
    - by destruct (ascii_dec o o).
    - destruct (ascii_dec o c); [done|]. exact IH. }
  by rewrite old_not_in_new in Hin.
Qed.

Lemma replaceFrom_clean (skip : nat) (s : string) :
  ~ occursIn old (replaceFrom old new skip s).
Proof.
  revert skip. induction s as [|c s IH]; intros skip.
  { simpl. intros ([|? ?] & b & Heq); done. }
  destruct skip as [|k]; [|apply IH].
  cbn [replaceFrom]. destruct (String.prefix old (String c s)) eqn:Hmatch.
  - (* an occurrence would start inside [new], or behind it *)
    assert (Hsuffix : forall u, (exists a, new = a +:+ u) ->
              ~ occursIn old (u +:+ replaceFrom old new (String.length old - 1) s)).
    { induction u as [|d u IHu]; intros Hu; [apply IH|].
      rewrite append_cons, occursIn_cons. intros [Hp|Hocc].
      - rewrite <- append_cons in Hp. by rewrite no_prefix_in_new in Hp.
      - revert Hocc. apply IHu. destruct Hu as [a Ha].
        exists (a +:+ String d EmptyString).
        rewrite Ha. clear. induction a as [|e a IHa]; [done|].
        rewrite !append_cons. by rewrite IHa. }
    apply Hsuffix. by exists EmptyString.
  - rewrite occursIn_cons. intros [Hp|Hocc]; [|by apply (IH 0)].
    cbn [String.prefix] in Hp. destruct (ascii_dec o c) as [<-|]; [|done].
    apply replaceFrom_prefix in Hp.
    + cbn [String.prefix] in Hmatch. destruct (ascii_dec o o); [|done]. congruence.
    + simpl in new_not_in_old. by destruct (ascii_dec n o).
Qed.

Lemma replaceFrom_absent (s : string) :
  ~ occursIn old s -> replaceFrom old new 0 s = s.
Proof.
  induction s as [|c s IH]; [done|]. rewrite occursIn_cons. intros Hno.
  cbn [replaceFrom]. destruct (String.prefix old (String c s)); [tauto|].
  f_equal. apply IH. tauto.
Qed.

Lemma replaceFrom_skip (b : string) (p : string) :
  replaceFrom old new (String.length p) (p +:+ b) = replaceFrom old new 0 b.
Proof. induction p as [|c p IH]; [done|]. rewrite append_cons. simpl. exact IH. Qed.

Lemma replaceFrom_first (a b : string) :
  hasChar o a = false ->
  replaceFrom old new 0 (a +:+ old +:+ b) = a +:+ new +:+ replaceFrom old new 0 b.
Proof.
  induction a as [|c a IH]; intros Ha.
  - rewrite !append_nil, append_cons. cbn [replaceFrom].
    assert (Hp : String.prefix old (String o (old' +:+ b)) = true).
    { apply prefix_append. by exists b. }
    rewrite Hp. replace (String.length old - 1) with (String.length old') by (simpl; lia).
    f_equal. apply replaceFrom_skip.
  - simpl in Ha. destruct (ascii_dec o c) as [|Hoc]; [done|].
    rewrite !append_cons. cbn [replaceFrom String.prefix].
    destruct (ascii_dec o c); [done|]. f_equal. by apply IH.
Qed.

End ReplaceAllFacts.

(** X14.  What [FetchAndScrape] stores as [faceit_url]:
    [strings.ReplaceAll(player.FaceitURL, "{lang}", "en")] never contains
    the placeholder [{lang}]; a URL without the placeholder is stored as
    it is; and a URL whose first brace opens the placeholder has it
    replaced by [en], the rest being treated in the same way. *)
Theorem ReplaceAll_removes_placeholder (url : string) :
  ~ occursIn "{lang}" (ReplaceAll url "{lang}" "en")
  /\ (~ occursIn "{lang}" url -> ReplaceAll url "{lang}" "en" = url)
  /\ (forall a b, url = a +:+ "{lang}" +:+ b -> hasChar "{" a = false ->
        ReplaceAll url "{lang}" "en" = a +:+ "en" +:+ ReplaceAll b "{lang}" "en").
Proof.
  unfold ReplaceAll. split; [|split].
  - by apply replaceFrom_clean.
  - apply replaceFrom_absent.
  - intros a b -> Ha. by apply replaceFrom_first.
Qed.

(** ** The statements [CreateMatch] and [CreatePlayer] *)

(** A stored row: the values the statement was given, and the two
    timestamps of the table. *)
Record stamped (V : Type) := mkStamped {
  rowValues : V;
  created_at : Z;
  updated_at : Z
}.

Arguments mkStamped {V} _ _ _.
Arguments rowValues {V} _.
Arguments created_at {V} _.
Arguments updated_at {V} _.

(** [INSERT INTO t (key, values, created_at, updated_at)
     VALUES (?, ..., CURRENT_TIMESTAMP, CURRENT_TIMESTAMP)
     ON CONFLICT(key) DO UPDATE SET values = excluded.values,
       updated_at = CURRENT_TIMESTAMP]
    run at time [now]: both statements have this shape, on the primary
    key of their table. *)
Definition upsert {V : Type} (now : Z) (key : string) (v : V)
    (rows : gmap string (stamped V)) : gmap string (stamped V) :=
  match rows !! key with
  | None => <[key := mkStamped v now now]> rows
  | Some old => <[key := mkStamped v (created_at old) now]> rows
  end.

(** [-- name: CreateMatch :exec], on [matches] with key [match_url]. *)
Definition CreateMatchStmt (now : Z) (rows : gmap string (stamped CreateMatchParams))
    (m : CreateMatchParams) : gmap string (stamped CreateMatchParams) :=
  upsert now (MatchUrl m) m rows.

(** [database.CreatePlayerParams]. *)
Record CreatePlayerParams := mkCreatePlayerParams {
  SteamID : string;
  Name' : string;
  Country' : string;
  FaceitUrl : string;
  Avatar' : string
}.

(** [-- name: CreatePlayer :one], on [players] with key [steam_id]; its
    [RETURNING] clause gives back the row as it is stored. *)
Definition CreatePlayerStmt (now : Z) (rows : gmap string (stamped CreatePlayerParams))
    (p : CreatePlayerParams)
    : gmap string (stamped CreatePlayerParams) * option (stamped CreatePlayerParams) :=
  let rows' := upsert now (SteamID p) p rows in
  (rows', rows' !! SteamID p).

Lemma upsert_lookup {V : Type} (now : Z) (key : string) (v : V)
    (rows : gmap string (stamped V)) :
  upsert now key v rows !! key
  = Some (mkStamped v (from_option created_at now (rows !! key)) now).
Proof.
  unfold upsert. destruct (rows !! key) as [old|]; simpl; by rewrite lookup_insert_eq.
Qed.

Lemma upsert_lookup_ne {V : Type} (now : Z) (key key' : string) (v : V)
    (rows : gmap string (stamped V)) :
  key <> key' -> upsert now key v rows !! key' = rows !! key'.
Proof.
  intros Hne. unfold upsert. destruct (rows !! key) as [old|]; by rewrite lookup_insert_ne.
Qed.

Lemma upsert_values {V : Type} (now : Z) (key : string) (v : V)
    (rows : gmap string (stamped V)) :
  rowValues <$> upsert now key v rows = <[key := v]> (rowValues <$> rows).
Proof.
  unfold upsert. destruct (rows !! key) as [old|]; by rewrite fmap_insert.
Qed.

(** The upsert at time [now]: the key holds the new values with
    [updated_at = now] and the old [created_at]; the other rows are as
    before; a later run changes [updated_at] only; ordered timestamps
    stay ordered. *)
Lemma upsert_facts {V : Type} (now later : Z) (key : string) (v : V)
    (rows : gmap string (stamped V)) :
  upsert now key v rows !! key
  = Some (mkStamped v (from_option created_at now (rows !! key)) now)
  /\ (forall key', key <> key' -> upsert now key v rows !! key' = rows !! key')
  /\ rowValues <$> upsert now key v rows = <[key := v]> (rowValues <$> rows)
  /\ dom (upsert now key v rows) = {[key]} ∪ dom rows
  /\ upsert later key v (upsert now key v rows)
     = <[key := mkStamped v (from_option created_at now (rows !! key)) later]> rows
  /\ (map_Forall (fun _ row => (created_at row <= updated_at row <= now)%Z) rows ->
      map_Forall (fun _ row => (created_at row <= updated_at row <= now)%Z)
        (upsert now key v rows)).
Proof.
  split; [apply upsert_lookup|]. split; [intros key'; apply upsert_lookup_ne|].
  split; [apply upsert_values|]. split; [|split].
  - unfold upsert. destruct (rows !! key); by rewrite dom_insert_L.
  - unfold upsert at 1. rewrite upsert_lookup. simpl.
    unfold upsert. destruct (rows !! key); simpl; by rewrite insert_insert_eq.
  - intros Hrows key' row. destruct (decide (key = key')) as [<-|Hne].
    + rewrite upsert_lookup. intros [= <-]. simpl.
      destruct (rows !! key) as [old|] eqn:Hold; simpl; [|lia].
      specialize (Hrows _ _ Hold). simpl in Hrows. lia.
    + rewrite upsert_lookup_ne by done. apply Hrows.
Qed.


(** ** [FetchAndScrape]: the stages in sequence *)

Definition leetifyUserURL : string := "https://leetify.com/app/profile/".

(** The rows of table [players], keyed by [steam_id], without their
    timestamps. *)
Abbreviation playersTable := (gmap string CreatePlayerParams).

(** What [s.db] and [s.dbConn] reach. *)
Record database := mkDatabase {
  playerRows : playersTable;
  dbConn : conn
}.

(** The parameters of [CreatePlayer] as the loop over [playerDetails]
    fills them. *)
Definition toCreatePlayerParams (player : PlayerDetails) : CreatePlayerParams :=
  mkCreatePlayerParams (SteamID64 player) (Nickname player) (Country player)
    (ReplaceAll (FaceitURL player) "{lang}" "en") (Avatar player).

(** [url := leetifyUserURL + playerDetail.SteamID64] for every player. *)
Definition leetifyURLs (playerDetails : list PlayerDetails) : list string :=
  (fun playerDetail => leetifyUserURL +:+ SteamID64 playerDetail) <$> playerDetails.

(** How one call of [FetchAndScrape] ends: with the error it returns
    ([nil] when it has none), or in the panic of a short table row. *)
Inductive fetchError (error : Type) : Type :=
| TopPlayersError (e : error)
| PlayerDetailsError
| CreatePlayerError (e : error)
| BatchInsertError (e : error).
Arguments TopPlayersError {error} e.
Arguments PlayerDetailsError {error}.
Arguments CreatePlayerError {error} e.
Arguments BatchInsertError {error} e.

Inductive fetchExit (error : Type) : Type :=
| Return (err : option (fetchError error))
| Panic (i len : nat).
Arguments Return {error} err.
Arguments Panic {error} i len.

(** What the three pools of one call come back with. *)
Record poolRuns := mkPoolRuns {
  detailsRun : list PlayerDetails + unit;
  linksRun : list string;
  matchesRun : result (list Match)
}.

Section Orchestrator.

Variable error : Type.
Variable ParseFloat : string -> option float.

(** The leaderboard request of [getTopPlayers] on a URL: the error of the
    request or of the decoding, else the [player_id] of each item. *)
Variable httpTopPlayers : string -> error + list string.

(** The driver: what the statement behind [s.db.CreatePlayer] does to the
    rows of [players] ([inl] is its error), and the three parts of a
    transaction as in [BatchInsertMatches]. *)
Variable createPlayer : playersTable -> CreatePlayerParams -> error + playersTable.
Variable beginTx : option error.
Variable createMatch : matchesTable -> CreateMatchParams -> error + matchesTable.
Variable commit : matchesTable -> option error.

Definition getTopPlayers (region : string) (limit offset : Z) : error + list string :=
  httpTopPlayers (Paged.getTopPlayersURL region offset limit).

(** [for _, player := range playerDetails] with its early return. *)
Fixpoint createPlayers (playerDetails : list PlayerDetails) (rows : playersTable)
    : playersTable * option error :=
  match playerDetails with
  | [] => (rows, None)
  | player :: rest =>
    match createPlayer rows (toCreatePlayerParams player) with
    | inl e => (rows, Some e)
    | inr rows' => createPlayers rest rows'
    end
  end.

(** [FetchAndScrape(startPos, faceitLimit, scrapeCtx)] on the outcome
    [runs] of its pools.  The two scraping functions only ever return a
    nil error, so their [return err] is never taken. *)
Definition FetchAndScrape (startPos faceitLimit : Z) (runs : poolRuns) (db : database)
    : database * fetchExit error :=
  match getTopPlayers "EU" faceitLimit startPos with
  | inl e => (db, Return (Some (TopPlayersError e)))
  | inr playerIDs =>
    match detailsRun runs with
    | inr _ => (db, Return (Some PlayerDetailsError))
    | inl playerDetails =>
      match createPlayers playerDetails (playerRows db) with
      | (rows, Some e) => (mkDatabase rows (dbConn db), Return (Some (CreatePlayerError e)))
      | (rows, None) =>
        match matchesRun runs with
        | IndexOutOfRange i len => (mkDatabase rows (dbConn db), Panic i len)
        | Ok matches =>
          let avgMatchStats := getAverageMatchStats ParseFloat matches in
          let matchesToInsert := toCreateMatchParams <$> avgMatchStats in
          match BatchInsertMatches error beginTx createMatch commit (dbConn db)
                  matchesToInsert with
          | (c, Some e) => (mkDatabase rows c, Return (Some (BatchInsertError e)))
          | (c, None) => (mkDatabase rows c, Return None)
          end
        end
      end
    end
  end.

(** The outcomes the pools can have in a call: each pool is run on what
    the stage before it has returned. *)
Definition possibleRuns (startPos faceitLimit : Z) (runs : poolRuns) (db : database) : Prop :=
  forall playerIDs,
    getTopPlayers "EU" faceitLimit startPos = inr playerIDs ->
    getPlayerDetailsWithWorkers playerIDs (detailsRun runs)
    /\ forall playerDetails rows,
         detailsRun runs = inl playerDetails ->
         createPlayers playerDetails (playerRows db) = (rows, None) ->
         scrapeMatchLinksWithWorkers (leetifyURLs playerDetails) (linksRun runs)
         /\ scrapeMatchesWithWorkers (linksRun runs) (matchesRun runs).

(** The players table with the first rows of a list stored in order. *)
Definition withPlayers (rows : playersTable) (written : list PlayerDetails) : playersTable :=
  foldl (fun rows player => <[SteamID64 player := toCreatePlayerParams player]> rows)
    rows written.

End Orchestrator.

Section OrchestratorFacts.

Variable error : Type.
Variable ParseFloat : string -> option float.
Variable httpTopPlayers : string -> error + list string.
Variable createPlayer : playersTable -> CreatePlayerParams -> error + playersTable.
Variable beginTx : option error.
Variable createMatch : matchesTable -> CreateMatchParams -> error + matchesTable.
Variable commit : matchesTable -> option error.

(** What the two statements do when they succeed: the row is stored
    under its key. *)
Hypothesis createPlayer_stores :
  forall rows p rows', createPlayer rows p = inr rows' -> rows' = <[SteamID p := p]> rows.
Hypothesis createMatch_stores :
  forall view m view', createMatch view m = inr view' -> view' = <[MatchUrl m := m]> view.

Lemma createPlayers_prefix (playerDetails : list PlayerDetails) (rows rows' : playersTable)
    (err : option error) :
  createPlayers error createPlayer playerDetails rows = (rows', err) ->
  exists written,
    written `prefix_of` playerDetails
    /\ rows' = withPlayers rows written
    /\ (err = None -> written = playerDetails).
Proof.
  revert rows. induction playerDetails as [|player rest IH]; intros rows; simpl.
  - intros [= <- <-]. by exists [].
  - destruct (createPlayer rows (toCreatePlayerParams player)) as [e|rows1] eqn:Hp.
    + intros [= <- <-]. exists []. split; [apply prefix_nil|]. by split.
    + apply createPlayer_stores in Hp as ->. intros Hrest.
      destruct (IH _ Hrest) as (written & Hpre & -> & Hall).
      exists (player :: written). split; [by apply prefix_cons|]. split; [done|].
      intros Herr. by rewrite Hall.
Qed.

Lemma withPlayers_rows (written : list PlayerDetails) (rows : playersTable)
    (id : string) (row : CreatePlayerParams) :
  withPlayers rows written !! id = Some row ->
  rows !! id = Some row
  \/ exists player, player ∈ written /\ id = SteamID64 player
       /\ row = toCreatePlayerParams player.
Proof.
  revert rows. induction written as [|player written IH] using rev_ind; intros rows.
  { by left. }
  unfold withPlayers in *. rewrite foldl_app. simpl.
  destruct (decide (SteamID64 player = id)) as [<-|Hne].
  - rewrite lookup_insert_eq. intros [= <-]. right. exists player.
    split; [|done]. apply elem_of_app. right. by apply list_elem_of_singleton.
  - rewrite lookup_insert_ne by done. intros [Hold|(p & Hp & ? & ?)]%IH; [by left|].
    right. exists p. split; [|done]. apply elem_of_app. by left.
Qed.

Lemma withPlayers_stored (written : list PlayerDetails) (rows : playersTable)
    (player : PlayerDetails) :
  player ∈ written -> is_Some (withPlayers rows written !! SteamID64 player).
Proof.
  revert rows. induction written as [|p written IH] using rev_ind; intros rows Hin.
  { by apply elem_of_nil in Hin. }
  unfold withPlayers in *. rewrite foldl_app. simpl.
  destruct (decide (SteamID64 p = SteamID64 player)) as [Heq|Hne].
  - rewrite Heq, lookup_insert_eq. by eexists.
  - rewrite lookup_insert_ne by done.
    apply elem_of_app in Hin as [Hin| ->%list_elem_of_singleton]; [by apply IH|done].
Qed.

Lemma faceitURL_clean (url : string) : ~ occursIn "{lang}" (ReplaceAll url "{lang}" "en").
Proof. unfold ReplaceAll. by apply replaceFrom_clean. Qed.

(** With pairwise distinct URLs every record of the batch is stored as
    it is. *)
Lemma withBatch_lookup_NoDup (matches : list CreateMatchParams) (t : matchesTable)
    (m : CreateMatchParams) :
  NoDup (MatchUrl <$> matches) -> m ∈ matches ->
  withBatch t matches !! MatchUrl m = Some m.
Proof.
  revert t. induction matches as [|m0 matches IH] using rev_ind; intros t Hnd Hm.
  { by apply elem_of_nil in Hm. }
  unfold withBatch in *. rewrite foldl_app. simpl.
  rewrite fmap_app in Hnd. apply NoDup_app in Hnd as (Hnd & Hfresh & _).
  apply elem_of_app in Hm as [Hm| ->%list_elem_of_singleton].
  - rewrite lookup_insert_ne; [by apply IH|].
    intros Heq. apply (Hfresh (MatchUrl m)).
    + apply list_elem_of_fmap. by exists m.
    + rewrite <- Heq. simpl. by left.
  - by rewrite lookup_insert_eq.
Qed.

(** [BatchInsertMatches] on a connection without a transaction. *)
Lemma BatchInsertMatches_cases (rows : matchesTable) (matches : list CreateMatchParams) :
  (exists e, BatchInsertMatches error beginTx createMatch commit (mkConn rows None) matches
             = (mkConn rows None, Some e))
  \/ BatchInsertMatches error beginTx createMatch commit (mkConn rows None) matches
     = (mkConn (withBatch rows matches) None, None).
Proof.
  unfold BatchInsertMatches, BeginTx. simpl.
  destruct beginTx as [e|]; [left; by exists e|].
  rewrite insertLoop_runs.
  destruct (runInserts error createMatch rows matches) as [e|view] eqn:Hrun.
  { left. by exists e. }
  apply (runInserts_withBatch _ _ createMatch_stores) in Hrun as ->.
  unfold Commit. simpl.
  destruct (commit (withBatch rows matches)) as [e|]; [left; by exists e|by right].
Qed.

(** X16.  [FetchAndScrape] writes the matches all at once or not at all.
    Called without an open transaction it leaves none open.  Unless it
    returns [nil], the committed matches are the ones from before the
    call: this holds for every error it returns and for the panic of the
    assembly.  When it returns [nil], the committed matches are the old
    ones with the averages of the scraped matches stored; these carry
    pairwise distinct URLs, so each record is stored as computed, none
    overwritten by another of the same call; each URL is one of the match
    links found, and there are at most as many records as links. *)
Theorem fetch_and_scrape_matches_atomic (startPos faceitLimit : Z) (runs : poolRuns)
    (db db' : database) (out : fetchExit error) :
  possibleRuns error httpTopPlayers createPlayer startPos faceitLimit runs db ->
  openTx (dbConn db) = None ->
  FetchAndScrape error ParseFloat httpTopPlayers createPlayer beginTx createMatch commit
    startPos faceitLimit runs db = (db', out) ->
  openTx (dbConn db') = None
  /\ (out <> Return None -> committed (dbConn db') = committed (dbConn db))
  /\ (out = Return None ->
      exists matches,
        matchesRun runs = Ok matches
        /\ committed (dbConn db')
           = withBatch (committed (dbConn db))
               (toCreateMatchParams <$> getAverageMatchStats ParseFloat matches)
        /\ NoDup (MatchUrl <$> (toCreateMatchParams <$> getAverageMatchStats ParseFloat matches))
        /\ (forall m, m ∈ toCreateMatchParams <$> getAverageMatchStats ParseFloat matches ->
              committed (dbConn db') !! MatchUrl m = Some m
              /\ MatchUrl m ∈ linksRun runs)
        /\ length (getAverageMatchStats ParseFloat matches) <= length (linksRun runs)).
Proof.
  intros Hruns Htx. unfold FetchAndScrape.
  destruct (getTopPlayers error httpTopPlayers "EU" faceitLimit startPos)
    as [e|playerIDs] eqn:Htop.
  { intros [= <- <-]. split; [done|]. split; [done|]. done. }
  destruct (Hruns _ Htop) as [_ Hscrape].
  destruct (detailsRun runs) as [playerDetails|[]] eqn:Hdetails.
  2:{ intros [= <- <-]. split; [done|]. split; [done|]. done. }
  destruct (createPlayers error createPlayer playerDetails (playerRows db))
    as [rows [e|]] eqn:Hplayers.
  { intros [= <- <-]. split; [done|]. split; [done|]. done. }
  destruct (Hscrape _ _ eq_refl Hplayers) as [Hlinks Hmatches].
  destruct (matchesRun runs) as [matches|i len] eqn:Hms.
  2:{ intros [= <- <-]. split; [done|]. split; [done|]. done. }
  destruct (dbConn db) as [old tx] eqn:Hconn. simpl in Htx. subst tx.
  destruct (BatchInsertMatches_cases old
              (toCreateMatchParams <$> getAverageMatchStats ParseFloat matches))
    as [[e Hbatch]|Hbatch]; rewrite Hbatch.
  { intros [= <- <-]. split; [done|]. split; [done|]. done. }
  intros [= <- <-]. simpl. split; [done|]. split; [done|]. intros _.
  exists matches. split; [done|]. split; [done|].
  (* the links are distinct, hence the matches, hence the records *)
  pose proof (scrapeMatchLinksWithWorkers_NoDup _ _ Hlinks) as Hnd.
  destruct Hmatches as (s & collected & Hreach & Hfin & Hout). symmetry in Hout.
  pose proof (finished_matches_urls _ _ _ _ Hreach Hfin Hout) as Hsub.
  assert (Hurls : MatchUrl <$> (toCreateMatchParams <$> getAverageMatchStats ParseFloat matches)
                  ⊆+ linksRun runs).
  { etrans; [|exact Hsub]. apply sublist_submseteq.
    rewrite <- list_fmap_compose.
    change (MatchUrl ∘ toCreateMatchParams) with AvgMatchURL.
    apply getAverageMatchStats_urls. }
  pose proof (submseteq_NoDup _ _ Hurls Hnd) as Hunique.
  split; [done|]. split.
  - intros m Hm. split; [by apply withBatch_lookup_NoDup|].
    apply (elem_of_submseteq _ _ _ (proj2 (list_elem_of_fmap _ _ _) (ex_intro _ m (conj eq_refl Hm))) Hurls).
  - apply submseteq_length in Hurls. by rewrite !length_fmap in Hurls.
Qed.


End OrchestratorFacts.

(** *** One call, from the leaderboard to the database *)

Definition sampleHttpTopPlayers (url : string) : string + list string :=
  inr samplePlayerIDs.

(** A driver on which no statement fails. *)
Definition sampleCreatePlayer (rows : playersTable) (p : CreatePlayerParams)
    : string + playersTable :=
  inr (<[SteamID p := p]> rows).

Definition sampleUpsertMatch (view : matchesTable) (m : CreateMatchParams)
    : string + matchesTable :=
  inr (<[MatchUrl m := m]> view).

(** The profile pages of the two players: both load, one link is on both. *)
Definition sampleProfileSchedule : list (actor (option (list string))) :=
  [OwnerG; OwnerG; OwnerG; OwnerG;
   WorkerG 0; WorkerG 1;
   Respond 0 (Some ["m1"; "m2"]); Respond 1 (Some ["m2"; "m3"]);
   WorkerG 0; WorkerG 1; OwnerG; OwnerG;
   WorkerG 0; WorkerG 1; WorkerG 2; WorkerG 3; WorkerG 4;
   WorkerG 0; WorkerG 1; WorkerG 2; WorkerG 3; WorkerG 4;
   CloserG; CloserG; OwnerG].

Definition sampleProfileEnd : pool string (option (list string)) (list string) :=
  match run linksHandler sampleProfileSchedule
          (startLinksPool (leetifyURLs [sampleDetails2; sampleDetails])) with
  | Next s => s
  | _ => startLinksPool (leetifyURLs [sampleDetails2; sampleDetails])
  end.

Definition sampleRuns : poolRuns :=
  mkPoolRuns (inl [sampleDetails2; sampleDetails]) sampleLinks
    (assembleMatches sampleCollected).

Definition sampleDb : database := mkDatabase ∅ (mkConn ∅ None).

Abbreviation sampleCall :=
  (FetchAndScrape string sampleParseFloat sampleHttpTopPlayers sampleCreatePlayer
     None sampleUpsertMatch (fun _ => None) 0 50 sampleRuns sampleDb).

Lemma sampleRuns_possible :
  possibleRuns string sampleHttpTopPlayers sampleCreatePlayer 0 50 sampleRuns sampleDb.
Proof.
  intros playerIDs [= <-]. split.
  - exists sampleReturned. split; [exact sampleReturned_reachable|].
    assert (Hc : collectorG sampleReturned = ReturnedPlayers [sampleDetails2; sampleDetails])
      by (vm_compute; reflexivity).
    by rewrite Hc.
  - intros playerDetails rows [= <-] _. split.
    + exists sampleProfileEnd, [["m1"; "m2"]; ["m2"; "m3"]].
      split; [|split].
      * apply (run_reachable _ sampleProfileSchedule). vm_compute. reflexivity.
      * vm_compute. reflexivity.
      * vm_compute. reflexivity.
    + exists sampleEnd, sampleCollected.
      split; [exact sampleEnd_reachable|]. split; [exact sampleEnd_finished|done].
Qed.

Lemma sampleCall_returns_nil : sampleCall.2 = Return None.
Proof. vm_compute. reflexivity. Qed.

Lemma sampleCreatePlayer_stores (rows : playersTable) (p : CreatePlayerParams)
    (rows' : playersTable) :
  sampleCreatePlayer rows p = inr rows' -> rows' = <[SteamID p := p]> rows.
Proof. by intros [= <-]. Qed.

Lemma sampleUpsertMatch_stores (view : matchesTable) (m : CreateMatchParams)
    (view' : matchesTable) :
  sampleUpsertMatch view m = inr view' -> view' = <[MatchUrl m := m]> view.
Proof. by intros [= <-]. Qed.

Lemma sampleCall_pair : sampleCall = (sampleCall.1, sampleCall.2).
Proof. apply surjective_pairing. Qed.

Lemma sampleDb_no_transaction : openTx (dbConn sampleDb) = None.
Proof. reflexivity. Qed.

Lemma fetch_and_scrape_matches_atomic_witness :
  possibleRuns string sampleHttpTopPlayers sampleCreatePlayer 0 50 sampleRuns sampleDb
  /\ openTx (dbConn sampleCall.1) = None
  /\ exists matches,
       matchesRun sampleRuns = Ok matches
       /\ committed (dbConn sampleCall.1)
          = withBatch (committed (dbConn sampleDb))
              (toCreateMatchParams <$> getAverageMatchStats sampleParseFloat matches).
Proof.
  split; [exact sampleRuns_possible|].
  pose proof (fetch_and_scrape_matches_atomic string sampleParseFloat sampleHttpTopPlayers
                sampleCreatePlayer None sampleUpsertMatch (fun _ => None)
                sampleUpsertMatch_stores 0 50 sampleRuns sampleDb sampleCall.1 sampleCall.2
                sampleRuns_possible sampleDb_no_transaction sampleCall_pair) as H.
  destruct H as (Hopen & _ & Hnil).
  split; [exact Hopen|].
  destruct (Hnil sampleCall_returns_nil) as (matches & Hms & Hrows & _).
  exists matches. split; [exact Hms|exact Hrows].
Defined.


(** ** [FetchAndScrapeJob]: the leaderboard page by page *)

(** The browser contexts and the heartbeat goroutine do not touch what the
    loop computes and are left out, as is the pause between two pages. *)
Section Job.

Context {world error : Type}.

(** [s.FetchAndScrape(startPos, fetchLimit, scrapeCtx)] with the outcome
    of its pools resolved: what the call leaves behind, and how it ends. *)
Variable fetchAndScrape : Z -> Z -> world -> world * fetchExit error.

(** [for startPos := leaderboardStart; startPos < leaderboardEnd;
    startPos += offset].  An error is logged and the loop goes on; a panic
    is not recovered. *)
Fixpoint jobLoop (fuel : nat) (leaderboardEnd offset fetchLimit startPos : Z) (w : world)
    : option (world * fetchExit error) :=
  if (startPos <? leaderboardEnd)%Z then
    match fuel with
    | O => None
    | S fuel =>
      match fetchAndScrape startPos fetchLimit w with
      | (w', Return (Some _)) =>
        jobLoop fuel leaderboardEnd offset fetchLimit (startPos + offset)%Z w'
      | (w', Return None) =>
        jobLoop fuel leaderboardEnd offset fetchLimit (startPos + offset)%Z w'
      | (w', Panic i len) => Some (w', Panic i len)
      end
    end
  else Some (w, Return None).

(** The loop runs at most once per leaderboard position. *)
Definition FetchAndScrapeJob (w : world) : option (world * fetchExit error) :=
  jobLoop (Z.to_nat (leaderboardEnd - leaderboardStart))
    leaderboardEnd pageOffset fetchLimit leaderboardStart w.

(** One call after the other on a list of pages, up to the first panic. *)
Fixpoint afterPages (limit : Z) (pages : list Z) (w : world) : world * fetchExit error :=
  match pages with
  | [] => (w, Return None)
  | startPos :: rest =>
    match fetchAndScrape startPos limit w with
    | (w', Panic i len) => (w', Panic i len)
    | (w', Return _) => afterPages limit rest w'
    end
  end.

Lemma jobLoop_pages (n fuel : nat) (last offset limit startPos : Z) (w : world) :
  (0 < offset)%Z -> n <= fuel ->
  (startPos + offset * Z.of_nat n - offset < last <= startPos + offset * Z.of_nat n)%Z ->
  jobLoop fuel last offset limit startPos w
  = Some (afterPages limit (pagesFrom n startPos offset) w).
Proof.
  intros Hoff. revert fuel startPos w.
  induction n as [|n IH]; intros fuel startPos w Hfuel Hlast; simpl.
  - destruct fuel; simpl; by destruct (Z.ltb_spec startPos last); [lia|].
  - destruct fuel as [|fuel]; [lia|]. simpl.
    destruct (Z.ltb_spec startPos last); [|lia].
    destruct (fetchAndScrape startPos limit w) as [w' [[e|]|i len]]; [| |done];
      apply IH; lia.
Qed.

Lemma afterPages_no_error (limit : Z) (pages : list Z) (w : world) (e : fetchError error) :
  (afterPages limit pages w).2 <> Return (Some e).
Proof.
  revert w. induction pages as [|p pages IH]; intros w; simpl; [done|].
  destruct (fetchAndScrape p limit w) as [w' [err|i len]]; [apply IH|done].
Qed.

Lemma afterPages_all (limit : Z) (pages : list Z) (w : world) :
  (forall p w' i len, p ∈ pages -> (fetchAndScrape p limit w').2 <> Panic i len) ->
  afterPages limit pages w
  = (foldl (fun w p => (fetchAndScrape p limit w).1) w pages, Return None).
Proof.
  revert w. induction pages as [|p pages IH]; intros w Hok; simpl; [done|].
  pose proof (Hok p w) as Hp.
  destruct (fetchAndScrape p limit w) as [w' [err|i len]]; simpl in *.
  - apply IH. intros p' w'' i len Hin. apply Hok. by right.
  - exfalso. apply (Hp i len); [by left|done].
Qed.

Lemma afterPages_panics (limit : Z) (pages : list Z) (w w' : world) (i len : nat) :
  afterPages limit pages w = (w', Panic i len) ->
  exists visited p rest,
    pages = visited ++ p :: rest
    /\ fetchAndScrape p limit (foldl (fun w p => (fetchAndScrape p limit w).1) w visited)
       = (w', Panic i len).
Proof.
  revert w. induction pages as [|p pages IH]; intros w; simpl; [done|].
  destruct (fetchAndScrape p limit w) as [w1 [err|i' len']] eqn:Hp.
  - intros (visited & p' & rest & -> & Hlast)%IH.
    exists (p :: visited), p', rest. split; [done|]. simpl. by rewrite Hp.
  - intros [= <- <- <-]. by exists [], p, pages.
Qed.

Lemma FetchAndScrapeJob_pages (w : world) :
  FetchAndScrapeJob w = Some (afterPages 50 (pagesFrom 40 0 50) w).
Proof.
  unfold FetchAndScrapeJob, leaderboardStart, leaderboardEnd, pageOffset, fetchLimit.
  by rewrite (jobLoop_pages 40); [|lia..].
Qed.

(** What every call keeps, the whole job keeps. *)
Lemma afterPages_preserves (P : world -> Prop) (limit : Z) (pages : list Z) (w : world) :
  (forall startPos w0, P w0 -> P (fetchAndScrape startPos limit w0).1) ->
  P w -> P (afterPages limit pages w).1.
Proof.
  intros Hcall. revert w. induction pages as [|p pages IH]; intros w Hw; simpl; [done|].
  pose proof (Hcall p w Hw) as Hp.
  destruct (fetchAndScrape p limit w) as [w' [err|i len]]; simpl in *; [by apply IH|done].
Qed.

(** X18.  [FetchAndScrapeJob] works through the first 2000 leaderboard
    positions in 40 pages of 50, in order.  It never returns an error:
    the error of a page is logged and the later pages are still fetched,
    so that, if no call panics, all 40 calls are made, each on what the
    one before has left, and [nil] is returned.  Only a panic ends it
    early, after the calls for the pages before.  The pages neither
    overlap nor leave a gap: every position below 2000 is on exactly one
    page, and no page reaches past 2000. *)
Theorem job_visits_every_page (w : world) :
  FetchAndScrapeJob w = Some (afterPages 50 (pagesFrom 40 0 50) w)
  /\ (forall e, (afterPages 50 (pagesFrom 40 0 50) w).2 <> Return (Some e))
  /\ ((forall p w' i len, p ∈ pagesFrom 40 0 50 ->
         (fetchAndScrape p 50 w').2 <> Panic i len) ->
      FetchAndScrapeJob w
      = Some (foldl (fun w p => (fetchAndScrape p 50 w).1) w (pagesFrom 40 0 50),
              Return None))
  /\ (forall w' i len, FetchAndScrapeJob w = Some (w', Panic i len) ->
        exists visited p rest,
          pagesFrom 40 0 50 = visited ++ p :: rest
          /\ fetchAndScrape p 50 (foldl (fun w p => (fetchAndScrape p 50 w).1) w visited)
             = (w', Panic i len))
  /\ length (pagesFrom 40 0 50) = 40
  /\ (forall pos, (0 <= pos < 2000)%Z ->
        exists p, p ∈ pagesFrom 40 0 50 /\ (p <= pos < p + 50)%Z
          /\ forall p', p' ∈ pagesFrom 40 0 50 -> (p' <= pos < p' + 50)%Z -> p' = p)
  /\ (forall p, p ∈ pagesFrom 40 0 50 -> (0 <= p /\ p + 50 <= 2000)%Z).
Proof.
  pose proof (FetchAndScrapeJob_pages w) as Hjob.
  split; [done|]. split; [intros e; apply afterPages_no_error|].
  split; [|split; [|split; [apply length_pagesFrom|split]]].
  - intros Hok. rewrite Hjob. f_equal. by apply afterPages_all.
  - intros w' i len. rewrite Hjob. intros [= Hp]. by apply afterPages_panics.
  - intros pos Hpos. apply pagesFrom_tiles; lia.
  - intros p (k & Hk & ->)%pagesFrom_elem. lia.
Qed.

End Job.

(** ** The job on the database *)

Section JobOnDatabase.

Variable error : Type.
Variable ParseFloat : string -> option float.

(** What varies from page to page: the leaderboard's answer, whether the
    transaction can begin and commit, and what the pools come back with. *)
Variable httpTopPlayers : Z -> string -> error + list string.
Variable beginTx : Z -> option error.
Variable commit : Z -> matchesTable -> option error.
Variable runsOf : Z -> poolRuns.

(** The two statements. *)
Variable createPlayer : playersTable -> CreatePlayerParams -> error + playersTable.
Variable createMatch : matchesTable -> CreateMatchParams -> error + matchesTable.

Hypothesis createPlayer_stores :
  forall rows p rows', createPlayer rows p = inr rows' -> rows' = <[SteamID p := p]> rows.
Hypothesis createMatch_stores :
  forall view m view', createMatch view m = inr view' -> view' = <[MatchUrl m := m]> view.

(** The call for the page at [startPos]. *)
Definition fetchAndScrapePage (startPos faceitLimit : Z) (db : database)
    : database * fetchExit error :=
  FetchAndScrape error ParseFloat (httpTopPlayers startPos) createPlayer
    (beginTx startPos) createMatch (commit startPos)
    startPos faceitLimit (runsOf startPos) db.

(** Nothing stored before is missing, and no transaction is open. *)
Definition keeps (db db' : database) : Prop :=
  openTx (dbConn db') = None
  /\ dom (playerRows db) ⊆ dom (playerRows db')
  /\ dom (committed (dbConn db)) ⊆ dom (committed (dbConn db')).

Lemma dom_withPlayers (written : list PlayerDetails) (rows : playersTable) :
  dom rows ⊆ dom (withPlayers rows written).
Proof.
  induction written as [|player written IH] using rev_ind; [done|].
  unfold withPlayers in *. rewrite foldl_app. simpl. rewrite dom_insert. set_solver.
Qed.

Lemma dom_withBatch (matches : list CreateMatchParams) (t : matchesTable) :
  dom t ⊆ dom (withBatch t matches).
Proof.
  induction matches as [|m matches IH] using rev_ind; [done|].
  unfold withBatch in *. rewrite foldl_app. simpl. rewrite dom_insert. set_solver.
Qed.

Lemma fetchAndScrapePage_keeps (startPos faceitLimit : Z) (db0 db : database) :
  keeps db0 db -> keeps db0 (fetchAndScrapePage startPos faceitLimit db).1.
Proof.
  intros (Htx & Hplayers & Hmatches). unfold fetchAndScrapePage, FetchAndScrape.
  destruct (getTopPlayers error (httpTopPlayers startPos) "EU" faceitLimit startPos)
    as [e|playerIDs]; [done|].
  destruct (detailsRun (runsOf startPos)) as [playerDetails|[]]; [|done].
  destruct (createPlayers error createPlayer playerDetails (playerRows db))
    as [rows err] eqn:Hcreate.
  destruct (createPlayers_prefix _ _ createPlayer_stores _ _ _ _ Hcreate)
    as (written & _ & -> & _).
  pose proof (dom_withPlayers written (playerRows db)) as Hdom.
  destruct err as [e|]; [split; [done|]; split; [set_solver|done]|].
  destruct (matchesRun (runsOf startPos)) as [matches|i len];
    [|split; [done|]; split; [set_solver|done]].
  destruct (dbConn db) as [old tx] eqn:Hconn. simpl in Htx, Hmatches. subst tx.
  destruct (BatchInsertMatches_cases error (beginTx startPos) createMatch (commit startPos)
              createMatch_stores old
              (toCreateMatchParams <$> getAverageMatchStats ParseFloat matches))
    as [[e Hbatch]|Hbatch]; rewrite Hbatch; simpl.
  - split; [done|]. split; [set_solver|done].
  - split; [done|]. split; [set_solver|].
    pose proof (dom_withBatch (toCreateMatchParams <$> getAverageMatchStats ParseFloat matches)
                  old) as Hb.
    set_solver.
Qed.

(** X19.  [FetchAndScrapeJob] only ever adds rows or overwrites them.
    Started without an open transaction, however its 40 calls end (with
    an error that is logged, with [nil], or in the panic that ends the
    job), afterwards every Steam ID that had a row in [players] still has
    one, every URL that had a row in [matches] still has one, and no
    transaction is left open. *)
Theorem job_never_forgets (db db' : database) (out : fetchExit error) :
  openTx (dbConn db) = None ->
  FetchAndScrapeJob fetchAndScrapePage db = Some (db', out) ->
  openTx (dbConn db') = None
  /\ dom (playerRows db) ⊆ dom (playerRows db')
  /\ dom (committed (dbConn db)) ⊆ dom (committed (dbConn db'))
  /\ (forall id, is_Some (playerRows db !! id) -> is_Some (playerRows db' !! id))
  /\ (forall url, is_Some (committed (dbConn db) !! url) ->
        is_Some (committed (dbConn db') !! url)).
Proof.
  intros Htx. rewrite FetchAndScrapeJob_pages. intros Hjob. apply (inj Some) in Hjob.
  assert (Hkeeps : keeps db (afterPages fetchAndScrapePage 50 (pagesFrom 40 0 50) db).1).
  { apply (afterPages_preserves fetchAndScrapePage (keeps db)).
    - intros startPos w0. apply fetchAndScrapePage_keeps.
    - by split. }
  rewrite Hjob in Hkeeps. destruct Hkeeps as (Htx' & Hplayers & Hmatches).
  split; [done|]. split; [done|]. split; [done|]. split.
  - intros id. rewrite <- !elem_of_dom. set_solver.
  - intros url. rewrite <- !elem_of_dom. set_solver.
Qed.

End JobOnDatabase.

(** The job on the sample call: every page gives the same two players
    and the same match. *)
Definition sampleOldDb : database :=
  mkDatabase {["0" := mkCreatePlayerParams "0" "old" "SE" "" ""]} (mkConn ∅ None).

Abbreviation sampleJob :=
  (FetchAndScrapeJob
     (fetchAndScrapePage string sampleParseFloat (fun _ => sampleHttpTopPlayers)
        (fun _ => None) (fun _ _ => None) (fun _ => sampleRuns)
        sampleCreatePlayer sampleUpsertMatch)
     sampleOldDb).

Lemma job_never_forgets_witness :
  exists db' out,
    sampleJob = Some (db', out)
    /\ is_Some (playerRows db' !! "0").
Proof.
  destruct sampleJob as [[db' out]|] eqn:Hjob.
  - exists db', out. split; [reflexivity|].
    destruct (job_never_forgets string sampleParseFloat (fun _ => sampleHttpTopPlayers)
                (fun _ => None) (fun _ _ => None) (fun _ => sampleRuns)
                sampleCreatePlayer sampleUpsertMatch
                sampleCreatePlayer_stores sampleUpsertMatch_stores
                sampleOldDb db' out eq_refl Hjob) as (_ & _ & _ & Hplayers & _).
    apply Hplayers. unfold sampleOldDb. simpl. rewrite lookup_singleton_eq. by eexists.
  - exfalso. rewrite FetchAndScrapeJob_pages in Hjob. discriminate Hjob.
Defined.
